(** * Microfacet BSDF renderer: shallow embedding and verified properties

    The development follows the C++ sources of the renderer:
    - [muni/math_helpers.h]   local shading frame and mirror reflection,
    - [muni/material.h]       the [Lambertian] and [Dielectric] BSDFs,
    - [muni/scenes/box.h]     the area light and the material table,
    - [assignment-4.cpp]      the shading integrator and the row renderer.

    Numbers.  The program computes with IEEE-754 [float]s.  They are
    modelled in exact arithmetic: a finite value is a real number and every
    operation on finite values is the exact real operation, so rounding,
    overflow, underflow and the sign of zero are idealised away.  The special
    values that the code can produce through a division by zero (the two
    infinities and NaN) are kept, with the IEEE rules for arithmetic and
    for comparisons (every comparison with NaN is false).  Real numbers do
    not compute, so concrete runs are proved by rewriting, not by
    evaluation.

    The idealisation stands for the program up to rounding only while no
    intermediate value underflows, overflows or sits on a branch condition;
    statements about the magnitudes of [D], [G1] and [eval] carry that
    condition as a hypothesis.  Module [B32] embeds the same functions of
    [material.h] over IEEE-754 binary32 (the Standard Library's [SpecFloat],
    which computes), and is used to evaluate the program where the two
    arithmetics part.

    Effects.  The sampler is process-wide state and the recursion of the
    integrator is bounded by Russian roulette only; the integrator is
    modelled in a state monad over the sampler and a trace of events, with
    fuel for the depth of the recursion. *)

From Stdlib Require Import Reals Lra Psatz ZArith List Bool Lia RNsatz.
From Stdlib Require SpecFloat.
Import ListNotations.

Local Open Scope R_scope.

(** ** Floating-point values

    A [float] of the idealised arithmetic is a real number or one of the
    three special values.  On finite values [fadd], [fsub], [fmul], [fdiv]
    and [fsqrt] are the exact real operations: a product does not underflow
    to zero, a quotient does not overflow to infinity, and a difference such
    as [1 - c * c] is not rounded.  Module [B32] below has the operations of
    binary32. *)

Inductive float : Type :=
| Fin (x : R)
| PInf
| NInf
| NaN.

(** The infinity (or NaN) a non-zero (or zero) finite value turns into when
    it is divided by zero or multiplied by an infinity. *)
Definition inf_of_sign (a : R) : float :=
  if Rlt_dec 0 a then PInf else if Rlt_dec a 0 then NInf else NaN.

Definition fopp (a : float) : float :=
  match a with
  | Fin x => Fin (- x)
  | PInf => NInf
  | NInf => PInf
  | NaN => NaN
  end.

Definition fadd (a b : float) : float :=
  match a, b with
  | NaN, _ | _, NaN => NaN
  | Fin x, Fin y => Fin (x + y)
  | PInf, NInf | NInf, PInf => NaN
  | PInf, _ | _, PInf => PInf
  | NInf, _ | _, NInf => NInf
  end.

Definition fsub (a b : float) : float := fadd a (fopp b).

Definition fmul (a b : float) : float :=
  match a, b with
  | NaN, _ | _, NaN => NaN
  | Fin x, Fin y => Fin (x * y)
  | Fin x, PInf | PInf, Fin x => inf_of_sign x
  | Fin x, NInf | NInf, Fin x => inf_of_sign (- x)
  | PInf, PInf | NInf, NInf => PInf
  | PInf, NInf | NInf, PInf => NInf
  end.

Definition fdiv (a b : float) : float :=
  match a, b with
  | NaN, _ | _, NaN => NaN
  | Fin x, Fin y => if Req_dec_T y 0 then inf_of_sign x else Fin (x / y)
  | Fin _, PInf | Fin _, NInf => Fin 0
  | PInf, Fin y => if Rlt_dec y 0 then NInf else PInf
  | NInf, Fin y => if Rlt_dec y 0 then PInf else NInf
  | PInf, PInf | PInf, NInf | NInf, PInf | NInf, NInf => NaN
  end.

Definition fsqrt (a : float) : float :=
  match a with
  | Fin x => if Rlt_dec x 0 then NaN else Fin (sqrt x)
  | PInf => PInf
  | NInf | NaN => NaN
  end.

Definition fabs (a : float) : float :=
  match a with
  | Fin x => Fin (Rabs x)
  | PInf | NInf => PInf
  | NaN => NaN
  end.

(** [a < b] *)
Definition fltb (a b : float) : bool :=
  match a, b with
  | NaN, _ | _, NaN => false
  | Fin x, Fin y => if Rlt_dec x y then true else false
  | NInf, NInf | PInf, _ | _, NInf => false
  | NInf, _ | _, PInf => true
  end.

(** [a <= b] *)
Definition fleb (a b : float) : bool :=
  match a, b with
  | NaN, _ | _, NaN => false
  | Fin x, Fin y => if Rle_dec x y then true else false
  | NInf, _ | _, PInf => true
  | PInf, _ | _, NInf => false
  end.

(** [a > b] and [a >= b] *)
Definition fgtb (a b : float) : bool := fltb b a.
Definition fgeb (a b : float) : bool := fleb b a.

(** [a == b] *)
Definition feqb (a b : float) : bool :=
  match a, b with
  | Fin x, Fin y => if Req_dec_T x y then true else false
  | PInf, PInf | NInf, NInf => true
  | _, _ => false
  end.

(** [std::max(a, b)] is [(a < b) ? b : a]; [std::min(a, b)] is
    [(b < a) ? b : a]. *)
Definition fmax (a b : float) : float := if fltb a b then b else a.
Definition fmin (a b : float) : float := if fltb b a then b else a.

(** [std::clamp(v, lo, hi)] is [(v < lo) ? lo : (hi < v) ? hi : v]. *)
Definition fclamp (v lo hi : float) : float :=
  if fltb v lo then lo else if fltb hi v then hi else v.

(** [std::copysign(1.0f, a)]; the zero of the model is the positive one. *)
Definition copysign1 (a : float) : float :=
  match a with
  | Fin x => if Rlt_dec x 0 then Fin (-1) else Fin 1
  | NInf => Fin (-1)
  | PInf | NaN => Fin 1
  end.

(** The elementary functions of [<cmath>] that the samplers use. *)
Definition fatan (a : float) : float :=
  match a with
  | Fin x => Fin (atan x)
  | PInf => Fin (Rtrigo1.PI / 2)
  | NInf => Fin (- (Rtrigo1.PI / 2))
  | NaN => NaN
  end.

Definition fsin (a : float) : float :=
  match a with
  | Fin x => Fin (sin x)
  | _ => NaN
  end.

Definition fcos (a : float) : float :=
  match a with
  | Fin x => Fin (cos x)
  | _ => NaN
  end.

(** [static_cast<float>(n)] *)
Definition float_of_int (n : Z) : float := Fin (IZR n).

Declare Scope float_scope.
Delimit Scope float_scope with fl.
Bind Scope float_scope with float.
Infix "+" := fadd : float_scope.
Infix "-" := fsub : float_scope.
Infix "*" := fmul : float_scope.
Infix "/" := fdiv : float_scope.
Notation "- a" := (fopp a) : float_scope.
Infix "<?" := fltb (at level 70) : float_scope.
Infix "<=?" := fleb (at level 70) : float_scope.
Infix ">?" := fgtb (at level 70) : float_scope.
Infix ">=?" := fgeb (at level 70) : float_scope.

(** ** Vectors ([Vec2f], [Vec3f])

    Modelled from the spec: the vector types and their operations come with
    [common.h] and the vector library, which are not among these sources.
    They are the 3-component (and 2-component) vectors of the spec, with
    componentwise arithmetic, [dot], [length] and [normalize(a) = a /
    length(a)]. *)

Record Vec2f : Type := mkVec2f { x2 : float; y2 : float }.

Record Vec3f : Type := mkVec3f { vx : float; vy : float; vz : float }.

(** [Vec3f{}] and [Vec3f{s}] *)
Definition vzero : Vec3f := mkVec3f (Fin 0) (Fin 0) (Fin 0).
Definition vsplat (s : float) : Vec3f := mkVec3f s s s.

Definition vadd (a b : Vec3f) : Vec3f :=
  mkVec3f (vx a + vx b)%fl (vy a + vy b)%fl (vz a + vz b)%fl.

Definition vsub (a b : Vec3f) : Vec3f :=
  mkVec3f (vx a - vx b)%fl (vy a - vy b)%fl (vz a - vz b)%fl.

Definition vneg (a : Vec3f) : Vec3f :=
  mkVec3f (- vx a)%fl (- vy a)%fl (- vz a)%fl.

(** componentwise product [a * b] of two vectors *)
Definition vmul (a b : Vec3f) : Vec3f :=
  mkVec3f (vx a * vx b)%fl (vy a * vy b)%fl (vz a * vz b)%fl.

(** [s * v], [v * s] and [v / s] for a scalar [s] *)
Definition smul (s : float) (v : Vec3f) : Vec3f :=
  mkVec3f (s * vx v)%fl (s * vy v)%fl (s * vz v)%fl.

Definition vscale (v : Vec3f) (s : float) : Vec3f :=
  mkVec3f (vx v * s)%fl (vy v * s)%fl (vz v * s)%fl.

Definition vdiv (v : Vec3f) (s : float) : Vec3f :=
  mkVec3f (vx v / s)%fl (vy v / s)%fl (vz v / s)%fl.

Definition dot (a b : Vec3f) : float :=
  (vx a * vx b + vy a * vy b + vz a * vz b)%fl.

Definition length (a : Vec3f) : float := fsqrt (dot a a).

Definition normalize (a : Vec3f) : Vec3f := vdiv a (length a).

(** [a != b] on vectors: some component differs. *)
Definition vneqb (a b : Vec3f) : bool :=
  negb (feqb (vx a) (vx b) && feqb (vy a) (vy b) && feqb (vz a) (vz b)).

(** ** [math_helpers.h] *)

Module MathHelpers.

Definition EPS : float := Fin (1 / 1000).

Definition coordinate_system (v1 : Vec3f) : Vec3f * Vec3f :=
  let sign := copysign1 (vz v1) in
  let a := (Fin (-1) / (sign + vz v1))%fl in
  let b := (vx v1 * vy v1 * a)%fl in
  (mkVec3f (Fin 1 + sign * vx v1 * vx v1 * a)%fl (sign * b)%fl (- sign * vx v1)%fl,
   mkVec3f b (sign + vy v1 * vy v1 * a)%fl (- vy v1)%fl).

Definition from_local (v n : Vec3f) : Vec3f :=
  let '(x, y) := coordinate_system n in
  vadd (vadd (smul (vx v) x) (smul (vy v) y)) (smul (vz v) n).

Definition to_local (v n : Vec3f) : Vec3f :=
  let '(x, y) := coordinate_system n in
  mkVec3f (dot v x) (dot v y) (dot v n).

Definition mirror_reflect (incident_dir normal : Vec3f) : Vec3f :=
  vsub incident_dir (smul (Fin 2 * dot incident_dir normal)%fl normal).

End MathHelpers.

Import MathHelpers.

(** ** [material.h] *)

(** [#define PI 3.141592653589] and [#define INV_PI 0.31830989] *)
Definition PI : float := Fin (3141592653589 / 1000000000000).
Definition INV_PI : float := Fin (31830989 / 100000000).

Module Lambertian.

Record t : Type := mk { albedo : Vec3f }.

Definition eval (self : t) : Vec3f := vscale (albedo self) INV_PI.

Definition sample (self : t) (normal : Vec3f) (u : Vec2f) : Vec3f * float :=
  let r := fsqrt (fmax (Fin 0) (Fin 1 - x2 u * x2 u)%fl) in
  let phi := (Fin 2 * PI * y2 u)%fl in
  let v := normalize (mkVec3f (r * fcos phi)%fl (r * fsin phi)%fl (x2 u)) in
  let dir := from_local v normal in
  (dir, (Fin 1 / (Fin 2 * PI))%fl).

Definition pdf (self : t) (wo_world wi_world normal : Vec3f) : float :=
  if (dot wo_world normal <? Fin 0)%fl then Fin 0
  else (INV_PI / Fin 4)%fl.

End Lambertian.

Module Dielectric.

Record t : Type := mk { eta : float; roughness : float }.

(** The refractive indices [(ei, et)] after the conditional
    [if (!entering) swap(ei, et)]. *)
Definition indices (self : t) (entering : bool) : float * float :=
  if entering then (eta self, Fin 1) else (Fin 1, eta self).

(** The local [sin_thetaT] of [Fresnel].  In [Fresnel] itself, [abs] is
    the absolute value of a [float]. *)
Definition Fresnel_sin_thetaT (self : t) (cos_thetaI : float) : float :=
  let cos_thetaI := fclamp cos_thetaI (Fin (-1)) (Fin 1) in
  let entering := (cos_thetaI >? Fin 0)%fl in
  let '(ei, et) := indices self entering in
  (ei / et * fsqrt (fmax (Fin 0) (Fin 1 - cos_thetaI * cos_thetaI)))%fl.

Definition Fresnel (self : t) (cos_thetaI : float) : float :=
  let cos_thetaI := fclamp cos_thetaI (Fin (-1)) (Fin 1) in
  let entering := (cos_thetaI >? Fin 0)%fl in
  let '(ei, et) := indices self entering in
  let sin_thetaT :=
    (ei / et * fsqrt (fmax (Fin 0) (Fin 1 - cos_thetaI * cos_thetaI)))%fl in
  if (sin_thetaT >=? Fin 1)%fl then Fin 1
  else
    let cos_thetaI := fabs cos_thetaI in
    let cos_thetaT := fsqrt (fmax (Fin 0) (Fin 1 - sin_thetaT * sin_thetaT)%fl) in
    let Rs := ((et * cos_thetaI - ei * cos_thetaT)
               / (et * cos_thetaI + ei * cos_thetaT))%fl in
    let Rp := ((ei * cos_thetaI - et * cos_thetaT)
               / (ei * cos_thetaI + et * cos_thetaT))%fl in
    (Fin (1 / 2) * (Rs * Rs + Rp * Rp))%fl.

Definition D (self : t) (h : Vec3f) : float :=
  if (vz h <? Fin 0)%fl then Fin 0
  else
    let cos_thetaH_sq := (vz h * vz h)%fl in
    let tan_thetaH_sq := ((Fin 1 - cos_thetaH_sq) / cos_thetaH_sq)%fl in
    let alpha_sq := (roughness self * roughness self)%fl in
    let sqrt_denom := (alpha_sq + tan_thetaH_sq)%fl in
    (alpha_sq * INV_PI
     / (cos_thetaH_sq * cos_thetaH_sq * sqrt_denom * sqrt_denom))%fl.

Definition G1 (self : t) (w h : Vec3f) : float :=
  if (dot w h * vz w <=? Fin 0)%fl then Fin 0
  else
    let tan_thetaW_sq := ((Fin 1 - vz w * vz w) / (vz w * vz w))%fl in
    if (tan_thetaW_sq <=? Fin 0)%fl then Fin 1
    else
      let tan_thetaW := fsqrt tan_thetaW_sq in
      let root := (roughness self * tan_thetaW)%fl in
      (Fin 2 / (Fin 1 + fsqrt (Fin 1 + root * root)))%fl.

Definition G (self : t) (wo wi h : Vec3f) : float :=
  (G1 self wo h * G1 self wi h)%fl.

Definition pdf (self : t) (h : Vec3f) : float := (D self h * vz h)%fl.

Definition eval (self : t) (wo_world wi_world n : Vec3f) : float :=
  let wo := normalize (to_local wo_world n) in
  let wi := normalize (to_local wi_world n) in
  let reflect := (vz wi * vz wo >? Fin 0)%fl in
  let etaT := if (vz wo <? Fin 0)%fl then Fin 1 else eta self in
  let etaI := if (vz wo <? Fin 0)%fl then eta self else Fin 1 in
  let reflect_coeff := if (vz wi >? Fin 0)%fl then Fin 1 else Fin (-1) in
  let h := if reflect then vscale (normalize (vadd wi wo)) reflect_coeff
           else normalize (vadd (vscale wi etaI) (vscale wo etaT)) in
  let wo := if (vz wo <? Fin 0)%fl then vscale wo (Fin (-1)) else wo in
  let wi := if (vz wi <? Fin 0)%fl then vscale wi (Fin (-1)) else wi in
  let Dr := D self h in
  let Fr := Fresnel self (dot wi h) in
  let Gr := G self wo wi h in
  if reflect then (Fr * Dr * Gr / (Fin 4 * vz wi * vz wo))%fl
  else
    let sqrt_denom := (etaI * dot wi h + etaT * dot wo h)%fl in
    fabs ((Fin 1 - Fr) * Dr * Gr * etaT * etaT * dot wi h * dot wo h
          / (vz wi * vz wo * sqrt_denom * sqrt_denom))%fl.

(** The angles of [sample_normal] and the vector it normalizes. *)
Definition thetaM (self : t) (u : Vec2f) : float :=
  fatan (roughness self * fsqrt (x2 u) / fsqrt (Fin 1 - x2 u))%fl.

Definition phiM (u : Vec2f) : float := (Fin 2 * PI * y2 u)%fl.

Definition sample_normal (self : t) (u : Vec2f) : Vec3f * float :=
  let thetaM := fatan (roughness self * fsqrt (x2 u) / fsqrt (Fin 1 - x2 u))%fl in
  let phiM := (Fin 2 * PI * y2 u)%fl in
  let m := normalize (mkVec3f (fsin thetaM * fsin phiM)%fl
                              (fsin thetaM * fcos phiM)%fl
                              (fcos thetaM)) in
  let pdf_m := pdf self m in
  (m, pdf_m).

Definition sample (self : t) (wo_world n : Vec3f) (u : Vec3f) : Vec3f * float :=
  let wo := normalize (to_local wo_world n) in
  let '(m, pdf_m) := sample_normal self (mkVec2f (vy u) (vz u)) in
  let cos_thetaO := dot wo m in
  let F := Fresnel self cos_thetaO in
  if (vx u <? F)%fl then
    let wi := mirror_reflect (vneg wo) m in
    let wi_world := from_local (normalize wi) n in
    (wi_world, F)
  else
    let entering := (vz wo >? Fin 0)%fl in
    let '(ei, et) := indices self entering in
    let sin_thetaO2 := (Fin 1 - cos_thetaO * cos_thetaO)%fl in
    let etaEff := (ei / et)%fl in
    let sin_thetaT2 := (etaEff * etaEff * sin_thetaO2)%fl in
    if (sin_thetaT2 >=? Fin 1)%fl then (vzero, Fin 0)
    else
      let cos_thetaT := fsqrt (Fin 1 - sin_thetaT2)%fl in
      let cos_thetaT := if entering then (cos_thetaT * Fin (-1))%fl else cos_thetaT in
      let wt := mkVec3f (etaEff * - vx wo)%fl (etaEff * - vy wo)%fl cos_thetaT in
      let wt_world := from_local (normalize wt) n in
      (wt_world, (Fin 1 - F)%fl).

End Dielectric.

(** ** [scenes/box.h] *)

(** [std::variant<Lambertian, Dielectric>] *)
Inductive material : Type :=
| MLambertian (m : Lambertian.t)
| MDielectric (m : Dielectric.t).

(** [std::holds_alternative<Lambertian>] *)
Definition holds_Lambertian (m : material) : bool :=
  match m with
  | MLambertian _ => true
  | MDielectric _ => false
  end.

(** Modelled from the spec: [Triangle] is declared in [muni/triangle.h],
    which is not among these sources; its fields are those that the scene
    file initializes. *)
Record Triangle : Type := mkTriangle {
  v0 : Vec3f;
  v1 : Vec3f;
  v2 : Vec3f;
  face_normal : Vec3f;
  emission : Vec3f;
  material_id : Z
}.

Module BoxScene.

Definition light_x : float := Fin (195 / 1000).
Definition light_y : float := Fin (-355 / 1000).
Definition light_z : float := Fin (545 / 1000).
Definition light_len_x : float := Fin (16 / 100).
Definition light_len_y : float := Fin (16 / 100).
Definition inv_light_area : float := (Fin 1 / (light_len_x * light_len_y))%fl.
Definition light_color : Vec3f := mkVec3f (Fin 50) (Fin 50) (Fin 50).
Definition light_normal : Vec3f := mkVec3f (Fin 0) (Fin 0) (Fin (-1)).

Definition Glass : Dielectric.t := Dielectric.mk (Fin (3 / 2)) (Fin (1 / 4)).

Definition lambertian (r g b : R) : material :=
  MLambertian (Lambertian.mk (mkVec3f (Fin r) (Fin g) (Fin b))).

(** The array has seven slots and six initializers; the last slot is
    value-initialized, which is the first alternative with a zero albedo. *)
Definition materials : list material :=
  [ lambertian 0 1 0;
    lambertian 1 0 0;
    lambertian 0 (2117 / 10000) (3765 / 10000);
    lambertian (996 / 1000) (7373 / 10000) (667 / 10000);
    lambertian (874000013 / 1000000000) (874000013 / 1000000000) (875 / 1000);
    MDielectric Glass;
    MLambertian (Lambertian.mk vzero) ].

End BoxScene.

(** ** [assignment-4.cpp] *)

(** [#define normSquared(a) (a.x * a.x + a.y * a.y + a.z * a.z)] *)
Definition normSquared (a : Vec3f) : float :=
  (vx a * vx a + vy a * vy a + vz a * vz a)%fl.

Definition offset_ray_origin (ray_pos normal : Vec3f) : Vec3f :=
  vadd ray_pos (smul EPS normal).

Definition is_emitter (tri : Triangle) : bool := vneqb (emission tri) vzero.

Definition eval_area_light (light_dir : Vec3f) : Vec3f :=
  if (dot light_dir BoxScene.light_normal >? Fin 0)%fl then BoxScene.light_color
  else vzero.

Definition sample_area_light (samples : Vec2f) : Vec3f * Vec3f * float :=
  let pos := mkVec3f (BoxScene.light_x + x2 samples * BoxScene.light_len_x)%fl
                     (BoxScene.light_y + y2 samples * BoxScene.light_len_y)%fl
                     BoxScene.light_z in
  (pos, BoxScene.light_normal, BoxScene.inv_light_area).

(** [clamp(v, lo, hi)] on [Vec3f].  [material.h] has [using std::clamp]
    and the call of [renderRow] passes three arguments of the one type
    [Vec3f], for which the template [std::clamp] is the most specialised
    candidate: [(v < lo) ? lo : (hi < v) ? hi : v] under the [operator<] of
    the vector type.  That operator comes with the vector library, which is not among
    these sources: it is the parameter [vlt]. *)
Definition vclamp (vlt : Vec3f -> Vec3f -> bool) (v lo hi : Vec3f) : Vec3f :=
  if vlt v lo then lo else if vlt hi v then hi else v.

(** What one run does, in order: an entry into the shading routine, or a
    draw from the process-wide sampler. *)
Inductive event : Type :=
| EvShade
| EvNext1d
| EvNext2d
| EvNext3d.

Definition event_eqb (a b : event) : bool :=
  match a, b with
  | EvShade, EvShade | EvNext1d, EvNext1d
  | EvNext2d, EvNext2d | EvNext3d, EvNext3d => true
  | _, _ => false
  end.

(** Number of occurrences of an event in a trace. *)
Definition count (e : event) (tr : list event) : nat :=
  List.length (filter (event_eqb e) tr).

(** Modelled from the spec: [Image] is declared in [muni/image.h], which is
    not among these sources; a 2D grid of RGB accumulators, with its
    dimensions and the pixel that [image(x, y)] denotes. *)
Record Image : Type := mkImage {
  width : Z;
  height : Z;
  pixels : Z -> Z -> Vec3f
}.

Definition set_pixel (image : Image) (x y : Z) (c : Vec3f) : Image :=
  mkImage (width image) (height image)
          (fun x' y' => if (Z.eqb x' x && Z.eqb y' y)%bool then c
                        else pixels image x' y').

(** The entry of a material table at an index, when there is one. *)
Definition material_at (materials : list material) (id : Z) : option material :=
  if (id <? 0)%Z then None else nth_error materials (Z.to_nat id).

Section Integrator.

(** The collaborators of the integrator: the uniform sampler
    ([UniformSampler::next1d], [next2d], [next3d]) with its hidden state, the
    intersection query over the fixed scene ([RayTracer::closest_hit] with
    the octree and the triangle list), the material table, the camera, and
    the [operator<] of [Vec3f]. *)
Variable Sampler : Type.
Variable next1d : Sampler -> float * Sampler.
Variable next2d : Sampler -> Vec2f * Sampler.
Variable next3d : Sampler -> Vec3f * Sampler.
Variable closest_hit : Vec3f -> Vec3f -> bool * float * Triangle.
Variable materials : list material.
Variable camera_position : Vec3f.
Variable generate_ray : float -> float -> Vec3f.
Variable vlt : Vec3f -> Vec3f -> bool.

(** The state a run threads: the sampler and the trace of events so far. *)
Record state : Type := mkState { rng : Sampler; trace : list event }.

(** A computation either runs out of fuel or has no defined behaviour
    ([None]), or returns a value and the next state. *)
Definition M (A : Type) : Type := state -> option (A * state).

Definition ret {A : Type} (a : A) : M A := fun s => Some (a, s).

Definition bind {A B : Type} (c : M A) (k : A -> M B) : M B :=
  fun s => match c s with
           | Some (a, s') => k a s'
           | None => None
           end.

Definition stuck {A : Type} : M A := fun _ => None.

Notation "x <- c ;; k" := (bind c (fun x => k))
  (at level 61, c at next level, right associativity).
Notation "c ;;; k" := (bind c (fun _ => k))
  (at level 61, right associativity).

Definition emit (e : event) : M unit :=
  fun s => Some (tt, mkState (rng s) (trace s ++ [e])).

Definition draw1d : M float :=
  fun s => let '(u, g) := next1d (rng s) in
           Some (u, mkState g (trace s ++ [EvNext1d])).

Definition draw2d : M Vec2f :=
  fun s => let '(u, g) := next2d (rng s) in
           Some (u, mkState g (trace s ++ [EvNext2d])).

Definition draw3d : M Vec3f :=
  fun s => let '(u, g) := next3d (rng s) in
           Some (u, mkState g (trace s ++ [EvNext3d])).

(** [BoxScene::materials[tri.material_id]]; an index outside the array has
    no defined behaviour. *)
Definition material_of (tri : Triangle) : M material :=
  fun s => match material_at materials (material_id tri) with
           | Some m => Some (m, s)
           | None => None
           end.

Definition p_rr : float := Fin (8 / 10).

(** The direct term [L_dir] of [shade_with_light_sampling], from the light
    sample [u]. *)
Definition direct_term (mat : material) (tri : Triangle) (p : Vec3f) (u : Vec2f)
  : Vec3f :=
  let '(light_pos, light_normal, pdf_light) := sample_area_light u in
  let wi1 := vsub light_pos p in
  let dist_to_light_squared := normSquared wi1 in
  let wi1 := normalize wi1 in
  let '(hit1, t1, nearest_tri1) := closest_hit p wi1 in
  if is_emitter nearest_tri1 then
    let Li := eval_area_light (vneg wi1) in
    let cos := fmax (Fin 0) (dot (normalize (face_normal tri)) wi1) in
    let cos_prime := fmax (dot (vneg wi1) (normalize light_normal)) (Fin 0) in
    match mat with
    | MLambertian l =>
        let fr := Lambertian.eval l in
        vdiv (vscale (vmul Li fr) cos)
             (pdf_light * dist_to_light_squared / cos_prime)%fl
    | MDielectric _ => vzero
    end
  else vzero.

Fixpoint shade_with_light_sampling (fuel : nat) (tri : Triangle) (p wo : Vec3f)
  {struct fuel} : M Vec3f :=
  match fuel with
  | O => stuck
  | S fuel' =>
    emit EvShade ;;;
    u <- draw2d ;;
    mat <- material_of tri ;;
    let L_dir := direct_term mat tri p u in
    r <- draw1d ;;
    if (r >? p_rr)%fl then ret L_dir
    else
      match mat with
      | MLambertian material =>
          u2 <- draw2d ;;
          let '(wi2, pdf_wi) := Lambertian.sample material (face_normal tri) u2 in
          let '(hit2, t2, nearest_tri2) := closest_hit p wi2 in
          let fr := Lambertian.eval material in
          if (hit2 && negb (is_emitter nearest_tri2))%bool then
            let cos := fmax (dot (normalize (face_normal tri)) (normalize wi2))
                            (Fin 0) in
            let q := offset_ray_origin (vadd p (vscale (normalize wi2) t2))
                                       (face_normal nearest_tri2) in
            rec <- shade_with_light_sampling fuel' nearest_tri2 q (vneg wi2) ;;
            let L_ind := vdiv (vdiv (vscale (vmul rec fr) cos) p_rr) pdf_wi in
            ret (vadd L_dir L_ind)
          else ret (vadd L_dir vzero)
      | MDielectric material =>
          u3 <- draw3d ;;
          let '(wi2, pdf_wi) := Dielectric.sample material wo (face_normal tri) u3 in
          let '(hit2, t2, nearest_tri2) := closest_hit p wi2 in
          let fr := Dielectric.eval material wo wi2 (face_normal tri) in
          if (hit2 && negb (is_emitter nearest_tri2) && (pdf_wi >? Fin 0)%fl)%bool then
            let cos := fabs (dot (normalize (face_normal tri)) (normalize wi2)) in
            let q := offset_ray_origin (vadd p (vscale (normalize wi2) t2))
                                       (face_normal nearest_tri2) in
            rec <- shade_with_light_sampling fuel' nearest_tri2 q (vneg wi2) ;;
            let L_ind := vdiv (vdiv (vscale (vscale rec fr) cos) p_rr) pdf_wi in
            ret (vadd L_dir L_ind)
          else ret (vadd L_dir vzero)
      end
  end.

Definition path_tracing_with_light_sampling (fuel : nat) (ray_pos ray_dir : Vec3f)
  : M Vec3f :=
  let '(is_ray_hit, t_min, nearest_tri) := closest_hit ray_pos ray_dir in
  if negb is_ray_hit then ret vzero
  else
    let hit_position := vadd ray_pos (smul t_min ray_dir) in
    if is_emitter nearest_tri then ret (eval_area_light (vneg ray_dir))
    else shade_with_light_sampling fuel nearest_tri hit_position (vneg ray_dir).

(** The inner loop of [renderRow]: [n] more samples added to the pixel. *)
Fixpoint sample_loop (fuel : nat) (image : Image) (x row : Z) (n : nat)
  (px : Vec3f) {struct n} : M Vec3f :=
  match n with
  | O => ret px
  | S n' =>
    r1 <- draw1d ;;
    let u := ((float_of_int x + r1) / float_of_int (width image))%fl in
    r2 <- draw1d ;;
    let v := ((float_of_int row + r2) / float_of_int (height image))%fl in
    let ray_direction := generate_ray u (Fin 1 - v)%fl in
    L <- path_tracing_with_light_sampling fuel camera_position ray_direction ;;
    sample_loop fuel image x row n'
      (vadd px (vclamp vlt L (vsplat (Fin 0)) (vsplat (Fin 50))))
  end.

(** One pixel of the row: reset, accumulate [max_spp] samples, average. *)
Definition render_pixel (fuel : nat) (image : Image) (x row max_spp : Z)
  : M Vec3f :=
  px <- sample_loop fuel image x row (Z.to_nat max_spp) (vsplat (Fin 0)) ;;
  ret (vdiv px (float_of_int max_spp)).

(** The outer loop of [renderRow]: the [n] last columns of the row. *)
Fixpoint column_loop (fuel : nat) (row max_spp : Z) (n : nat) (image : Image)
  {struct n} : M Image :=
  match n with
  | O => ret image
  | S n' =>
    let x := (width image - Z.of_nat n)%Z in
    px <- render_pixel fuel image x row max_spp ;;
    column_loop fuel row max_spp n' (set_pixel image x row px)
  end.

Definition renderRow (fuel : nat) (row max_spp : Z) (image : Image) : M Image :=
  column_loop fuel row max_spp (Z.to_nat (width image)) image.

End Integrator.

Arguments mkState {Sampler} rng trace.
Arguments rng {Sampler} s.
Arguments trace {Sampler} s.

(** * Test scenes

    Small collaborators on which the integrator can be run: a sampler whose
    state counts the Russian-roulette draws that still continue the path, a
    triangle that does not emit, and intersection queries that always or
    never hit. *)

Module Demo.

Definition next1d (n : nat) : float * nat :=
  (match n with O => Fin (9 / 10) | S _ => Fin (1 / 2) end, Nat.pred n).

Definition next2d (n : nat) : Vec2f * nat :=
  (mkVec2f (Fin (1 / 2)) (Fin (1 / 2)), n).

Definition next3d (n : nat) : Vec3f * nat :=
  (mkVec3f (Fin (1 / 2)) (Fin (16 / 25)) (Fin 0), n).

Definition wall (id : Z) : Triangle :=
  mkTriangle vzero vzero vzero (mkVec3f (Fin 0) (Fin 0) (Fin 1)) vzero id.

(** A triangle of the light and a point of the floor straight below the
    centre of the light. *)
Definition lamp : Triangle :=
  mkTriangle vzero vzero vzero BoxScene.light_normal BoxScene.light_color 0.

Definition below_light : Vec3f :=
  mkVec3f (Fin (275 / 1000)) (Fin (-275 / 1000)) (Fin (45 / 1000)).

Definition always_hit (tri : Triangle) (o d : Vec3f) : bool * float * Triangle :=
  (true, Fin 1, tri).

Definition never_hit (o d : Vec3f) : bool * float * Triangle :=
  (false, Fin 0, wall 0).

(** A dielectric of index 3/4 and roughness 1. *)
Definition thin : Dielectric.t := Dielectric.mk (Fin (3 / 4)) (Fin 1).

Definition camera_ray (u v : float) : Vec3f := mkVec3f (Fin 0) (Fin (-1)) (Fin 0).

Definition blank : Image := mkImage 1 1 (fun _ _ => vzero).

(** Two orders on vectors: one under which [std::clamp] confines every
    channel ([a < b] when some channel of [a] is not at least that of [b]),
    and the lexicographic one. *)
Definition some_channel_below (a b : Vec3f) : bool :=
  negb ((vx b <=? vx a)%fl && (vy b <=? vy a)%fl && (vz b <=? vz a)%fl).

Definition lexicographic (a b : Vec3f) : bool :=
  ((vx a <? vx b)%fl
   || (feqb (vx a) (vx b)
       && ((vy a <? vy b)%fl || (feqb (vy a) (vy b) && (vz a <? vz b)%fl))))%bool.

End Demo.

(** * The BSDF in binary32

    The functions of [material.h] that the range and symmetry claims are
    about, and the helpers of [math_helpers.h] they call, over IEEE-754
    binary32 with round-to-nearest-even: each definition is the one above
    with the operations of [float] replaced by those of [SpecFloat] at
    precision 24.  [sqrt] and [abs] are taken at [float] precision.  The
    macro [INV_PI] of [material.h] is a [double] literal, so the quotient of
    [D] is computed in binary64 and converted on return. *)

Module B32.

Definition t : Type := SpecFloat.spec_float.

Definition prec : Z := 24.
Definition emax : Z := 128.

(** The value [m * 2^e], rounded to binary32. *)
Definition of_Z2 (m e : Z) : t := SpecFloat.binary_normalize prec emax m e false.

Definition add : t -> t -> t := SpecFloat.SFadd prec emax.
Definition sub : t -> t -> t := SpecFloat.SFsub prec emax.
Definition mul : t -> t -> t := SpecFloat.SFmul prec emax.
Definition div : t -> t -> t := SpecFloat.SFdiv prec emax.
Definition sqrt : t -> t := SpecFloat.SFsqrt prec emax.
Definition opp : t -> t := SpecFloat.SFopp.
Definition abs : t -> t := SpecFloat.SFabs.
Definition ltb : t -> t -> bool := SpecFloat.SFltb.
Definition leb : t -> t -> bool := SpecFloat.SFleb.
Definition gtb (a b : t) : bool := ltb b a.
Definition geb (a b : t) : bool := leb b a.

Definition zero : t := SpecFloat.S754_zero false.
Definition one : t := of_Z2 1 0.
Definition nan : t := SpecFloat.S754_nan.
Definition inf : t := SpecFloat.S754_infinity false.

(** [std::max(a, b)] and [std::clamp(v, lo, hi)] *)
Definition max (a b : t) : t := if ltb a b then b else a.

Definition clamp (v lo hi : t) : t :=
  if ltb v lo then lo else if ltb hi v then hi else v.

(** [std::copysign(1.0f, a)] *)
Definition copysign1 (a : t) : t :=
  match a with
  | SpecFloat.S754_zero s | SpecFloat.S754_infinity s
  | SpecFloat.S754_finite s _ _ => if s then opp one else one
  | SpecFloat.S754_nan => one
  end.

(** binary64, and the two conversions *)
Definition dprec : Z := 53.
Definition demax : Z := 1024.

Definition to_double (a : t) : t :=
  match a with
  | SpecFloat.S754_finite s m e => SpecFloat.binary_round dprec demax s m e
  | _ => a
  end.

Definition of_double (a : t) : t :=
  match a with
  | SpecFloat.S754_finite s m e => SpecFloat.binary_round prec emax s m e
  | _ => a
  end.

Definition dmul : t -> t -> t := SpecFloat.SFmul dprec demax.
Definition ddiv : t -> t -> t := SpecFloat.SFdiv dprec demax.

(** [#define INV_PI 0.31830989]: the binary64 number nearest to the decimal. *)
Definition INV_PI : t :=
  ddiv (SpecFloat.binary_normalize dprec demax 31830989 0 false)
       (SpecFloat.binary_normalize dprec demax 100000000 0 false).

Record vec : Type := mkvec { x : t; y : t; z : t }.

Definition vadd (a b : vec) : vec :=
  mkvec (add (x a) (x b)) (add (y a) (y b)) (add (z a) (z b)).

Definition vscale (v : vec) (s : t) : vec :=
  mkvec (mul (x v) s) (mul (y v) s) (mul (z v) s).

Definition vdiv (v : vec) (s : t) : vec :=
  mkvec (div (x v) s) (div (y v) s) (div (z v) s).

Definition dot (a b : vec) : t :=
  add (add (mul (x a) (x b)) (mul (y a) (y b))) (mul (z a) (z b)).

Definition length (a : vec) : t := sqrt (dot a a).

Definition normalize (a : vec) : vec := vdiv a (length a).

Definition coordinate_system (v1 : vec) : vec * vec :=
  let sign := copysign1 (z v1) in
  let a := div (opp one) (add sign (z v1)) in
  let b := mul (mul (x v1) (y v1)) a in
  (mkvec (add one (mul (mul (mul sign (x v1)) (x v1)) a)) (mul sign b)
         (mul (opp sign) (x v1)),
   mkvec b (add sign (mul (mul (y v1) (y v1)) a)) (opp (y v1))).

Definition to_local (v n : vec) : vec :=
  let '(ex, ey) := coordinate_system n in
  mkvec (dot v ex) (dot v ey) (dot v n).

Record dielectric : Type := mk { eta : t; roughness : t }.

Definition Fresnel (self : dielectric) (cos_thetaI : t) : t :=
  let cos_thetaI := clamp cos_thetaI (opp one) one in
  let entering := gtb cos_thetaI zero in
  let '(ei, et) := if entering then (eta self, one) else (one, eta self) in
  let sin_thetaT :=
    mul (div ei et) (sqrt (max zero (sub one (mul cos_thetaI cos_thetaI)))) in
  if geb sin_thetaT one then one
  else
    let cos_thetaI := abs cos_thetaI in
    let cos_thetaT := sqrt (max zero (sub one (mul sin_thetaT sin_thetaT))) in
    let Rs := div (sub (mul et cos_thetaI) (mul ei cos_thetaT))
                  (add (mul et cos_thetaI) (mul ei cos_thetaT)) in
    let Rp := div (sub (mul ei cos_thetaI) (mul et cos_thetaT))
                  (add (mul ei cos_thetaI) (mul et cos_thetaT)) in
    mul (of_Z2 1 (-1)) (add (mul Rs Rs) (mul Rp Rp)).

Definition D (self : dielectric) (h : vec) : t :=
  if ltb (z h) zero then zero
  else
    let cos_thetaH_sq := mul (z h) (z h) in
    let tan_thetaH_sq := div (sub one cos_thetaH_sq) cos_thetaH_sq in
    let alpha_sq := mul (roughness self) (roughness self) in
    let sqrt_denom := add alpha_sq tan_thetaH_sq in
    of_double
      (ddiv (dmul (to_double alpha_sq) INV_PI)
            (to_double
               (mul (mul (mul cos_thetaH_sq cos_thetaH_sq) sqrt_denom) sqrt_denom))).

Definition G1 (self : dielectric) (w h : vec) : t :=
  if leb (mul (dot w h) (z w)) zero then zero
  else
    let tan_thetaW_sq := div (sub one (mul (z w) (z w))) (mul (z w) (z w)) in
    if leb tan_thetaW_sq zero then one
    else
      let tan_thetaW := sqrt tan_thetaW_sq in
      let root := mul (roughness self) tan_thetaW in
      div (of_Z2 2 0) (add one (sqrt (add one (mul root root)))).

Definition G (self : dielectric) (wo wi h : vec) : t :=
  mul (G1 self wo h) (G1 self wi h).

Definition eval (self : dielectric) (wo_world wi_world n : vec) : t :=
  let wo := normalize (to_local wo_world n) in
  let wi := normalize (to_local wi_world n) in
  let reflect := gtb (mul (z wi) (z wo)) zero in
  let etaT := if ltb (z wo) zero then one else eta self in
  let etaI := if ltb (z wo) zero then eta self else one in
  let reflect_coeff := if gtb (z wi) zero then one else opp one in
  let h := if reflect then vscale (normalize (vadd wi wo)) reflect_coeff
           else normalize (vadd (vscale wi etaI) (vscale wo etaT)) in
  let wo := if ltb (z wo) zero then vscale wo (opp one) else wo in
  let wi := if ltb (z wi) zero then vscale wi (opp one) else wi in
  let Dr := D self h in
  let Fr := Fresnel self (dot wi h) in
  let Gr := G self wo wi h in
  if reflect then div (mul (mul Fr Dr) Gr) (mul (mul (of_Z2 4 0) (z wi)) (z wo))
  else
    let sqrt_denom := add (mul etaI (dot wi h)) (mul etaT (dot wo h)) in
    abs (div (mul (mul (mul (mul (mul (mul (sub one Fr) Dr) Gr) etaT) etaT)
                       (dot wi h))
                  (dot wo h))
             (mul (mul (mul (z wi) (z wo)) sqrt_denom) sqrt_denom)).

(** The glass of the scene, [Dielectric{1.5f, 0.25f}], and the +Z axis. *)
Definition Glass : dielectric := mk (of_Z2 3 (-1)) (of_Z2 1 (-2)).

Definition up : vec := mkvec zero zero one.

End B32.

(** * Vocabulary of the statements *)

(** A value in the closed unit interval, tested with the program's own
    comparisons. *)
Definition in_unit (a : float) : Prop :=
  ((Fin 0 <=? a)%fl && (a <=? Fin 1)%fl)%bool = true.

(** A vector with finite components. *)
Definition fvec (a b c : R) : Vec3f := mkVec3f (Fin a) (Fin b) (Fin c).

(** A direction: finite components and Euclidean length one. *)
Definition unit_vec (m : Vec3f) : Prop :=
  exists a b c, m = fvec a b c /\ a * a + b * b + c * c = 1.

(** The range property of the three microfacet terms, for every dielectric
    with [eta > 0] and [roughness >= 0] and every unit direction. *)
Definition range_claim : Prop :=
  forall e r : R, 0 < e -> 0 <= r ->
    let d := Dielectric.mk (Fin e) (Fin r) in
    (forall c, in_unit (Dielectric.Fresnel d (Fin c)))
    /\ (forall m, unit_vec m ->
                  (Fin 0 <=? Dielectric.D d m)%fl = true
                  /\ ((vz m <? Fin 0)%fl = true -> Dielectric.D d m = Fin 0))
    /\ (forall w m, unit_vec w -> unit_vec m -> in_unit (Dielectric.G1 d w m)).

(** Where the idealised arithmetic stands for binary32 up to rounding in
    [D] and [G1]: a cosine of magnitude at least 0.001, so that its square
    does not underflow and the squared tangent does not overflow, and a
    roughness between 0.001 and 1000, whose square does neither. *)
Definition clear_of_horizon (z : float) : Prop :=
  (Fin (1 / 1000) <=? fabs z)%fl = true.

Definition moderate_roughness (r : R) : Prop := 1 / 1000 <= r <= 1000.

(** The part of [eval] that follows the change to the local frame. *)
Definition eval_local (self : Dielectric.t) (wo wi : Vec3f) : float :=
  let reflect := (vz wi * vz wo >? Fin 0)%fl in
  let etaT := if (vz wo <? Fin 0)%fl then Fin 1 else Dielectric.eta self in
  let etaI := if (vz wo <? Fin 0)%fl then Dielectric.eta self else Fin 1 in
  let reflect_coeff := if (vz wi >? Fin 0)%fl then Fin 1 else Fin (-1) in
  let h := if reflect then vscale (normalize (vadd wi wo)) reflect_coeff
           else normalize (vadd (vscale wi etaI) (vscale wo etaT)) in
  let wo := if (vz wo <? Fin 0)%fl then vscale wo (Fin (-1)) else wo in
  let wi := if (vz wi <? Fin 0)%fl then vscale wi (Fin (-1)) else wi in
  let Dr := Dielectric.D self h in
  let Fr := Dielectric.Fresnel self (dot wi h) in
  let Gr := Dielectric.G self wo wi h in
  if reflect then (Fr * Dr * Gr / (Fin 4 * vz wi * vz wo))%fl
  else
    let sqrt_denom := (etaI * dot wi h + etaT * dot wo h)%fl in
    fabs ((Fin 1 - Fr) * Dr * Gr * etaT * etaT * dot wi h * dot wo h
          / (vz wi * vz wo * sqrt_denom * sqrt_denom))%fl.

(** The refracted direction of Snell's law about a normal [nrm], for a
    direction [wo] that points away from the surface and the ratio [eta_eff]
    of the two indices: across the normal it is [eta_eff] times [-wo] (the
    law of sines), and it lies on the other side of the surface. *)
Definition snell_refract (eta_eff : float) (wo nrm : Vec3f) : Vec3f :=
  let c := dot wo nrm in
  let cos_t := fsqrt (Fin 1 - eta_eff * eta_eff * (Fin 1 - c * c))%fl in
  let along := if (c >? Fin 0)%fl then (eta_eff * c - cos_t)%fl
               else (eta_eff * c + cos_t)%fl in
  vadd (smul (- eta_eff)%fl wo) (smul along nrm).

(** The cosine that the reflection branch of [eval] passes to [Fresnel],
    for local directions [wo] and [wi]. *)
Definition Fresnel_cosine (wo wi : Vec3f) : float :=
  let reflect_coeff := if (vz wi >? Fin 0)%fl then Fin 1 else Fin (-1) in
  let h := vscale (normalize (vadd wi wo)) reflect_coeff in
  let wi := if (vz wi <? Fin 0)%fl then vscale wi (Fin (-1)) else wi in
  dot wi h.

(** A cosine at which [Fresnel] is well conditioned: at least 0.1, and with
    a [sin_thetaT] that is not within 0.05 of 1, the threshold of the total
    internal reflection. *)
Definition clear_of_critical_angle (d : Dielectric.t) (c : float) : Prop :=
  (Fin (1 / 10) <=? c)%fl = true
  /\ ((Dielectric.Fresnel_sin_thetaT d c <=? Fin (19 / 20))%fl
      || (Fin (21 / 20) <=? Dielectric.Fresnel_sin_thetaT d c)%fl)%bool = true.

(** Helmholtz reciprocity on the reflection branch, as the program computes
    it in binary32. *)
Definition reciprocity_claim_binary32 : Prop :=
  forall (d : B32.dielectric) (wo_world wi_world n : B32.vec),
    let wo := B32.normalize (B32.to_local wo_world n) in
    let wi := B32.normalize (B32.to_local wi_world n) in
    B32.gtb (B32.mul (B32.z wi) (B32.z wo)) B32.zero = true ->
    B32.eval d wo_world wi_world n = B32.eval d wi_world wo_world n.

(** A value between two finite bounds, tested with the program's own
    comparisons, and a colour whose three channels lie in [[0, 50]]. *)
Definition in_range (lo hi : R) (a : float) : Prop :=
  ((Fin lo <=? a)%fl && (a <=? Fin hi)%fl)%bool = true.

Definition in_box (v : Vec3f) : Prop :=
  in_range 0 50 (vx v) /\ in_range 0 50 (vy v) /\ in_range 0 50 (vz v).

(** A finite colour whose channels lie between 0 and [B]. *)
Definition bounded (B : R) (v : Vec3f) : Prop :=
  exists a b c, v = fvec a b c /\ 0 <= a <= B /\ 0 <= b <= B /\ 0 <= c <= B.

(** The range property of the stored pixels, for every number of samples. *)
Definition pixel_range_claim : Prop :=
  forall (Sampler : Type) (next1d : Sampler -> float * Sampler)
         (next2d : Sampler -> Vec2f * Sampler) (next3d : Sampler -> Vec3f * Sampler)
         (closest_hit : Vec3f -> Vec3f -> bool * float * Triangle)
         (materials : list material) (camera_position : Vec3f)
         (generate_ray : float -> float -> Vec3f)
         (vlt : Vec3f -> Vec3f -> bool)
         (fuel : nat) (row max_spp : Z) (image image' : Image)
         (st st' : state Sampler),
    renderRow Sampler next1d next2d next3d closest_hit materials camera_position
      generate_ray vlt fuel row max_spp image st = Some (image', st') ->
    forall x, (0 <= x < width image)%Z -> in_box (pixels image' x row).

(** The draws of a stretch of the trace with [k] 1D draws outside the
    shading routine: one 1D draw (the roulette) and one 2D light sample for
    each entry into the routine, and at most one direction sample more. *)
Definition draws (k : nat) (tr : list event) : Prop :=
  count EvNext1d tr = (k + count EvShade tr)%nat
  /\ (count EvShade tr <= count EvNext2d tr)%nat
  /\ (count EvNext2d tr + count EvNext3d tr <= 2 * count EvShade tr)%nat.

(** * Properties *)

(** ** Arithmetic on finite values *)

Lemma fdiv_Fin (x y : R) : y <> 0 -> fdiv (Fin x) (Fin y) = Fin (x / y).
Proof.
  intros Hy. unfold fdiv. destruct (Req_dec_T y 0); [contradiction | reflexivity].
Qed.

Lemma fsqrt_Fin (x : R) : 0 <= x -> fsqrt (Fin x) = Fin (sqrt x).
Proof.
  intros Hx. unfold fsqrt. destruct (Rlt_dec x 0); [lra | reflexivity].
Qed.

Lemma fltb_Fin_true (x y : R) : x < y -> fltb (Fin x) (Fin y) = true.
Proof. intros H. unfold fltb. destruct (Rlt_dec x y); [reflexivity | contradiction]. Qed.

Lemma fltb_Fin_false (x y : R) : y <= x -> fltb (Fin x) (Fin y) = false.
Proof. intros H. unfold fltb. destruct (Rlt_dec x y); [lra | reflexivity]. Qed.

Lemma fleb_Fin_true (x y : R) : x <= y -> fleb (Fin x) (Fin y) = true.
Proof. intros H. unfold fleb. destruct (Rle_dec x y); [reflexivity | contradiction]. Qed.

Lemma fleb_Fin_false (x y : R) : y < x -> fleb (Fin x) (Fin y) = false.
Proof. intros H. unfold fleb. destruct (Rle_dec x y); [lra | reflexivity]. Qed.

Lemma fltb_Fin_inv (x y : R) : fltb (Fin x) (Fin y) = true -> x < y.
Proof. unfold fltb. destruct (Rlt_dec x y); [trivial | discriminate]. Qed.

Lemma fltb_Fin_inv_false (x y : R) : fltb (Fin x) (Fin y) = false -> y <= x.
Proof. unfold fltb. destruct (Rlt_dec x y); [discriminate | lra]. Qed.

Lemma fleb_Fin_inv (x y : R) : fleb (Fin x) (Fin y) = true -> x <= y.
Proof. unfold fleb. destruct (Rle_dec x y); [trivial | discriminate]. Qed.

Lemma fleb_Fin_inv_false (x y : R) : fleb (Fin x) (Fin y) = false -> y < x.
Proof. unfold fleb. destruct (Rle_dec x y); [discriminate | lra]. Qed.

(** [std::max(0.0f, x)] of a finite value is finite and not negative. *)
Lemma fmax0_Fin (x : R) : fmax (Fin 0) (Fin x) = Fin (Rmax 0 x).
Proof.
  unfold fmax, fltb, Rmax.
  destruct (Rlt_dec 0 x), (Rle_dec 0 x); try reflexivity; try lra.
  f_equal; lra.
Qed.

Lemma fclamp_unit_Fin (c : R) :
  exists c', fclamp (Fin c) (Fin (-1)) (Fin 1) = Fin c' /\ -1 <= c' <= 1.
Proof.
  unfold fclamp, fltb.
  destruct (Rlt_dec c (-1)).
  - exists (-1). split; [reflexivity | lra].
  - destruct (Rlt_dec 1 c).
    + exists 1. split; [reflexivity | lra].
    + exists c. split; [reflexivity | lra].
Qed.

Lemma in_unit_Fin (r : R) : 0 <= r <= 1 -> in_unit (Fin r).
Proof.
  intros [H0 H1]. unfold in_unit.
  rewrite (fleb_Fin_true 0 r H0), (fleb_Fin_true r 1 H1). reflexivity.
Qed.

Lemma ratio_bounds (a b : R) :
  0 <= a -> 0 < b -> -1 <= (a - b) / (a + b) <= 1.
Proof.
  intros Ha Hb.
  assert (Hs : 0 < a + b) by lra.
  split.
  - apply Rmult_le_reg_r with (a + b); [exact Hs |].
    unfold Rdiv. rewrite Rmult_assoc, Rinv_l by lra. lra.
  - apply Rmult_le_reg_r with (a + b); [exact Hs |].
    unfold Rdiv. rewrite Rmult_assoc, Rinv_l by lra. lra.
Qed.

Lemma indices_Fin (e r : R) (b : bool) :
  0 < e ->
  exists ei et, Dielectric.indices (Dielectric.mk (Fin e) (Fin r)) b = (Fin ei, Fin et)
                /\ 0 < ei /\ 0 < et.
Proof.
  intros He. destruct b; cbn.
  - exists e, 1. repeat split; lra.
  - exists 1, e. repeat split; lra.
Qed.

(** [Fresnel] of a finite cosine, for a positive finite [eta], is a finite
    value of the closed unit interval. *)
Lemma Fresnel_range (e r c : R) :
  0 < e ->
  exists f, Dielectric.Fresnel (Dielectric.mk (Fin e) (Fin r)) (Fin c) = Fin f
            /\ 0 <= f <= 1.
Proof.
  intros He. unfold Dielectric.Fresnel.
  destruct (fclamp_unit_Fin c) as (c' & -> & Hc').
  destruct (indices_Fin e r (Fin c' >? Fin 0)%fl He) as (ei & et & -> & Hei & Het).
  cbn [fmul fsub fadd fopp].
  replace (1 + - (c' * c')) with (1 - c' * c') by ring.
  rewrite fmax0_Fin.
  assert (Hm : 0 <= Rmax 0 (1 - c' * c')) by apply Rmax_l.
  rewrite (fsqrt_Fin _ Hm), (fdiv_Fin _ _ (Rgt_not_eq _ _ Het)).
  cbn [fmul].
  set (t := ei / et * sqrt (Rmax 0 (1 - c' * c'))).
  assert (Ht : 0 <= t).
  { unfold t. apply Rmult_le_pos; [| apply sqrt_pos].
    apply Rlt_le, Rdiv_lt_0_compat; assumption. }
  unfold fgeb. destruct (fleb (Fin 1) (Fin t)) eqn:Hcmp.
  - exists 1. split; [reflexivity | lra].
  - apply fleb_Fin_inv_false in Hcmp.
    cbn [fabs fmul fsub fadd fopp].
    replace (1 + - (t * t)) with (1 - t * t) by ring.
    rewrite fmax0_Fin.
    assert (Hpos : 0 < 1 - t * t) by nra.
    rewrite Rmax_right by lra.
    rewrite (fsqrt_Fin _ (Rlt_le _ _ Hpos)).
    assert (Hct : 0 < sqrt (1 - t * t)) by (apply sqrt_lt_R0; exact Hpos).
    set (ct := sqrt (1 - t * t)) in *.
    assert (Hci : 0 <= Rabs c') by apply Rabs_pos.
    set (ci := Rabs c') in *.
    cbn [fmul fsub fadd fopp].
    assert (Ha1 : 0 <= et * ci) by (apply Rmult_le_pos; lra).
    assert (Hb1 : 0 < ei * ct) by (apply Rmult_lt_0_compat; lra).
    assert (Ha2 : 0 <= ei * ci) by (apply Rmult_le_pos; lra).
    assert (Hb2 : 0 < et * ct) by (apply Rmult_lt_0_compat; lra).
    rewrite !fdiv_Fin by lra.
    cbn [fmul fadd].
    pose proof (ratio_bounds _ _ Ha1 Hb1) as H1.
    pose proof (ratio_bounds _ _ Ha2 Hb2) as H2.
    replace (et * ci + - (ei * ct)) with (et * ci - ei * ct) by ring.
    replace (ei * ci + - (et * ct)) with (ei * ci - et * ct) by ring.
    set (Rs := (et * ci - ei * ct) / (et * ci + ei * ct)) in *.
    set (Rp := (ei * ci - et * ct) / (ei * ci + et * ct)) in *.
    eexists. split; [reflexivity | nra].
Qed.

(** [D] vanishes below the horizon, whatever the material. *)
Lemma D_below_horizon (d : Dielectric.t) (m : Vec3f) :
  (vz m <? Fin 0)%fl = true -> Dielectric.D d m = Fin 0.
Proof. intros H. unfold Dielectric.D. rewrite H. reflexivity. Qed.

(** Above the horizon [D] is a finite, non-negative number, unless the
    surface is perfectly smooth and the normal is the shading normal. *)
Lemma D_above_horizon (e : float) (r a b c : R) :
  0 < c -> a * a + b * b + c * c = 1 -> 0 < r * r \/ c < 1 ->
  exists v, Dielectric.D (Dielectric.mk e (Fin r)) (fvec a b c) = Fin v /\ 0 <= v.
Proof.
  intros Hc Hu Hnd. unfold Dielectric.D, fvec. cbn [vz Dielectric.roughness].
  rewrite (fltb_Fin_false c 0) by lra.
  assert (Hcc : 0 < c * c) by nra.
  assert (Hc1 : c * c <= 1) by nra.
  cbn [fmul fsub fadd fopp INV_PI].
  rewrite (fdiv_Fin _ (c * c)) by lra.
  cbn [fmul fadd].
  set (tn := (1 + - (c * c)) / (c * c)).
  assert (Htn : 0 <= tn).
  { unfold tn. apply Rmult_le_pos; [lra |]. apply Rlt_le, Rinv_0_lt_compat; lra. }
  assert (Htn' : c < 1 -> 0 < tn).
  { intros Hlt. unfold tn. apply Rmult_lt_0_compat; [nra |].
    apply Rinv_0_lt_compat; lra. }
  assert (Hsd : 0 < r * r + tn).
  { destruct Hnd as [Hr | Hlt]; [lra |]. specialize (Htn' Hlt). nra. }
  assert (Hden : 0 < c * c * (c * c) * (r * r + tn) * (r * r + tn)).
  { repeat apply Rmult_lt_0_compat; assumption. }
  rewrite fdiv_Fin by lra.
  eexists. split; [reflexivity |].
  apply Rmult_le_pos; [| apply Rlt_le, Rinv_0_lt_compat; exact Hden].
  apply Rmult_le_pos; [nra | lra].
Qed.

(** [G1] of finite arguments is a finite value of the closed unit interval. *)
Lemma G1_range (e : float) (r a b c a' b' c' : R) :
  exists g, Dielectric.G1 (Dielectric.mk e (Fin r)) (fvec a b c) (fvec a' b' c') = Fin g
            /\ 0 <= g <= 1.
Proof.
  unfold Dielectric.G1, fvec, dot. cbn [vx vy vz Dielectric.roughness fmul fadd].
  destruct (fleb (Fin ((a * a' + b * b' + c * c') * c)) (Fin 0)) eqn:Hside.
  - exists 0. split; [reflexivity | lra].
  - apply fleb_Fin_inv_false in Hside.
    assert (Hc : c <> 0) by (intros ->; lra).
    assert (Hcc : 0 < c * c) by nra.
    cbn [fsub fadd fopp].
    rewrite fdiv_Fin by lra.
    set (ts := (1 + - (c * c)) / (c * c)).
    destruct (fleb (Fin ts) (Fin 0)) eqn:Htan.
    + exists 1. split; [reflexivity | lra].
    + apply fleb_Fin_inv_false in Htan.
      rewrite fsqrt_Fin by lra.
      cbn [fmul fadd].
      set (root := r * sqrt ts).
      assert (Hin : 1 <= 1 + root * root) by nra.
      rewrite fsqrt_Fin by lra.
      cbn [fadd].
      assert (Hs : 1 <= sqrt (1 + root * root)).
      { rewrite <- sqrt_1 at 1. apply sqrt_le_1_alt. exact Hin. }
      rewrite fdiv_Fin by lra.
      eexists. split; [reflexivity |].
      split.
      * apply Rmult_le_pos; [lra |]. apply Rlt_le, Rinv_0_lt_compat. lra.
      * apply Rmult_le_reg_r with (1 + sqrt (1 + root * root)); [lra |].
        unfold Rdiv. rewrite Rmult_assoc, Rinv_l by lra. lra.
Qed.

Lemma clear_of_horizon_Fin (c : R) : clear_of_horizon (Fin c) -> 1 / 1000 <= Rabs c.
Proof. unfold clear_of_horizon. cbn [fabs]. apply fleb_Fin_inv. Qed.

Lemma clear_of_horizon_pos (c : R) : 1 / 1000 <= c -> clear_of_horizon (Fin c).
Proof.
  intros H. unfold clear_of_horizon. cbn [fabs]. apply fleb_Fin_true.
  rewrite Rabs_right by lra. exact H.
Qed.

Lemma clear_of_horizon_neg (c : R) : c <= -1 / 1000 -> clear_of_horizon (Fin c).
Proof.
  intros H. unfold clear_of_horizon. cbn [fabs]. apply fleb_Fin_true.
  rewrite Rabs_left by lra. lra.
Qed.

(** C1 (as amended): for a dielectric with finite [eta > 0] and finite
    [roughness >= 0], [Fresnel] of any finite cosine lies in [0,1]; [D] of a
    unit normal is zero when [m.z < 0], and is non-negative when
    [m.z >= 0.001] and the roughness is between 0.001 and 1000, or is zero
    with [m.z <= 0.999]; and [G1] of unit directions lies in [0,1] when the
    roughness is positive or [|w.z| >= 0.001]. *)
Theorem bsdf_terms_range (e r : R) (He : 0 < e) (Hr : 0 <= r) :
  let d := Dielectric.mk (Fin e) (Fin r) in
  (forall c, in_unit (Dielectric.Fresnel d (Fin c)))
  /\ (forall m, unit_vec m -> (vz m <? Fin 0)%fl = true -> Dielectric.D d m = Fin 0)
  /\ (forall m, unit_vec m -> (Fin (1 / 1000) <=? vz m)%fl = true ->
                moderate_roughness r
                \/ (r = 0 /\ (vz m <=? Fin (999 / 1000))%fl = true) ->
                (Fin 0 <=? Dielectric.D d m)%fl = true)
  /\ (forall w m, unit_vec w -> unit_vec m ->
                  0 < r \/ clear_of_horizon (vz w) ->
                  in_unit (Dielectric.G1 d w m)).
Proof.
  intros d. repeat split.
  - intros c. destruct (Fresnel_range e r c He) as (f & Hf & Hb).
    fold d in Hf. rewrite Hf. apply in_unit_Fin. exact Hb.
  - intros m _ Hz. apply D_below_horizon. exact Hz.
  - intros m (a & b & c & -> & Hu) Hz Hnd.
    unfold fvec in Hz. cbn [vz] in Hz. apply fleb_Fin_inv in Hz.
    assert (Hc : 0 < c) by lra.
    assert (Hnd' : 0 < r * r \/ c < 1).
    { destruct Hnd as [[Hlo _] | [_ Hlt]]; [left; nra | right].
      unfold fvec in Hlt. cbn [vz] in Hlt. apply fleb_Fin_inv in Hlt. lra. }
    destruct (D_above_horizon (Fin e) r a b c Hc Hu Hnd') as (v & Hv & Hv0).
    fold d in Hv. rewrite Hv. apply fleb_Fin_true. exact Hv0.
  - intros w m (a & b & c & -> & _) (a' & b' & c' & -> & _) _.
    destruct (G1_range (Fin e) r a b c a' b' c') as (g & Hg & Hb).
    fold d in Hg. rewrite Hg. apply in_unit_Fin. exact Hb.
Qed.

(** The glass of the scene, at normal incidence and at the two poles. *)
Lemma bsdf_terms_range_witness :
  0 < 3 / 2 /\ 0 <= 1 / 4
  /\ in_unit (Dielectric.Fresnel BoxScene.Glass (Fin 1))
  /\ Dielectric.D BoxScene.Glass (fvec 0 0 (-1)) = Fin 0
  /\ (Fin 0 <=? Dielectric.D BoxScene.Glass (fvec 0 0 1))%fl = true
  /\ in_unit (Dielectric.G1 BoxScene.Glass (fvec 0 0 1) (fvec 0 0 1)).
Proof.
  assert (H0 : 0 < 3 / 2) by lra.
  assert (H1 : 0 <= 1 / 4) by lra.
  assert (Hup : unit_vec (fvec 0 0 1)).
  { exists 0, 0, 1. split; [reflexivity | lra]. }
  assert (Hdown : unit_vec (fvec 0 0 (-1))).
  { exists 0, 0, (-1). split; [reflexivity | lra]. }
  assert (Hmod : moderate_roughness (1 / 4)) by (unfold moderate_roughness; lra).
  destruct (bsdf_terms_range (3 / 2) (1 / 4) H0 H1) as (HF & HD0 & HD & HG).
  repeat split; try assumption.
  - apply (HF 1).
  - apply (HD0 _ Hdown). apply fltb_Fin_true. lra.
  - apply (HD _ Hup); [apply fleb_Fin_true; lra | left; exact Hmod].
  - apply (HG _ _ Hup Hup). left. lra.
Defined.

(** At the horizon the distribution is not a number: the tangent is
    infinite and the denominator is zero times infinity. *)
Lemma D_at_horizon_is_NaN :
  Dielectric.D BoxScene.Glass (fvec 1 0 0) = NaN.
Proof.
  unfold Dielectric.D, BoxScene.Glass, fvec.
  cbn [vz Dielectric.roughness].
  rewrite (fltb_Fin_false 0 0) by lra.
  cbn [fmul fsub fadd fopp INV_PI].
  unfold fdiv at 2.
  destruct (Req_dec_T (0 * 0) 0) as [_ | Hne]; [| exfalso; apply Hne; ring].
  unfold inf_of_sign at 1.
  destruct (Rlt_dec 0 (1 + - (0 * 0))) as [_ | Hn]; [| exfalso; apply Hn; lra].
  cbn [fadd fmul].
  unfold inf_of_sign.
  destruct (Rlt_dec 0 (0 * 0 * (0 * 0))) as [Hlt | _]; [exfalso; lra |].
  destruct (Rlt_dec (0 * 0 * (0 * 0)) 0) as [Hlt | _]; [exfalso; lra |].
  reflexivity.
Qed.

(** A perfectly smooth surface ([roughness = 0]) has no number for [D] at
    the shading normal either: the quotient is zero over zero. *)
Lemma D_smooth_at_normal_is_NaN :
  Dielectric.D (Dielectric.mk (Fin (3 / 2)) (Fin 0)) (fvec 0 0 1) = NaN.
Proof.
  unfold Dielectric.D, fvec.
  cbn [vz Dielectric.roughness].
  rewrite (fltb_Fin_false 1 0) by lra.
  cbn [fmul fsub fadd fopp INV_PI].
  rewrite (fdiv_Fin _ (1 * 1)) by lra.
  cbn [fadd fmul].
  unfold fdiv.
  match goal with
  | |- context [Req_dec_T ?y 0] =>
      destruct (Req_dec_T y 0) as [_ | Hne]; [| exfalso; apply Hne; field]
  end.
  unfold inf_of_sign.
  match goal with
  | |- context [Rlt_dec 0 ?y] =>
      destruct (Rlt_dec 0 y) as [Hlt | _]; [exfalso; lra |]
  end.
  match goal with
  | |- context [Rlt_dec ?y 0] =>
      destruct (Rlt_dec y 0) as [Hlt | _]; [exfalso; lra |]
  end.
  reflexivity.
Qed.

(** C1 (as stated) fails: for the glass of the scene and the unit normal
    [(1,0,0)], which lies on the horizon, [D >= 0] is false. *)
Lemma range_claim_fails : ~ range_claim.
Proof.
  intros H.
  assert (H0 : 0 < 3 / 2) by lra.
  assert (H1 : 0 <= 1 / 4) by lra.
  destruct (H (3 / 2) (1 / 4) H0 H1) as (_ & HD & _).
  assert (Hu : unit_vec (fvec 1 0 0)).
  { exists 1, 0, 0. split; [reflexivity | lra]. }
  destruct (HD _ Hu) as [Hge _].
  change (Dielectric.mk (Fin (3 / 2)) (Fin (1 / 4))) with BoxScene.Glass in Hge.
  rewrite D_at_horizon_is_NaN in Hge. discriminate Hge.
Qed.

(** In binary32 the same happens before the horizon is reached.  For the
    glass of the scene and the normal [(1, 0, 2^-100)], whose length is 1
    in binary32, the square of the cosine underflows and [D] is not a
    number; at [(1, 0, 2^-40)] it is infinite. *)
Lemma D_underflows_in_binary32 :
  let m := B32.mkvec B32.one B32.zero (B32.of_Z2 1 (-100)) in
  let m' := B32.mkvec B32.one B32.zero (B32.of_Z2 1 (-40)) in
  B32.dot m m = B32.one /\ B32.gtb (B32.z m) B32.zero = true
  /\ B32.D B32.Glass m = B32.nan
  /\ B32.dot m' m' = B32.one /\ B32.D B32.Glass m' = B32.inf.
Proof. vm_compute. repeat split. Qed.

(** At the shading normal, [D] is a number for the roughness 0.001, and is
    not for the roughness [2^-80], whose square underflows. *)
Lemma D_roughness_underflows_in_binary32 :
  B32.leb B32.zero (B32.D (B32.mk (B32.of_Z2 3 (-1))
                                  (B32.div (B32.of_Z2 1 0) (B32.of_Z2 1000 0))) B32.up)
  = true
  /\ B32.D (B32.mk (B32.of_Z2 3 (-1)) (B32.of_Z2 1 (-80))) B32.up = B32.nan.
Proof. vm_compute. repeat split. Qed.

(** For a perfectly smooth surface and the direction [(1, 0, 2^-76)], whose
    length is 1 in binary32, the tangent of [G1] is infinite and [G1] is
    zero times infinity. *)
Lemma G1_underflows_in_binary32 :
  let w := B32.mkvec B32.one B32.zero (B32.of_Z2 1 (-76)) in
  let m := B32.mkvec (B32.div (B32.of_Z2 3 0) (B32.of_Z2 5 0)) B32.zero
                     (B32.div (B32.of_Z2 4 0) (B32.of_Z2 5 0)) in
  B32.dot w w = B32.one
  /\ B32.G1 (B32.mk (B32.of_Z2 3 (-1)) B32.zero) w m = B32.nan.
Proof. vm_compute. repeat split. Qed.

(** ** Total internal reflection in [Fresnel] *)

Lemma Fresnel_tir (d : Dielectric.t) (c : float) :
  (Dielectric.Fresnel_sin_thetaT d c >=? Fin 1)%fl = true ->
  Dielectric.Fresnel d c = Fin 1.
Proof.
  unfold Dielectric.Fresnel, Dielectric.Fresnel_sin_thetaT.
  destruct (Dielectric.indices d _) as [ei et].
  intros ->. reflexivity.
Qed.

Lemma Fresnel_sin_thetaT_entering (e r c : R) :
  0 < c <= 1 ->
  Dielectric.Fresnel_sin_thetaT (Dielectric.mk (Fin e) (Fin r)) (Fin c)
  = Fin (e / 1 * sqrt (1 - c * c)).
Proof.
  intros [Hc0 Hc1]. unfold Dielectric.Fresnel_sin_thetaT, fclamp.
  rewrite (fltb_Fin_false c (-1)), (fltb_Fin_false 1 c) by lra.
  unfold fgtb. rewrite (fltb_Fin_true 0 c) by lra.
  cbn [Dielectric.indices Dielectric.eta fmul fsub fadd fopp].
  replace (1 + - (c * c)) with (1 - c * c) by ring.
  rewrite fmax0_Fin, Rmax_right by nra.
  rewrite fsqrt_Fin by nra.
  rewrite fdiv_Fin by lra.
  reflexivity.
Qed.

(** C2: whenever the sine of the transmitted angle computed by [Fresnel]
    is at least 1 the function returns exactly 1; in particular for
    [eta = 1.5], a positive cosine (the entering side) and
    [sin_thetaI > 1/eta]. *)
Theorem Fresnel_total_internal_reflection :
  (forall (d : Dielectric.t) (c : float),
      (Dielectric.Fresnel_sin_thetaT d c >=? Fin 1)%fl = true ->
      Dielectric.Fresnel d c = Fin 1)
  /\ (forall (r c : R),
         0 < c <= 1 -> 1 / (3 / 2) < sqrt (1 - c * c) ->
         Dielectric.Fresnel (Dielectric.mk (Fin (3 / 2)) (Fin r)) (Fin c) = Fin 1).
Proof.
  split.
  - exact Fresnel_tir.
  - intros r c Hc Hs. apply Fresnel_tir.
    rewrite Fresnel_sin_thetaT_entering by exact Hc.
    unfold fgeb. apply fleb_Fin_true. lra.
Qed.

Lemma sqrt_16_25 : sqrt (1 - 3 / 5 * (3 / 5)) = 4 / 5.
Proof. apply sqrt_lem_1; lra. Qed.

(** The glass of the scene at [cos_thetaI = 3/5]: [sin_thetaI = 4/5 > 2/3]. *)
Lemma Fresnel_total_internal_reflection_witness :
  (0 < 3 / 5 <= 1 /\ 1 / (3 / 2) < sqrt (1 - 3 / 5 * (3 / 5)))
  /\ Dielectric.Fresnel BoxScene.Glass (Fin (3 / 5)) = Fin 1.
Proof.
  assert (Hc : 0 < 3 / 5 <= 1) by lra.
  assert (Hs : 1 / (3 / 2) < sqrt (1 - 3 / 5 * (3 / 5))).
  { rewrite sqrt_16_25. lra. }
  split; [split; assumption |].
  exact (proj2 Fresnel_total_internal_reflection (1 / 4) (3 / 5) Hc Hs).
Defined.

(** ** Vectors and the local frame on finite values *)

Ltac fin_eq :=
  unfold fvec;
  repeat match goal with
    | |- Fin _ = Fin _ => apply f_equal
    | |- mkVec3f _ _ _ = mkVec3f _ _ _ => apply (f_equal3 mkVec3f)
    | |- (_, _) = (_, _) => apply f_equal2
    end;
  try lra; try (field; lra).

Lemma dot_fvec (a b c a' b' c' : R) :
  dot (fvec a b c) (fvec a' b' c') = Fin (a * a' + b * b' + c * c').
Proof. reflexivity. Qed.

(** Normalizing a vector of length one changes nothing. *)
Lemma normalize_unit (a b c : R) :
  a * a + b * b + c * c = 1 -> normalize (fvec a b c) = fvec a b c.
Proof.
  intros Hu. unfold normalize, length. rewrite dot_fvec, Hu.
  rewrite fsqrt_Fin, sqrt_1 by lra.
  unfold vdiv, fvec. cbn [vx vy vz].
  rewrite !fdiv_Fin by lra. fin_eq.
Qed.

Lemma coordinate_system_z :
  coordinate_system (fvec 0 0 1) = (fvec 1 0 0, fvec 0 1 0).
Proof.
  unfold coordinate_system, fvec, copysign1. cbn [vx vy vz].
  destruct (Rlt_dec 1 0) as [Hlt | _]; [exfalso; lra |].
  cbn [fadd]. rewrite fdiv_Fin by lra.
  cbn [fmul fadd fopp]. fin_eq.
Qed.

(** For the shading normal [(0,0,1)] the local frame is the world frame. *)
Lemma to_local_z (a b c : R) : to_local (fvec a b c) (fvec 0 0 1) = fvec a b c.
Proof.
  unfold to_local. rewrite coordinate_system_z. rewrite !dot_fvec. fin_eq.
Qed.

Lemma from_local_z (a b c : R) : from_local (fvec a b c) (fvec 0 0 1) = fvec a b c.
Proof.
  unfold from_local. rewrite coordinate_system_z.
  unfold smul, vadd, fvec. cbn [vx vy vz fmul fadd]. fin_eq.
Qed.

(** ** [Dielectric::sample_normal] *)

Lemma sample_normal_pdf (d : Dielectric.t) (u : Vec2f) :
  snd (Dielectric.sample_normal d u)
  = (Dielectric.D d (fst (Dielectric.sample_normal d u))
     * vz (fst (Dielectric.sample_normal d u)))%fl.
Proof. reflexivity. Qed.

Lemma thetaM_Fin (e : float) (r u0 u1 : R) :
  0 <= u0 < 1 ->
  Dielectric.thetaM (Dielectric.mk e (Fin r)) (mkVec2f (Fin u0) (Fin u1))
  = Fin (atan (r * sqrt u0 / sqrt (1 - u0))).
Proof.
  intros [H0 H1]. unfold Dielectric.thetaM. cbn [Dielectric.roughness x2 fsub fadd fopp].
  replace (1 + - u0) with (1 - u0) by ring.
  rewrite !fsqrt_Fin by lra. cbn [fmul].
  assert (Hs : 0 < sqrt (1 - u0)) by (apply sqrt_lt_R0; lra).
  rewrite fdiv_Fin by lra. reflexivity.
Qed.

Lemma cos_atan_pos (x : R) : 0 < cos (atan x).
Proof.
  apply cos_gt_0; destruct (atan_bound x) as [Hl Hu]; lra.
Qed.

Lemma sample_normal_Fin (e : float) (r u0 u1 : R) :
  0 <= u0 < 1 ->
  let theta := atan (r * sqrt u0 / sqrt (1 - u0)) in
  let phi := 2 * (3141592653589 / 1000000000000) * u1 in
  fst (Dielectric.sample_normal (Dielectric.mk e (Fin r)) (mkVec2f (Fin u0) (Fin u1)))
  = fvec (sin theta * sin phi) (sin theta * cos phi) (cos theta).
Proof.
  intros Hu theta phi. unfold Dielectric.sample_normal. cbn [fst].
  pose proof (thetaM_Fin e r u0 u1 Hu) as Ht.
  unfold Dielectric.thetaM in Ht. rewrite Ht. fold theta.
  cbn [y2 PI fmul fsin fcos]. fold phi.
  apply normalize_unit.
  pose proof (sin2_cos2 theta) as Hth. pose proof (sin2_cos2 phi) as Hph.
  unfold Rsqr in Hth, Hph. nra.
Qed.



(** ** [Lambertian] *)

Lemma fltb_false_of_fleb (a b : float) : fleb b a = true -> fltb a b = false.
Proof.
  destruct a as [x | | |], b as [y | | |]; cbn; try reflexivity; try discriminate.
  destruct (Rle_dec y x), (Rlt_dec x y); try reflexivity; try discriminate. lra.
Qed.

(** C7: [Lambertian::sample] returns the constant [1/(2*PI)] as its pdf for
    every normal and every [u]; [Lambertian::pdf] returns [INV_PI/4] when
    [dot(wo, normal) >= 0] and [0] when [dot(wo, normal) < 0]; the two
    constants differ. *)
Theorem Lambertian_pdf_constants :
  (forall (l : Lambertian.t) (normal : Vec3f) (u : Vec2f),
      snd (Lambertian.sample l normal u)
      = Fin (1 / (2 * (3141592653589 / 1000000000000))))
  /\ (forall (l : Lambertian.t) (wo wi normal : Vec3f),
         (dot wo normal >=? Fin 0)%fl = true ->
         Lambertian.pdf l wo wi normal = Fin (31830989 / 100000000 / 4))
  /\ (forall (l : Lambertian.t) (wo wi normal : Vec3f),
         (dot wo normal <? Fin 0)%fl = true ->
         Lambertian.pdf l wo wi normal = Fin 0)
  /\ 1 / (2 * (3141592653589 / 1000000000000)) <> 31830989 / 100000000 / 4.
Proof.
  repeat split.
  - intros l normal u. unfold Lambertian.sample. cbn [snd PI fmul].
    apply fdiv_Fin. lra.
  - intros l wo wi normal H. unfold Lambertian.pdf.
    rewrite (fltb_false_of_fleb _ _ H). cbn [INV_PI]. apply fdiv_Fin. lra.
  - intros l wo wi normal H. unfold Lambertian.pdf. rewrite H. reflexivity.
  - intros H.
    assert (H1 : 1 / (2 * (3141592653589 / 1000000000000))
                 = 1000000000000 / 6283185307178) by (field; lra).
    rewrite H1 in H. lra.
Qed.

(** A direction on the front side and one on the back side. *)
Lemma Lambertian_pdf_constants_witness :
  ((dot (fvec 0 0 1) (fvec 0 0 1) >=? Fin 0)%fl = true
   /\ Lambertian.pdf (Lambertian.mk vzero) (fvec 0 0 1) (fvec 0 0 1) (fvec 0 0 1)
      = Fin (31830989 / 100000000 / 4))
  /\ ((dot (fvec 0 0 (-1)) (fvec 0 0 1) <? Fin 0)%fl = true
      /\ Lambertian.pdf (Lambertian.mk vzero) (fvec 0 0 (-1)) (fvec 0 0 1) (fvec 0 0 1)
         = Fin 0).
Proof.
  destruct Lambertian_pdf_constants as (_ & Hfront & Hback & _).
  assert (H1 : (dot (fvec 0 0 1) (fvec 0 0 1) >=? Fin 0)%fl = true).
  { rewrite dot_fvec. apply fleb_Fin_true. lra. }
  assert (H2 : (dot (fvec 0 0 (-1)) (fvec 0 0 1) <? Fin 0)%fl = true).
  { rewrite dot_fvec. apply fltb_Fin_true. lra. }
  split; split; try assumption.
  - apply (Hfront _ _ (fvec 0 0 1) _ H1).
  - apply (Hback _ _ (fvec 0 0 1) _ H2).
Defined.

(** ** [Dielectric::sample] *)

(** [Fresnel] on the entering side, below the critical angle, from the sine
    [s] of the incident angle and the cosine [ct] of the transmitted one. *)
Lemma Fresnel_entering_value (e r c s ct : R) :
  0 < e -> 0 < c <= 1 -> 0 <= s -> s * s = 1 - c * c -> e * s < 1 ->
  0 < ct -> ct * ct = 1 - e * s * (e * s) ->
  Dielectric.Fresnel (Dielectric.mk (Fin e) (Fin r)) (Fin c)
  = Fin (1 / 2 * ((c - e * ct) / (c + e * ct) * ((c - e * ct) / (c + e * ct))
                  + (e * c - ct) / (e * c + ct) * ((e * c - ct) / (e * c + ct)))).
Proof.
  intros He [Hc0 Hc1] Hs Hss Hes Hct Hctct.
  assert (Hcc : 0 <= 1 - c * c) by nra.
  assert (Hee : 0 < 1 - e * s * (e * s)) by nra.
  assert (Hes0 : 0 <= e * s) by (apply Rmult_le_pos; lra).
  assert (Hsq : sqrt (1 - c * c) = s) by (apply sqrt_lem_1; nra).
  assert (Hsq' : sqrt (1 - e * s * (e * s)) = ct) by (apply sqrt_lem_1; nra).
  unfold Dielectric.Fresnel, fclamp.
  rewrite (fltb_Fin_false c (-1)), (fltb_Fin_false 1 c) by lra.
  unfold fgtb. rewrite (fltb_Fin_true 0 c) by lra.
  cbn [Dielectric.indices Dielectric.eta fmul fsub fadd fopp].
  replace (1 + - (c * c)) with (1 - c * c) by ring.
  rewrite fmax0_Fin, Rmax_right by lra.
  rewrite fsqrt_Fin, Hsq by lra.
  rewrite fdiv_Fin by lra. cbn [fmul].
  replace (e / 1 * s) with (e * s) by field.
  unfold fgeb. rewrite fleb_Fin_false by lra.
  cbn [fabs fmul fsub fadd fopp].
  replace (1 + - (e * s * (e * s))) with (1 - e * s * (e * s)) by ring.
  rewrite fmax0_Fin, Rmax_right by lra.
  rewrite fsqrt_Fin, Hsq' by lra.
  rewrite Rabs_right by lra.
  cbn [fmul fsub fadd fopp].
  assert (H1 : 0 < e * ct) by (apply Rmult_lt_0_compat; lra).
  assert (H2 : 0 < e * c) by (apply Rmult_lt_0_compat; lra).
  rewrite !fdiv_Fin by lra.
  cbn [fmul fadd]. f_equal. field. lra.
Qed.

(** At normal incidence [Fresnel] is [((eta - 1) / (eta + 1))^2]. *)
Lemma Fresnel_normal_incidence (e r : R) :
  0 < e ->
  Dielectric.Fresnel (Dielectric.mk (Fin e) (Fin r)) (Fin 1)
  = Fin ((e - 1) / (e + 1) * ((e - 1) / (e + 1))).
Proof.
  intros He.
  rewrite (Fresnel_entering_value e r 1 0 1) by lra.
  f_equal. field. lra.
Qed.

Lemma mirror_reflect_fvec (a b c a' b' c' : R) :
  mirror_reflect (fvec a b c) (fvec a' b' c')
  = fvec (a - 2 * (a * a' + b * b' + c * c') * a')
         (b - 2 * (a * a' + b * b' + c * c') * b')
         (c - 2 * (a * a' + b * b' + c * c') * c').
Proof.
  unfold mirror_reflect. rewrite dot_fvec.
  unfold smul, vsub, fvec. cbn [vx vy vz fmul fsub fadd fopp]. fin_eq.
Qed.

(** The three outcomes of [sample]. *)
Lemma Dielectric_sample_eq (d : Dielectric.t) (wo_world n u : Vec3f) :
  let wo := normalize (to_local wo_world n) in
  let m := fst (Dielectric.sample_normal d (mkVec2f (vy u) (vz u))) in
  let cos_thetaO := dot wo m in
  let F := Dielectric.Fresnel d cos_thetaO in
  let eta_eff := if (vz wo >? Fin 0)%fl then (Dielectric.eta d / Fin 1)%fl
                 else (Fin 1 / Dielectric.eta d)%fl in
  let sin_thetaT2 := (eta_eff * eta_eff * (Fin 1 - cos_thetaO * cos_thetaO))%fl in
  let cos_thetaT := if (vz wo >? Fin 0)%fl
                    then (fsqrt (Fin 1 - sin_thetaT2) * Fin (-1))%fl
                    else fsqrt (Fin 1 - sin_thetaT2)%fl in
  let wt := mkVec3f (eta_eff * - vx wo)%fl (eta_eff * - vy wo)%fl cos_thetaT in
  Dielectric.sample d wo_world n u
  = if (vx u <? F)%fl
    then (from_local (normalize (mirror_reflect (vneg wo) m)) n, F)
    else if (sin_thetaT2 >=? Fin 1)%fl then (vzero, Fin 0)
         else (from_local (normalize wt) n, (Fin 1 - F)%fl).
Proof.
  intros wo m cos_thetaO F eta_eff sin_thetaT2 cos_thetaT wt.
  unfold Dielectric.sample.
  change (Dielectric.sample_normal d (mkVec2f (vy u) (vz u)))
    with (m, Dielectric.pdf d m).
  cbv beta iota zeta. fold wo.
  subst wt cos_thetaT sin_thetaT2 eta_eff F cos_thetaO.
  destruct (vx u <? Dielectric.Fresnel d (dot wo m))%fl; [reflexivity |].
  unfold Dielectric.indices.
  destruct (vz wo >? Fin 0)%fl; reflexivity.
Qed.

(** Evaluation of the model on concrete finite inputs. *)
Ltac feval_step :=
  match goal with
  | |- context [fltb (Fin ?a) (Fin ?b)] =>
      first [rewrite (fltb_Fin_true a b) by lra | rewrite (fltb_Fin_false a b) by lra]
  | |- context [fleb (Fin ?a) (Fin ?b)] =>
      first [rewrite (fleb_Fin_true a b) by lra | rewrite (fleb_Fin_false a b) by lra]
  | |- context [fdiv (Fin ?a) (Fin ?b)] => rewrite (fdiv_Fin a b) by lra
  | |- context [fsqrt (Fin ?a)] => rewrite (fsqrt_Fin a) by lra
  end.

Ltac feval :=
  repeat (cbn [fmul fadd fsub fopp fabs vx vy vz x2 y2 fst snd fvec
               Dielectric.eta Dielectric.roughness];
          unfold fgtb, fgeb;
          try feval_step).

Ltac sqrt_is q :=
  match goal with
  | |- context [sqrt ?a] =>
      replace (sqrt a) with q by (symmetry; apply sqrt_lem_1; lra)
  end.

Lemma sample_normal_at_0 (e : float) (r u1 : R) :
  fst (Dielectric.sample_normal (Dielectric.mk e (Fin r)) (mkVec2f (Fin 0) (Fin u1)))
  = fvec 0 0 1.
Proof.
  rewrite sample_normal_Fin by lra.
  rewrite sqrt_0.
  replace (r * 0 / sqrt (1 - 0)) with 0 by (unfold Rdiv; ring).
  rewrite atan_0, sin_0, cos_0. fin_eq.
Qed.

Lemma vneg_fvec (a b c : R) : vneg (fvec a b c) = fvec (- a) (- b) (- c).
Proof. reflexivity. Qed.

Lemma local_dir_z (a b c : R) :
  a * a + b * b + c * c = 1 ->
  normalize (to_local (fvec a b c) (fvec 0 0 1)) = fvec a b c.
Proof. intros H. rewrite to_local_z. apply normalize_unit. exact H. Qed.

(** The thin dielectric of the test scene. *)
Lemma thin_normal :
  fst (Dielectric.sample_normal Demo.thin (mkVec2f (Fin (16 / 25)) (Fin 0)))
  = fvec 0 (4 / 5) (3 / 5).
Proof.
  unfold Demo.thin. rewrite sample_normal_Fin by lra.
  assert (H1 : sqrt (16 / 25) = 4 / 5) by (apply sqrt_lem_1; lra).
  assert (H2 : sqrt (1 - 16 / 25) = 3 / 5) by (apply sqrt_lem_1; lra).
  rewrite H1, H2.
  replace (1 * (4 / 5) / (3 / 5)) with (4 / 3) by field.
  rewrite sin_atan, cos_atan.
  assert (H3 : sqrt (1 + (4 / 3)²) = 5 / 3) by (apply sqrt_lem_1; unfold Rsqr; lra).
  rewrite H3.
  replace (2 * (3141592653589 / 1000000000000) * 0) with 0 by ring.
  rewrite sin_0, cos_0. fin_eq.
Qed.

Lemma thin_Fresnel : Dielectric.Fresnel Demo.thin (Fin (3 / 5)) = Fin (49 / 1250).
Proof.
  unfold Demo.thin.
  rewrite (Fresnel_entering_value (3 / 4) 1 (3 / 5) (4 / 5) (4 / 5)) by lra.
  fin_eq.
Qed.

(** ** Reciprocity of [Dielectric::eval] on the reflection branch *)

Lemma eval_eq_local (d : Dielectric.t) (wo_world wi_world n : Vec3f) :
  Dielectric.eval d wo_world wi_world n
  = eval_local d (normalize (to_local wo_world n)) (normalize (to_local wi_world n)).
Proof. reflexivity. Qed.

Lemma fadd_comm (a b : float) : fadd a b = fadd b a.
Proof.
  destruct a, b; cbn; try reflexivity. f_equal. ring.
Qed.

Lemma fmul_comm (a b : float) : fmul a b = fmul b a.
Proof.
  destruct a, b; cbn; try reflexivity. f_equal. ring.
Qed.

Lemma vadd_comm (a b : Vec3f) : vadd a b = vadd b a.
Proof.
  unfold vadd. rewrite (fadd_comm (vx a)), (fadd_comm (vy a)), (fadd_comm (vz a)).
  reflexivity.
Qed.

(** The local frame of a finite normal is finite. *)
Lemma coordinate_system_Fin (nx ny nz : R) :
  exists x1 x2 x3 y1 y2 y3,
    coordinate_system (fvec nx ny nz) = (fvec x1 x2 x3, fvec y1 y2 y3).
Proof.
  unfold coordinate_system, fvec, copysign1. cbn [vx vy vz].
  destruct (Rlt_dec nz 0) as [Hneg | Hpos]; cbn [fadd].
  - rewrite fdiv_Fin by lra. cbn [fmul fadd fopp]. repeat eexists.
  - rewrite fdiv_Fin by lra. cbn [fmul fadd fopp]. repeat eexists.
Qed.

Lemma to_local_Fin (a b c nx ny nz : R) :
  exists A B C, to_local (fvec a b c) (fvec nx ny nz) = fvec A B C.
Proof.
  unfold to_local.
  destruct (coordinate_system_Fin nx ny nz) as (x1 & x2 & x3 & y1 & y2 & y3 & ->).
  rewrite !dot_fvec. repeat eexists.
Qed.

(** A finite vector normalizes to a unit vector, or to NaNs when it is zero. *)
Lemma normalize_Fin (A B C : R) :
  (exists a b c, normalize (fvec A B C) = fvec a b c /\ a * a + b * b + c * c = 1)
  \/ vz (normalize (fvec A B C)) = NaN.
Proof.
  unfold normalize, length. rewrite dot_fvec.
  assert (Hq : 0 <= A * A + B * B + C * C) by nra.
  rewrite fsqrt_Fin by exact Hq.
  set (q := A * A + B * B + C * C) in *.
  destruct (Req_dec_T q 0) as [Hz | Hnz].
  - right. unfold vdiv, fvec. cbn [vx vy vz].
    assert (HC : C = 0) by (unfold q in Hz; nra).
    rewrite Hz, sqrt_0, HC. unfold fdiv.
    destruct (Req_dec_T 0 0) as [_ | Hn]; [| exfalso; apply Hn; reflexivity].
    unfold inf_of_sign.
    destruct (Rlt_dec 0 0) as [Hlt | _]; [exfalso; lra | reflexivity].
  - left. assert (Hs : 0 < sqrt q) by (apply sqrt_lt_R0; lra).
    unfold vdiv, fvec. cbn [vx vy vz]. rewrite !fdiv_Fin by lra.
    exists (A / sqrt q), (B / sqrt q), (C / sqrt q). split; [reflexivity |].
    assert (Hsq : sqrt q * sqrt q = q) by (apply sqrt_sqrt; lra).
    unfold q in Hsq at 3.
    field_simplify_eq; [| lra]. nra.
Qed.

Lemma half_vector_dot (a b c a' b' c' L k : R) :
  a * a + b * b + c * c = 1 -> a' * a' + b' * b' + c' * c' = 1 ->
  a' * ((a' + a) / L * k) + b' * ((b' + b) / L * k) + c' * ((c' + c) / L * k)
  = a * ((a' + a) / L * k) + b * ((b' + b) / L * k) + c * ((c' + c) / L * k).
Proof.
  intros H H'.
  assert (E : a' * ((a' + a) / L * k) + b' * ((b' + b) / L * k)
              + c' * ((c' + c) / L * k)
              - (a * ((a' + a) / L * k) + b * ((b' + b) / L * k)
                 + c * ((c' + c) / L * k))
              = / L * k * ((a' * a' + b' * b' + c' * c') - (a * a + b * b + c * c)))
    by (unfold Rdiv; ring).
  rewrite H, H' in E. lra.
Qed.

(** The half vector of two unit directions on the same side. *)
Lemma half_vector_Fin (a b c a' b' c' k : R) :
  c' + c <> 0 ->
  let L := sqrt ((a' + a) * (a' + a) + (b' + b) * (b' + b) + (c' + c) * (c' + c)) in
  vscale (normalize (vadd (fvec a' b' c') (fvec a b c))) (Fin k)
  = fvec ((a' + a) / L * k) ((b' + b) / L * k) ((c' + c) / L * k).
Proof.
  intros Hc L. unfold vadd, fvec. cbn [vx vy vz fadd].
  unfold normalize, length, dot. cbn [vx vy vz fmul fadd].
  assert (Hz : 0 < (c' + c) * (c' + c)).
  { destruct (Rtotal_order (c' + c) 0) as [Hlt | [Heq | Hgt]];
      [nra | contradiction | nra]. }
  assert (Hq : 0 < (a' + a) * (a' + a) + (b' + b) * (b' + b) + (c' + c) * (c' + c)).
  { pose proof (Rle_0_sqr (a' + a)) as Hx. pose proof (Rle_0_sqr (b' + b)) as Hy.
    unfold Rsqr in Hx, Hy. lra. }
  rewrite fsqrt_Fin by lra. fold L.
  assert (HL : 0 < L) by (apply sqrt_lt_R0; exact Hq).
  unfold vdiv, vscale. cbn [vx vy vz]. rewrite !fdiv_Fin by lra.
  reflexivity.
Qed.

Lemma eval_local_sym (d : Dielectric.t) (a b c a' b' c' : R) :
  a * a + b * b + c * c = 1 -> a' * a' + b' * b' + c' * c' = 1 ->
  0 < c' * c ->
  eval_local d (fvec a b c) (fvec a' b' c') = eval_local d (fvec a' b' c') (fvec a b c).
Proof.
  intros Hu Hu' Hcc.
  assert (Hsum : c' + c <> 0) by nra.
  assert (Hsum' : c + c' <> 0) by nra.
  unfold eval_local. cbn [vz fvec fmul]. unfold fgtb.
  rewrite (fltb_Fin_true 0 (c' * c)), (fltb_Fin_true 0 (c * c')) by nra.
  rewrite (vadd_comm (fvec a b c) (fvec a' b' c')).
  change (mkVec3f (Fin a) (Fin b) (Fin c)) with (fvec a b c).
  change (mkVec3f (Fin a') (Fin b') (Fin c')) with (fvec a' b' c').
  destruct (Rlt_dec 0 c) as [Hpos | Hneg].
  - assert (Hpos' : 0 < c') by nra.
    rewrite (fltb_Fin_true 0 c'), (fltb_Fin_true 0 c) by lra.
    rewrite (fltb_Fin_false c 0), (fltb_Fin_false c' 0) by lra.
    rewrite (half_vector_Fin a b c a' b' c' 1 Hsum). cbv zeta.
    set (L := sqrt _).
    rewrite !dot_fvec.
    rewrite (half_vector_dot a b c a' b' c' L 1 Hu Hu').
    unfold Dielectric.G.
    rewrite (fmul_comm (Dielectric.G1 d (fvec a' b' c') _)).
    cbn [vz fvec fmul].
    replace (4 * c * c') with (4 * c' * c) by ring. reflexivity.
  - assert (Hneg1 : c < 0) by nra.
    assert (Hneg' : c' < 0) by nra.
    rewrite (fltb_Fin_false 0 c'), (fltb_Fin_false 0 c) by lra.
    rewrite (fltb_Fin_true c 0), (fltb_Fin_true c' 0) by lra.
    rewrite (half_vector_Fin a b c a' b' c' (-1) Hsum). cbv zeta.
    set (L := sqrt _).
    unfold vscale, fvec. cbn [vx vy vz fmul].
    change (mkVec3f (Fin (a * -1)) (Fin (b * -1)) (Fin (c * -1)))
      with (fvec (a * -1) (b * -1) (c * -1)).
    change (mkVec3f (Fin (a' * -1)) (Fin (b' * -1)) (Fin (c' * -1)))
      with (fvec (a' * -1) (b' * -1) (c' * -1)).
    match goal with
    | |- context [Dielectric.D d ?v] => set (h := v)
    end.
    assert (Hdot : dot (fvec (a' * -1) (b' * -1) (c' * -1)) h
                   = dot (fvec (a * -1) (b * -1) (c * -1)) h).
    { subst h. unfold dot, fvec. cbn [vx vy vz fmul fadd]. f_equal.
      pose proof (half_vector_dot a b c a' b' c' L (-1) Hu Hu') as E. lra. }
    rewrite Hdot.
    unfold Dielectric.G.
    rewrite (fmul_comm (Dielectric.G1 d (fvec (a' * -1) (b' * -1) (c' * -1)) _)).
    cbn [vz fvec fmul].
    replace (4 * (c * -1) * (c' * -1)) with (4 * (c' * -1) * (c * -1)) by ring.
    reflexivity.
Qed.

Lemma local_unit_or_NaN (a b c nx ny nz : R) :
  (exists x y z, normalize (to_local (fvec a b c) (fvec nx ny nz)) = fvec x y z
                 /\ x * x + y * y + z * z = 1)
  \/ vz (normalize (to_local (fvec a b c) (fvec nx ny nz))) = NaN.
Proof.
  destruct (to_local_Fin a b c nx ny nz) as (A & B & C & ->).
  apply normalize_Fin.
Qed.

Lemma normalize_up (c : R) : 0 < c -> normalize (fvec 0 0 c) = fvec 0 0 1.
Proof.
  intros Hc. unfold normalize, length. rewrite dot_fvec.
  replace (0 * 0 + 0 * 0 + c * c) with (c * c) by ring.
  rewrite fsqrt_Fin by nra. rewrite sqrt_square by lra.
  unfold vdiv, fvec. cbn [vx vy vz]. rewrite !fdiv_Fin by lra. fin_eq.
Qed.



(** In binary32 the two orders pass to [Fresnel] two cosines,
    [dot(wi, h)] and [dot(wo, h)], that are rounded apart.  For the index
    [9123985 * 2^-22] (about 2.175), roughness 0.25 and the directions
    [(0,0,1)] and [(1,1,1)], one of them is at the critical angle and takes
    the return of the total internal reflection, the other does not: the two
    values of [eval] are about 0.12310 and 0.12266. *)
Lemma reciprocity_gap_in_binary32 :
  let d := B32.mk (B32.of_Z2 9123985 (-22)) (B32.of_Z2 1 (-2)) in
  let diag := B32.mkvec B32.one B32.one B32.one in
  B32.eval d B32.up diag B32.up = B32.of_Z2 16521855 (-27)
  /\ B32.eval d diag B32.up B32.up = B32.of_Z2 16463370 (-27).
Proof. vm_compute. split; reflexivity. Qed.



(** ** The shading integrator *)

Ltac mstep := cbv beta iota; cbn [rng trace].

Ltac run_shade :=
  cbn [shade_with_light_sampling];
  unfold bind, emit, draw2d, draw1d, draw3d, material_of, ret;
  cbn [rng trace].

Lemma fadd_zero_l (a : float) : (Fin 0 + a)%fl = a.
Proof. destruct a; cbn; try reflexivity. f_equal. ring. Qed.

Lemma vadd_zero_l (v : Vec3f) : vadd vzero v = v.
Proof.
  destruct v as [a b c]. unfold vadd, vzero. cbn [vx vy vz].
  rewrite !fadd_zero_l. reflexivity.
Qed.

Section IntegratorFacts.

Variable Sampler : Type.
Variable next1d : Sampler -> float * Sampler.
Variable next2d : Sampler -> Vec2f * Sampler.
Variable next3d : Sampler -> Vec3f * Sampler.
Variable closest_hit : Vec3f -> Vec3f -> bool * float * Triangle.
Variable materials : list material.

Local Abbreviation shade :=
  (shade_with_light_sampling Sampler next1d next2d next3d closest_hit materials).
Local Abbreviation direct := (direct_term closest_hit).
Local Abbreviation St := (@mkState Sampler).

(** Russian roulette stops the path: the direct term is returned. *)
Lemma shade_roulette_stop (k : nat) (tri : Triangle) (p wo : Vec3f)
  (st : state Sampler) (mat : material) (u : Vec2f) (r : float) (g1 g2 : Sampler) :
  material_at materials (material_id tri) = Some mat ->
  next2d (rng st) = (u, g1) ->
  next1d g1 = (r, g2) ->
  (r >? p_rr)%fl = true ->
  shade (S k) tri p wo st
  = Some (direct mat tri p u,
          St g2 (((trace st ++ [EvShade]) ++ [EvNext2d]) ++ [EvNext1d])).
Proof.
  intros Hm H2 H1 Hr. run_shade. rewrite H2, Hm. cbn [rng trace].
  rewrite H1, Hr. reflexivity.
Qed.

(** A dielectric sample whose selection probability is not positive ends
    the path: no recursive call, and a zero indirect term. *)
Lemma shade_dielectric_no_recursion (k : nat) (tri : Triangle) (p wo : Vec3f)
  (st : state Sampler) (d : Dielectric.t) (u : Vec2f) (r : float) (u3 : Vec3f)
  (g1 g2 g3 : Sampler) :
  material_at materials (material_id tri) = Some (MDielectric d) ->
  next2d (rng st) = (u, g1) ->
  next1d g1 = (r, g2) ->
  next3d g2 = (u3, g3) ->
  (r >? p_rr)%fl = false ->
  (snd (Dielectric.sample d wo (face_normal tri) u3) >? Fin 0)%fl = false ->
  shade (S k) tri p wo st
  = Some (vadd (direct (MDielectric d) tri p u) vzero,
          St g3 ((((trace st ++ [EvShade]) ++ [EvNext2d]) ++ [EvNext1d])
                 ++ [EvNext3d])).
Proof.
  intros Hm H2 H1 H3 Hr Hpdf. run_shade. rewrite H2, Hm. cbn [rng trace].
  rewrite H1, Hr. cbn [rng trace]. rewrite H3.
  destruct (Dielectric.sample d wo (face_normal tri) u3) as [wi2 pdf_wi].
  cbn [snd] in Hpdf.
  destruct (closest_hit p wi2) as [[hit2 t2] tri2].
  rewrite Hpdf, andb_false_r. reflexivity.
Qed.

(** The direct term is zero unless the material is Lambertian. *)
Lemma direct_dielectric (d : Dielectric.t) (tri : Triangle) (p : Vec3f) (u : Vec2f) :
  direct (MDielectric d) tri p u = vzero.
Proof.
  unfold direct_term.
  destruct (sample_area_light u) as [[light_pos light_normal] pdf_light].
  destruct (closest_hit _ _) as [[hit1 t1] tri1].
  destruct (is_emitter tri1); reflexivity.
Qed.

Lemma count_app (e : event) (a b : list event) :
  count e (a ++ b) = (count e a + count e b)%nat.
Proof. unfold count. rewrite filter_app, length_app. reflexivity. Qed.

(** Every run appends to the trace, and what it appends holds as many
    Russian-roulette draws as entries into the shading routine. *)
Lemma shade_trace (fuel : nat) :
  forall (tri : Triangle) (p wo : Vec3f) (st st' : state Sampler) (L : Vec3f),
    shade fuel tri p wo st = Some (L, st') ->
    exists tr, trace st' = trace st ++ tr
               /\ count EvNext1d tr = count EvShade tr
               /\ (1 <= count EvShade tr)%nat.
Proof.
  induction fuel as [| k IH]; intros tri p wo st st' L H.
  - discriminate H.
  - revert H. run_shade.
    destruct (next2d (rng st)) as [u g1]. mstep.
    destruct (material_at materials (material_id tri)) as [mat |]; [| discriminate].
    mstep.
    destruct (next1d g1) as [r g2]. mstep.
    destruct (r >? p_rr)%fl.
    + intros H. injection H as <- <-. cbn [trace].
      exists [EvShade; EvNext2d; EvNext1d].
      rewrite <- !app_assoc. repeat split; cbn; lia.
    + destruct mat as [l | d].
      * mstep. destruct (next2d g2) as [u2 g3]. mstep.
        destruct (Lambertian.sample l (face_normal tri) u2) as [wi2 pdf_wi].
        destruct (closest_hit p wi2) as [[hit2 t2] tri2].
        destruct (hit2 && negb (is_emitter tri2))%bool.
        -- mstep. match goal with
           | |- context [shade k ?t ?q ?w ?s] =>
               destruct (shade k t q w s) as [[rec st1] |] eqn:Hrec; [| discriminate]
           end.
           intros H. injection H as <- <-.
           destruct (IH _ _ _ _ _ _ Hrec) as (tr & Htr & Hc & Hge).
           cbn [trace] in Htr.
           exists ([EvShade; EvNext2d; EvNext1d; EvNext2d] ++ tr).
           rewrite Htr, <- !app_assoc. split; [reflexivity |].
           rewrite !count_app. cbn. lia.
        -- intros H. injection H as <- <-. cbn [trace].
           exists [EvShade; EvNext2d; EvNext1d; EvNext2d].
           rewrite <- !app_assoc. repeat split; cbn; lia.
      * mstep. destruct (next3d g2) as [u3 g3]. mstep.
        destruct (Dielectric.sample d wo (face_normal tri) u3) as [wi2 pdf_wi].
        destruct (closest_hit p wi2) as [[hit2 t2] tri2].
        destruct (hit2 && negb (is_emitter tri2) && (pdf_wi >? Fin 0)%fl)%bool.
        -- mstep. match goal with
           | |- context [shade k ?t ?q ?w ?s] =>
               destruct (shade k t q w s) as [[rec st1] |] eqn:Hrec; [| discriminate]
           end.
           intros H. injection H as <- <-.
           destruct (IH _ _ _ _ _ _ Hrec) as (tr & Htr & Hc & Hge).
           cbn [trace] in Htr.
           exists ([EvShade; EvNext2d; EvNext1d; EvNext3d] ++ tr).
           rewrite Htr, <- !app_assoc. split; [reflexivity |].
           rewrite !count_app. cbn. lia.
        -- intros H. injection H as <- <-. cbn [trace].
           exists [EvShade; EvNext2d; EvNext1d; EvNext3d].
           rewrite <- !app_assoc. repeat split; cbn; lia.
Qed.

(** A Lambertian bounce that hits a surface that does not emit continues
    the path with one recursive call. *)
Lemma shade_lambertian_recursion (k : nat) (tri : Triangle) (p wo : Vec3f)
  (st st' : state Sampler) (l : Lambertian.t) (u u2 : Vec2f) (r : float)
  (g1 g2 g3 : Sampler) (wi2 : Vec3f) (pdf_wi t2 : float) (tri2 : Triangle)
  (rec : Vec3f) :
  material_at materials (material_id tri) = Some (MLambertian l) ->
  next2d (rng st) = (u, g1) ->
  next1d g1 = (r, g2) ->
  next2d g2 = (u2, g3) ->
  (r >? p_rr)%fl = false ->
  Lambertian.sample l (face_normal tri) u2 = (wi2, pdf_wi) ->
  closest_hit p wi2 = (true, t2, tri2) ->
  is_emitter tri2 = false ->
  shade k tri2
    (offset_ray_origin (vadd p (vscale (normalize wi2) t2)) (face_normal tri2))
    (vneg wi2)
    (St g3 ((((trace st ++ [EvShade]) ++ [EvNext2d]) ++ [EvNext1d]) ++ [EvNext2d]))
  = Some (rec, st') ->
  shade (S k) tri p wo st
  = Some (vadd (direct (MLambertian l) tri p u)
               (vdiv (vdiv (vscale (vmul rec (Lambertian.eval l))
                                   (fmax (dot (normalize (face_normal tri))
                                              (normalize wi2)) (Fin 0)))
                           p_rr) pdf_wi),
          st').
Proof.
  intros Hm H2 H1 H2' Hr Hs Hc He Hrec. run_shade. rewrite H2, Hm. mstep.
  rewrite H1, Hr. mstep. rewrite H2'. mstep. rewrite Hs, Hc, He. mstep.
  cbn [negb andb]. rewrite Hrec. reflexivity.
Qed.

(** What a dielectric hit returns: nothing when Russian roulette stops the
    path or the sampled ray is not followed, and otherwise the weighted
    radiance of the recursive call. *)
Lemma shade_dielectric_result (k : nat) (tri : Triangle) (p wo : Vec3f)
  (st st' : state Sampler) (d : Dielectric.t) (L : Vec3f) :
  material_at materials (material_id tri) = Some (MDielectric d) ->
  shade (S k) tri p wo st = Some (L, st') ->
  L = vzero
  \/ exists (u3 wi2 : Vec3f) (pdf_wi t2 : float) (hit2 : bool) (tri2 : Triangle)
            (rec : Vec3f) (st1 : state Sampler),
      Dielectric.sample d wo (face_normal tri) u3 = (wi2, pdf_wi)
      /\ closest_hit p wi2 = (hit2, t2, tri2)
      /\ (pdf_wi >? Fin 0)%fl = true
      /\ shade k tri2
           (offset_ray_origin (vadd p (vscale (normalize wi2) t2)) (face_normal tri2))
           (vneg wi2) st1 = Some (rec, st')
      /\ L = vdiv (vdiv (vscale (vscale rec
                                   (Dielectric.eval d wo wi2 (face_normal tri)))
                                (fabs (dot (normalize (face_normal tri))
                                           (normalize wi2))))
                        p_rr) pdf_wi.
Proof.
  intros Hm. run_shade.
  destruct (next2d (rng st)) as [u g1]. mstep. rewrite Hm. mstep.
  rewrite direct_dielectric.
  destruct (next1d g1) as [r g2]. mstep.
  destruct (r >? p_rr)%fl.
  - intros H. injection H as <- _. left. reflexivity.
  - mstep. destruct (next3d g2) as [u3 g3]. mstep.
    destruct (Dielectric.sample d wo (face_normal tri) u3) as [wi2 pdf_wi] eqn:Hs.
    destruct (closest_hit p wi2) as [[hit2 t2] tri2] eqn:Hc.
    destruct (hit2 && negb (is_emitter tri2))%bool; cbn [andb].
    + destruct (pdf_wi >? Fin 0)%fl eqn:Hpdf.
      * mstep.
        match goal with
        | |- context [shade k ?t ?q ?w ?s] =>
            destruct (shade k t q w s) as [[rec st1] |] eqn:Hrec; [| discriminate]
        end.
        intros H. injection H as <- <-. right.
        exists u3, wi2, pdf_wi, t2, hit2, tri2, rec.
        eexists. rewrite vadd_zero_l.
        repeat split; try reflexivity; try eassumption.
      * intros H. injection H as <- _. left. apply vadd_zero_l.
    + intros H. injection H as <- _. left. apply vadd_zero_l.
Qed.

End IntegratorFacts.

(** ** The test scenes *)

Lemma is_emitter_wall (id : Z) : is_emitter (Demo.wall id) = false.
Proof.
  unfold is_emitter, vneqb, Demo.wall, vzero, feqb. cbn [emission vx vy vz].
  destruct (Req_dec_T 0 0) as [_ | Hn]; [reflexivity | exfalso; apply Hn; reflexivity].
Qed.

Lemma roulette_stops : (Fin (9 / 10) >? p_rr)%fl = true.
Proof. unfold fgtb, p_rr. apply fltb_Fin_true. lra. Qed.

Lemma roulette_continues : (Fin (1 / 2) >? p_rr)%fl = false.
Proof. unfold fgtb, p_rr. apply fltb_Fin_false. lra. Qed.

(** With [depth] continuing draws left in the sampler, the path is
    followed through exactly [depth] recursive calls. *)
Lemma demo_depth (depth : nat) :
  forall (tri : Triangle) (p wo : Vec3f) (tr0 : list event),
    material_id tri = 0%Z ->
    exists L tr,
      shade_with_light_sampling nat Demo.next1d Demo.next2d Demo.next3d
        (Demo.always_hit (Demo.wall 0)) BoxScene.materials
        (S depth) tri p wo (mkState depth tr0)
      = Some (L, mkState 0%nat (tr0 ++ tr))
      /\ count EvShade tr = S depth.
Proof.
  induction depth as [| d IH]; intros tri p wo tr0 Hid.
  - eexists. exists [EvShade; EvNext2d; EvNext1d]. split; [| reflexivity].
    rewrite (shade_roulette_stop nat Demo.next1d Demo.next2d Demo.next3d _ _
               0%nat tri p wo (mkState 0%nat tr0) (BoxScene.lambertian 0 1 0)
               (mkVec2f (Fin (1 / 2)) (Fin (1 / 2))) (Fin (9 / 10)) 0%nat 0%nat);
      [| rewrite Hid; reflexivity | reflexivity | reflexivity | exact roulette_stops].
    cbn [trace]. rewrite <- !app_assoc. reflexivity.
  - destruct (Lambertian.sample (Lambertian.mk (fvec 0 1 0)) (face_normal tri)
                (mkVec2f (Fin (1 / 2)) (Fin (1 / 2)))) as [wi2 pdf_wi] eqn:Hs.
    set (q := offset_ray_origin (vadd p (vscale (normalize wi2) (Fin 1)))
                (face_normal (Demo.wall 0))).
    destruct (IH (Demo.wall 0) q (vneg wi2)
                ((((tr0 ++ [EvShade]) ++ [EvNext2d]) ++ [EvNext1d]) ++ [EvNext2d])
                eq_refl) as (rec & tr & Hrec & Hcount).
    assert (Hmat : material_at BoxScene.materials (material_id tri)
                   = Some (MLambertian (Lambertian.mk (fvec 0 1 0))))
      by (rewrite Hid; reflexivity).
    pose proof (shade_lambertian_recursion nat Demo.next1d Demo.next2d Demo.next3d
                  (Demo.always_hit (Demo.wall 0)) BoxScene.materials
                  (S d) tri p wo (mkState (S d) tr0) _ _ _ _ _ _ _ _
                  wi2 pdf_wi (Fin 1) (Demo.wall 0) rec
                  Hmat eq_refl eq_refl eq_refl roulette_continues Hs eq_refl
                  (is_emitter_wall 0) Hrec) as Hstep.
    eexists. exists ([EvShade; EvNext2d; EvNext1d; EvNext2d] ++ tr).
    split.
    + rewrite Hstep. rewrite <- !app_assoc. reflexivity.
    + rewrite count_app, Hcount. reflexivity.
Qed.

(** C9: one invocation of [shade_with_light_sampling] draws the light
    sample and then exactly one uniform number for Russian roulette; when
    that number exceeds 0.8 it returns the direct term at once, with no
    further draw and no recursive call; in every run the number of
    Russian-roulette draws equals the number of invocations; and the depth of
    the recursion has no other bound: for every depth there is a sample stream
    that is followed through that many recursive calls. *)
Theorem russian_roulette_is_the_only_bound :
  (forall (Sampler : Type) (next1d : Sampler -> float * Sampler)
          (next2d : Sampler -> Vec2f * Sampler) (next3d : Sampler -> Vec3f * Sampler)
          (closest_hit : Vec3f -> Vec3f -> bool * float * Triangle)
          (materials : list material) (k : nat) (tri : Triangle) (p wo : Vec3f)
          (st : state Sampler) (mat : material) (u : Vec2f) (r : float)
          (g1 g2 : Sampler),
      material_at materials (material_id tri) = Some mat ->
      next2d (rng st) = (u, g1) ->
      next1d g1 = (r, g2) ->
      (r >? p_rr)%fl = true ->
      shade_with_light_sampling Sampler next1d next2d next3d closest_hit materials
        (S k) tri p wo st
      = Some (direct_term closest_hit mat tri p u,
              mkState g2 (trace st ++ [EvShade; EvNext2d; EvNext1d])))
  /\ (forall (Sampler : Type) (next1d : Sampler -> float * Sampler)
             (next2d : Sampler -> Vec2f * Sampler) (next3d : Sampler -> Vec3f * Sampler)
             (closest_hit : Vec3f -> Vec3f -> bool * float * Triangle)
             (materials : list material) (fuel : nat) (tri : Triangle) (p wo : Vec3f)
             (st st' : state Sampler) (L : Vec3f),
         shade_with_light_sampling Sampler next1d next2d next3d closest_hit materials
           fuel tri p wo st = Some (L, st') ->
         exists tr, trace st' = trace st ++ tr
                    /\ count EvNext1d tr = count EvShade tr
                    /\ (1 <= count EvShade tr)%nat)
  /\ (forall depth : nat,
         exists L st',
           shade_with_light_sampling nat Demo.next1d Demo.next2d Demo.next3d
             (Demo.always_hit (Demo.wall 0)) BoxScene.materials
             (S depth) (Demo.wall 0) vzero (fvec 0 0 1) (mkState depth [])
           = Some (L, st')
           /\ count EvShade (trace st') = S depth).
Proof.
  split; [| split].
  - intros Sampler next1d next2d next3d closest_hit materials k tri p wo st mat
      u r g1 g2 Hm H2 H1 Hr.
    rewrite (shade_roulette_stop Sampler next1d next2d next3d closest_hit materials
               k tri p wo st mat u r g1 g2 Hm H2 H1 Hr).
    rewrite <- !app_assoc. reflexivity.
  - intros Sampler next1d next2d next3d closest_hit materials fuel.
    apply shade_trace.
  - intros depth.
    destruct (demo_depth depth (Demo.wall 0) vzero (fvec 0 0 1) [] eq_refl)
      as (L & tr & Hrun & Hcount).
    exists L. eexists. split; [exact Hrun |]. exact Hcount.
Qed.

(** A first draw of 0.9 ends the path in the first invocation. *)
Lemma russian_roulette_is_the_only_bound_witness :
  (Fin (9 / 10) >? p_rr)%fl = true
  /\ shade_with_light_sampling nat Demo.next1d Demo.next2d Demo.next3d
       (Demo.always_hit (Demo.wall 0)) BoxScene.materials
       1 (Demo.wall 0) vzero (fvec 0 0 1) (mkState 0%nat [])
     = Some (direct_term (Demo.always_hit (Demo.wall 0)) (BoxScene.lambertian 0 1 0)
               (Demo.wall 0) vzero (mkVec2f (Fin (1 / 2)) (Fin (1 / 2))),
             mkState 0%nat [EvShade; EvNext2d; EvNext1d]).
Proof.
  split; [exact roulette_stops |].
  exact (proj1 russian_roulette_is_the_only_bound nat Demo.next1d Demo.next2d
           Demo.next3d (Demo.always_hit (Demo.wall 0)) BoxScene.materials
           0%nat (Demo.wall 0) vzero (fvec 0 0 1) (mkState 0%nat [])
           (BoxScene.lambertian 0 1 0) (mkVec2f (Fin (1 / 2)) (Fin (1 / 2)))
           (Fin (9 / 10)) 0%nat 0%nat eq_refl eq_refl eq_refl roulette_stops).
Defined.

Lemma is_emitter_lamp : is_emitter Demo.lamp = true.
Proof.
  unfold is_emitter, vneqb, Demo.lamp, BoxScene.light_color, vzero, feqb.
  cbn [emission vx vy vz].
  destruct (Req_dec_T 50 0) as [H | _]; [exfalso; lra | reflexivity].
Qed.

(** Under the light, on the red floor, the direct term is not zero. *)
Lemma direct_on_floor :
  direct_term (Demo.always_hit Demo.lamp) (BoxScene.lambertian 1 0 0) (Demo.wall 1)
    Demo.below_light (mkVec2f (Fin (1 / 2)) (Fin (1 / 2)))
  = fvec (50 * (1 * (31830989 / 100000000)) * 1
          / (1 / (16 / 100 * (16 / 100)) * (1 / 4) / 1)) 0 0.
Proof.
  unfold direct_term, sample_area_light, Demo.below_light.
  unfold BoxScene.light_x, BoxScene.light_y, BoxScene.light_z, BoxScene.light_len_x,
    BoxScene.light_len_y, BoxScene.inv_light_area, BoxScene.light_normal.
  cbn [x2 y2]. unfold vsub. cbn [vx vy vz fmul fadd fsub fopp].
  match goal with
  | |- context [normalize ?v] => replace v with (fvec 0 0 (1 / 2)) by fin_eq
  end.
  rewrite normalize_up by lra.
  unfold Demo.always_hit. rewrite is_emitter_lamp.
  change (face_normal (Demo.wall 1)) with (fvec 0 0 1).
  change (mkVec3f (Fin 0) (Fin 0) (Fin (-1))) with (fvec 0 0 (-1)).
  rewrite !normalize_unit by lra.
  rewrite vneg_fvec, !dot_fvec.
  unfold eval_area_light, BoxScene.light_normal, BoxScene.light_color,
    BoxScene.lambertian, Lambertian.eval, INV_PI, normSquared.
  change (mkVec3f (Fin 0) (Fin 0) (Fin (-1))) with (fvec 0 0 (-1)).
  rewrite dot_fvec.
  unfold fmax, vmul, vscale, vdiv, BoxScene.light_len_x, BoxScene.light_len_y.
  cbn [Lambertian.albedo]. feval.
  match goal with
  | |- context [fdiv _ (Fin ?b)] => replace b with (625 / 64) by field
  end.
  feval. fin_eq.
Qed.

Lemma direct_on_floor_nonzero :
  direct_term (Demo.always_hit Demo.lamp) (BoxScene.lambertian 1 0 0) (Demo.wall 1)
    Demo.below_light (mkVec2f (Fin (1 / 2)) (Fin (1 / 2))) <> vzero.
Proof.
  rewrite direct_on_floor. unfold fvec, vzero. intros H.
  injection H as H. lra.
Qed.

(** C8: the direct term is accumulated only for a Lambertian material; for
    a dielectric it is zero whatever the shadow ray hits, and what a dielectric
    hit returns is its indirect term alone: zero, or the weighted radiance of
    the recursive call. *)
Theorem dielectric_has_no_direct_term :
  (forall (closest_hit : Vec3f -> Vec3f -> bool * float * Triangle)
          (mat : material) (tri : Triangle) (p : Vec3f) (u : Vec2f),
      direct_term closest_hit mat tri p u <> vzero -> holds_Lambertian mat = true)
  /\ (forall (closest_hit : Vec3f -> Vec3f -> bool * float * Triangle)
             (d : Dielectric.t) (tri : Triangle) (p : Vec3f) (u : Vec2f),
         direct_term closest_hit (MDielectric d) tri p u = vzero)
  /\ (forall (Sampler : Type) (next1d : Sampler -> float * Sampler)
             (next2d : Sampler -> Vec2f * Sampler) (next3d : Sampler -> Vec3f * Sampler)
             (closest_hit : Vec3f -> Vec3f -> bool * float * Triangle)
             (materials : list material) (k : nat) (tri : Triangle) (p wo : Vec3f)
             (st st' : state Sampler) (d : Dielectric.t) (L : Vec3f),
         material_at materials (material_id tri) = Some (MDielectric d) ->
         shade_with_light_sampling Sampler next1d next2d next3d closest_hit materials
           (S k) tri p wo st = Some (L, st') ->
         L = vzero
         \/ exists (u3 wi2 : Vec3f) (pdf_wi t2 : float) (hit2 : bool)
                   (tri2 : Triangle) (rec : Vec3f) (st1 : state Sampler),
             Dielectric.sample d wo (face_normal tri) u3 = (wi2, pdf_wi)
             /\ closest_hit p wi2 = (hit2, t2, tri2)
             /\ (pdf_wi >? Fin 0)%fl = true
             /\ shade_with_light_sampling Sampler next1d next2d next3d closest_hit
                  materials k tri2
                  (offset_ray_origin (vadd p (vscale (normalize wi2) t2))
                     (face_normal tri2))
                  (vneg wi2) st1 = Some (rec, st')
             /\ L = vdiv (vdiv (vscale (vscale rec
                                          (Dielectric.eval d wo wi2 (face_normal tri)))
                                       (fabs (dot (normalize (face_normal tri))
                                                  (normalize wi2))))
                               p_rr) pdf_wi).
Proof.
  split; [| split].
  - intros closest_hit [l | d] tri p u H; [reflexivity |].
    exfalso. apply H. apply direct_dielectric.
  - intros closest_hit d tri p u. apply direct_dielectric.
  - intros Sampler next1d next2d next3d closest_hit materials k tri p wo st st' d L.
    apply shade_dielectric_result.
Qed.

(** Under the light the red floor has a direct term and the glass has
    none; a hit on the glass that Russian roulette stops returns zero. *)
Lemma dielectric_has_no_direct_term_witness :
  (direct_term (Demo.always_hit Demo.lamp) (BoxScene.lambertian 1 0 0) (Demo.wall 1)
     Demo.below_light (mkVec2f (Fin (1 / 2)) (Fin (1 / 2))) <> vzero
   /\ holds_Lambertian (BoxScene.lambertian 1 0 0) = true)
  /\ direct_term (Demo.always_hit Demo.lamp) (MDielectric BoxScene.Glass)
       (Demo.wall 5) Demo.below_light (mkVec2f (Fin (1 / 2)) (Fin (1 / 2))) = vzero
  /\ material_at BoxScene.materials 5 = Some (MDielectric BoxScene.Glass)
  /\ shade_with_light_sampling nat Demo.next1d Demo.next2d Demo.next3d
       (Demo.always_hit Demo.lamp) BoxScene.materials
       1 (Demo.wall 5) Demo.below_light (fvec 0 0 1) (mkState 0%nat [])
     = Some (vzero, mkState 0%nat [EvShade; EvNext2d; EvNext1d]).
Proof.
  destruct dielectric_has_no_direct_term as (Honly & Hzero & _).
  split; [split; [exact direct_on_floor_nonzero |] |].
  { exact (Honly _ _ _ _ _ direct_on_floor_nonzero). }
  split; [apply Hzero |]. split; [reflexivity |].
  rewrite <- (Hzero (Demo.always_hit Demo.lamp) BoxScene.Glass (Demo.wall 5)
                Demo.below_light (mkVec2f (Fin (1 / 2)) (Fin (1 / 2)))) at 1.
  rewrite (shade_roulette_stop nat Demo.next1d Demo.next2d Demo.next3d
             (Demo.always_hit Demo.lamp) BoxScene.materials
             0%nat (Demo.wall 5) Demo.below_light (fvec 0 0 1) (mkState 0%nat [])
             (MDielectric BoxScene.Glass) (mkVec2f (Fin (1 / 2)) (Fin (1 / 2)))
             (Fin (9 / 10)) 0%nat 0%nat eq_refl eq_refl eq_refl roulette_stops).
  reflexivity.
Defined.

(** ** Null samples *)

(** The input of the test scene on which transmission is impossible: the
    outgoing direction is below the surface while the sampled normal faces
    it. *)
Lemma thin_cosine :
  dot (normalize (to_local (fvec 0 (24 / 25) (-7 / 25)) (fvec 0 0 1)))
      (fst (Dielectric.sample_normal Demo.thin (mkVec2f (Fin (16 / 25)) (Fin 0))))
  = Fin (3 / 5).
Proof.
  rewrite local_dir_z by lra. rewrite thin_normal, dot_fvec. fin_eq.
Qed.

Lemma thin_not_reflected :
  (Fin (1 / 2)
   <? Dielectric.Fresnel Demo.thin
        (dot (normalize (to_local (fvec 0 (24 / 25) (-7 / 25)) (fvec 0 0 1)))
             (fst (Dielectric.sample_normal Demo.thin
                     (mkVec2f (Fin (16 / 25)) (Fin 0))))))%fl = false.
Proof.
  rewrite thin_cosine, thin_Fresnel. apply fltb_Fin_false. lra.
Qed.

Lemma thin_beyond_critical :
  let wo := normalize (to_local (fvec 0 (24 / 25) (-7 / 25)) (fvec 0 0 1)) in
  let m := fst (Dielectric.sample_normal Demo.thin (mkVec2f (Fin (16 / 25)) (Fin 0))) in
  let eta_eff := if (vz wo >? Fin 0)%fl then (Dielectric.eta Demo.thin / Fin 1)%fl
                 else (Fin 1 / Dielectric.eta Demo.thin)%fl in
  (eta_eff * eta_eff * (Fin 1 - dot wo m * dot wo m) >=? Fin 1)%fl = true.
Proof.
  intros wo m eta_eff. subst eta_eff.
  replace (dot wo m) with (Fin (3 / 5)) by (symmetry; exact thin_cosine).
  subst wo. rewrite local_dir_z by lra.
  unfold Demo.thin. feval. reflexivity.
Qed.

(** C4: in the transmission branch of [sample], a squared sine of the
    transmitted angle that is at least 1 gives the zero direction with
    probability exactly 0; and the integrator follows a dielectric sample
    only when its selection probability is strictly positive: otherwise the
    invocation returns zero radiance after its three draws, with no recursive
    call. *)
Theorem null_sample_is_not_followed :
  (forall (d : Dielectric.t) (wo_world n u : Vec3f),
      let wo := normalize (to_local wo_world n) in
      let m := fst (Dielectric.sample_normal d (mkVec2f (vy u) (vz u))) in
      let cos_thetaO := dot wo m in
      let F := Dielectric.Fresnel d cos_thetaO in
      let eta_eff := if (vz wo >? Fin 0)%fl then (Dielectric.eta d / Fin 1)%fl
                     else (Fin 1 / Dielectric.eta d)%fl in
      let sin_thetaT2 := (eta_eff * eta_eff * (Fin 1 - cos_thetaO * cos_thetaO))%fl in
      (vx u <? F)%fl = false -> (sin_thetaT2 >=? Fin 1)%fl = true ->
      Dielectric.sample d wo_world n u = (vzero, Fin 0))
  /\ (forall (Sampler : Type) (next1d : Sampler -> float * Sampler)
             (next2d : Sampler -> Vec2f * Sampler) (next3d : Sampler -> Vec3f * Sampler)
             (closest_hit : Vec3f -> Vec3f -> bool * float * Triangle)
             (materials : list material) (k : nat) (tri : Triangle) (p wo : Vec3f)
             (st : state Sampler) (d : Dielectric.t) (u : Vec2f) (r : float)
             (u3 : Vec3f) (g1 g2 g3 : Sampler),
         material_at materials (material_id tri) = Some (MDielectric d) ->
         next2d (rng st) = (u, g1) ->
         next1d g1 = (r, g2) ->
         next3d g2 = (u3, g3) ->
         (r >? p_rr)%fl = false ->
         (snd (Dielectric.sample d wo (face_normal tri) u3) >? Fin 0)%fl = false ->
         shade_with_light_sampling Sampler next1d next2d next3d closest_hit materials
           (S k) tri p wo st
         = Some (vzero,
                 mkState g3 (trace st ++ [EvShade; EvNext2d; EvNext1d; EvNext3d]))).
Proof.
  split.
  - intros d wo_world n u wo m cos_thetaO F eta_eff sin_thetaT2 HF Hs.
    pose proof (Dielectric_sample_eq d wo_world n u) as E. cbv zeta in E.
    fold wo m cos_thetaO F eta_eff sin_thetaT2 in E.
    rewrite E, HF, Hs. reflexivity.
  - intros Sampler next1d next2d next3d closest_hit materials k tri p wo st d u r
      u3 g1 g2 g3 Hm H2 H1 H3 Hr Hpdf.
    rewrite (shade_dielectric_no_recursion Sampler next1d next2d next3d closest_hit
               materials k tri p wo st d u r u3 g1 g2 g3 Hm H2 H1 H3 Hr Hpdf).
    rewrite direct_dielectric, vadd_zero_l, <- !app_assoc. reflexivity.
Qed.

(** The null sample of the thin dielectric, and the invocation that draws
    it. *)
Lemma null_sample_is_not_followed_witness :
  Dielectric.sample Demo.thin (fvec 0 (24 / 25) (-7 / 25)) (fvec 0 0 1)
    (mkVec3f (Fin (1 / 2)) (Fin (16 / 25)) (Fin 0))
  = (vzero, Fin 0)
  /\ shade_with_light_sampling nat Demo.next1d Demo.next2d Demo.next3d
       (Demo.always_hit (Demo.wall 0)) [MDielectric Demo.thin]
       1 (Demo.wall 0) vzero (fvec 0 (24 / 25) (-7 / 25)) (mkState 1%nat [])
     = Some (vzero, mkState 0%nat [EvShade; EvNext2d; EvNext1d; EvNext3d]).
Proof.
  destruct null_sample_is_not_followed as [Hsample Hshade].
  assert (Hnull : Dielectric.sample Demo.thin (fvec 0 (24 / 25) (-7 / 25)) (fvec 0 0 1)
                    (mkVec3f (Fin (1 / 2)) (Fin (16 / 25)) (Fin 0))
                  = (vzero, Fin 0)).
  { apply Hsample; [exact thin_not_reflected | exact thin_beyond_critical]. }
  split; [exact Hnull |].
  apply (Hshade nat Demo.next1d Demo.next2d Demo.next3d
           (Demo.always_hit (Demo.wall 0)) [MDielectric Demo.thin]
           0%nat (Demo.wall 0) vzero (fvec 0 (24 / 25) (-7 / 25)) (mkState 1%nat [])
           Demo.thin (mkVec2f (Fin (1 / 2)) (Fin (1 / 2))) (Fin (1 / 2))
           (mkVec3f (Fin (1 / 2)) (Fin (16 / 25)) (Fin 0)) 1%nat 0%nat 0%nat
           eq_refl eq_refl eq_refl eq_refl roulette_continues).
  change (face_normal (Demo.wall 0)) with (fvec 0 0 1).
  rewrite Hnull. unfold fgtb. apply fltb_Fin_false. lra.
Defined.

(** ** The row renderer *)

(** What [std::clamp] returns is the value or one of the two bounds. *)
Lemma vclamp_cases (vlt : Vec3f -> Vec3f -> bool) (v lo hi : Vec3f) :
  vclamp vlt v lo hi = lo \/ vclamp vlt v lo hi = hi \/ vclamp vlt v lo hi = v.
Proof.
  unfold vclamp. destruct (vlt v lo); [left; reflexivity |].
  destruct (vlt hi v); [right; left; reflexivity | right; right; reflexivity].
Qed.

(** Under the lexicographic order a colour whose first channel is between
    the bounds passes unchanged, whatever its other channels are. *)
Lemma vclamp_lexicographic :
  vclamp Demo.lexicographic (fvec 10 1000 1000) (vsplat (Fin 0)) (vsplat (Fin 50))
  = fvec 10 1000 1000.
Proof.
  unfold vclamp, Demo.lexicographic, vsplat, fvec. cbn [vx vy vz feqb].
  rewrite (fltb_Fin_false 10 0), (fltb_Fin_false 50 10) by lra.
  destruct (Req_dec_T 10 0) as [H | _]; [exfalso; lra |].
  destruct (Req_dec_T 50 10) as [H | _]; [exfalso; lra |].
  reflexivity.
Qed.

Lemma vadd_bounded (B1 B2 : R) (v w : Vec3f) :
  bounded B1 v -> bounded B2 w -> bounded (B1 + B2) (vadd v w).
Proof.
  intros (a & b & c & -> & Ha & Hb & Hc) (a' & b' & c' & -> & Ha' & Hb' & Hc').
  exists (a + a'), (b + b'), (c + c'). repeat split; lra.
Qed.

Lemma in_range_Fin (lo hi r : R) : lo <= r <= hi -> in_range lo hi (Fin r).
Proof.
  intros [H0 H1]. unfold in_range.
  rewrite (fleb_Fin_true lo r H0), (fleb_Fin_true r hi H1). reflexivity.
Qed.

Lemma bounded_in_box (v : Vec3f) : bounded 50 v -> in_box v.
Proof.
  intros (a & b & c & -> & Ha & Hb & Hc).
  repeat split; apply in_range_Fin; assumption.
Qed.

Lemma in_range_inv (lo hi : R) (a : float) :
  in_range lo hi a -> exists r, a = Fin r /\ lo <= r <= hi.
Proof.
  unfold in_range. intros H. apply andb_true_iff in H. destruct H as [H0 H1].
  destruct a as [r | | |]; try discriminate.
  exists r. split; [reflexivity |].
  split; [apply fleb_Fin_inv; exact H0 | apply fleb_Fin_inv; exact H1].
Qed.

Lemma in_box_bounded (v : Vec3f) : in_box v -> bounded 50 v.
Proof.
  destruct v as [a b c]. unfold in_box. cbn [vx vy vz]. intros (Ha & Hb & Hc).
  destruct (in_range_inv _ _ _ Ha) as (ra & -> & Hra).
  destruct (in_range_inv _ _ _ Hb) as (rb & -> & Hrb).
  destruct (in_range_inv _ _ _ Hc) as (rc & -> & Hrc).
  exists ra, rb, rc. repeat split; lra.
Qed.

(** Under the order [Demo.some_channel_below] the clamp confines every
    channel. *)
Lemma some_channel_below_confines (L : Vec3f) :
  in_box (vclamp Demo.some_channel_below L (vsplat (Fin 0)) (vsplat (Fin 50))).
Proof.
  unfold vclamp, Demo.some_channel_below, vsplat. cbn [vx vy vz].
  destruct ((Fin 0 <=? vx L)%fl && (Fin 0 <=? vy L)%fl && (Fin 0 <=? vz L)%fl)%bool
    eqn:Hlo; cbn [negb].
  2: { repeat split; apply in_range_Fin; lra. }
  destruct ((vx L <=? Fin 50)%fl && (vy L <=? Fin 50)%fl && (vz L <=? Fin 50)%fl)%bool
    eqn:Hhi; cbn [negb].
  2: { repeat split; apply in_range_Fin; lra. }
  apply andb_true_iff in Hlo. destruct Hlo as [Hlo Hz0].
  apply andb_true_iff in Hlo. destruct Hlo as [Hx0 Hy0].
  apply andb_true_iff in Hhi. destruct Hhi as [Hhi Hz1].
  apply andb_true_iff in Hhi. destruct Hhi as [Hx1 Hy1].
  unfold in_box, in_range. rewrite Hx0, Hx1, Hy0, Hy1, Hz0, Hz1. repeat split.
Qed.

Section RenderFacts.

Variable Sampler : Type.
Variable next1d : Sampler -> float * Sampler.
Variable next2d : Sampler -> Vec2f * Sampler.
Variable next3d : Sampler -> Vec3f * Sampler.
Variable closest_hit : Vec3f -> Vec3f -> bool * float * Triangle.
Variable materials : list material.
Variable camera_position : Vec3f.
Variable generate_ray : float -> float -> Vec3f.
Variable vlt : Vec3f -> Vec3f -> bool.

(** The order of the vector library is such that the clamp of [renderRow]
    confines every channel. *)
Hypothesis clamp_confines :
  forall L : Vec3f, in_box (vclamp vlt L (vsplat (Fin 0)) (vsplat (Fin 50))).

Local Abbreviation samples :=
  (sample_loop Sampler next1d next2d next3d closest_hit materials camera_position
     generate_ray vlt).
Local Abbreviation pixel :=
  (render_pixel Sampler next1d next2d next3d closest_hit materials camera_position
     generate_ray vlt).
Local Abbreviation columns :=
  (column_loop Sampler next1d next2d next3d closest_hit materials camera_position
     generate_ray vlt).

(** After [n] more samples the accumulator has grown by at most [50 * n]. *)
Lemma sample_loop_bounded (fuel : nat) (image : Image) (x row : Z) (n : nat) :
  forall (B : R) (px px' : Vec3f) (st st' : state Sampler),
    bounded B px ->
    samples fuel image x row n px st = Some (px', st') ->
    bounded (B + 50 * INR n) px'.
Proof.
  induction n as [| n IH]; intros B px px' st st' Hpx.
  - cbn [sample_loop]. unfold ret. intros H. injection H as <- _.
    replace (B + 50 * INR 0) with B by (cbn [INR]; ring). exact Hpx.
  - cbn [sample_loop]. unfold bind, draw1d. cbn [rng trace].
    destruct (next1d (rng st)) as [r1 g1]. mstep.
    destruct (next1d g1) as [r2 g2]. mstep.
    match goal with
    | |- context [path_tracing_with_light_sampling ?S ?a ?b ?c ?d ?m ?f ?o ?r ?s] =>
        destruct (path_tracing_with_light_sampling S a b c d m f o r s)
          as [[L st2] |]; [| discriminate]
    end.
    intros H.
    pose proof (IH (B + 50) _ _ _ _
                  (vadd_bounded _ _ _ _ Hpx (in_box_bounded _ (clamp_confines L))) H)
      as Hb.
    replace (B + 50 * INR (S n)) with (B + 50 + 50 * INR n)
      by (rewrite S_INR; ring).
    exact Hb.
Qed.

Lemma bounded_zero : bounded 0 (vsplat (Fin 0)).
Proof. exists 0, 0, 0. repeat split; lra. Qed.

(** A pixel averaged over a number of samples that is not zero has its
    three channels in [[0, 50]]. *)
Lemma render_pixel_in_box (fuel : nat) (image : Image) (x row max_spp : Z)
  (st st' : state Sampler) (px : Vec3f) :
  max_spp <> 0%Z ->
  pixel fuel image x row max_spp st = Some (px, st') ->
  in_box px.
Proof.
  intros Hnz. unfold render_pixel, bind, ret.
  destruct (samples fuel image x row (Z.to_nat max_spp) (vsplat (Fin 0)) st)
    as [[sum st1] |] eqn:Hsum; [| discriminate].
  intros H. injection H as <- _.
  pose proof (sample_loop_bounded _ _ _ _ _ _ _ _ _ _ bounded_zero Hsum)
    as (a & b & c & -> & Ha & Hb & Hc).
  apply bounded_in_box.
  assert (Hm : IZR max_spp <> 0) by (apply not_0_IZR; exact Hnz).
  unfold vdiv, float_of_int, fvec. cbn [vx vy vz]. rewrite !fdiv_Fin by exact Hm.
  exists (a / IZR max_spp), (b / IZR max_spp), (c / IZR max_spp).
  split; [reflexivity |].
  destruct (Z_lt_le_dec max_spp 0) as [Hneg | Hpos].
  - assert (Hn : Z.to_nat max_spp = 0%nat) by lia.
    rewrite Hn in Ha, Hb, Hc. cbn [INR] in Ha, Hb, Hc.
    assert (a = 0) by lra. assert (b = 0) by lra. assert (c = 0) by lra.
    subst a b c. unfold Rdiv. rewrite !Rmult_0_l. repeat split; lra.
  - assert (Hn : INR (Z.to_nat max_spp) = IZR max_spp).
    { rewrite INR_IZR_INZ, Z2Nat.id by lia. reflexivity. }
    rewrite Hn in Ha, Hb, Hc.
    assert (Hgt : 0 < IZR max_spp) by (apply IZR_lt; lia).
    assert (Hinv : 0 < / IZR max_spp) by (apply Rinv_0_lt_compat; exact Hgt).
    assert (Hone : IZR max_spp * / IZR max_spp = 1) by (apply Rinv_r; exact Hm).
    unfold Rdiv. repeat split; nra.
Qed.

Local Abbreviation row_of :=
  (renderRow Sampler next1d next2d next3d closest_hit materials camera_position
     generate_ray vlt).

Lemma width_set_pixel (image : Image) (x y : Z) (c : Vec3f) :
  width (set_pixel image x y c) = width image.
Proof. reflexivity. Qed.

(** The [n] last columns of the row end in [[0, 50]], and no other pixel
    changes. *)
Lemma column_loop_spec (fuel : nat) (row max_spp : Z) (n : nat) :
  max_spp <> 0%Z ->
  forall (image image' : Image) (st st' : state Sampler),
    columns fuel row max_spp n image st = Some (image', st') ->
    (forall x, (width image - Z.of_nat n <= x < width image)%Z ->
               in_box (pixels image' x row))
    /\ (forall x y, ~ ((width image - Z.of_nat n <= x < width image)%Z /\ y = row) ->
                    pixels image' x y = pixels image x y).
Proof.
  intros Hnz. induction n as [| n IH]; intros image image' st st'.
  - cbn [column_loop]. unfold ret. intros H. injection H as <- _.
    split; [intros x Hx; lia | reflexivity].
  - cbn [column_loop]. unfold bind at 1.
    set (x0 := (width image - Z.of_nat (S n))%Z).
    destruct (pixel fuel image x0 row max_spp st) as [[px st1] |] eqn:Hpx;
      [| discriminate].
    intros H. destruct (IH _ _ _ _ H) as [Hin Hout].
    rewrite width_set_pixel in Hin, Hout.
    pose proof (render_pixel_in_box _ _ _ _ _ _ _ _ Hnz Hpx) as Hbox.
    split.
    + intros x Hx. destruct (Z.eq_dec x x0) as [-> | Hne].
      * rewrite Hout by (unfold x0; lia).
        unfold set_pixel. cbn [pixels]. rewrite !Z.eqb_refl. exact Hbox.
      * apply Hin. unfold x0 in Hne. lia.
    + intros x y Hxy. rewrite Hout by (intros [Hx Hy]; apply Hxy; split; [lia | exact Hy]).
      unfold set_pixel. cbn [pixels].
      destruct (Z.eqb x x0 && Z.eqb y row)%bool eqn:E; [| reflexivity].
      apply andb_true_iff in E. destruct E as [Ex Ey].
      apply Z.eqb_eq in Ex, Ey. exfalso. apply Hxy. unfold x0 in Ex. split; lia.
Qed.

Lemma renderRow_in_box (fuel : nat) (row max_spp : Z) (image image' : Image)
  (st st' : state Sampler) :
  max_spp <> 0%Z ->
  row_of fuel row max_spp image st = Some (image', st') ->
  forall x, (0 <= x < width image)%Z -> in_box (pixels image' x row).
Proof.
  intros Hnz Hrun x Hx. unfold renderRow in Hrun.
  destruct (column_loop_spec fuel row max_spp _ Hnz _ _ _ _ Hrun) as [Hin _].
  apply Hin. rewrite Z2Nat.id by lia. lia.
Qed.

End RenderFacts.

Lemma fdiv_zero_zero : (Fin 0 / Fin 0)%fl = NaN.
Proof.
  unfold fdiv. destruct (Req_dec_T 0 0) as [_ | Hn]; [| exfalso; apply Hn; reflexivity].
  unfold inf_of_sign.
  destruct (Rlt_dec 0 0) as [Hlt | _]; [exfalso; lra | reflexivity].
Qed.

(** With no sample at all the stored pixel is zero over zero. *)
Lemma renderRow_no_sample :
  exists image' st',
    renderRow nat Demo.next1d Demo.next2d Demo.next3d Demo.never_hit
      BoxScene.materials vzero Demo.camera_ray Demo.some_channel_below 0%nat 0 0
      Demo.blank (mkState 0%nat [])
    = Some (image', st')
    /\ pixels image' 0 0 = mkVec3f NaN NaN NaN.
Proof.
  eexists. eexists. split.
  { unfold renderRow. change (Z.to_nat (width Demo.blank)) with 1%nat.
    cbn [column_loop]. unfold bind, render_pixel, ret.
    change (Z.to_nat 0) with 0%nat. cbn [sample_loop]. unfold ret.
    reflexivity. }
  cbn [pixels set_pixel Demo.blank width Z.eqb andb Z.sub Z.of_nat Z.opp Z.add
       Pos.of_succ_nat Z.pos_sub].
  unfold vdiv, vsplat, float_of_int. cbn [vx vy vz].
  rewrite fdiv_zero_zero. reflexivity.
Qed.


(** One sample of a ray that misses the scene. *)
Lemma renderRow_one_sample :
  exists image' st',
    renderRow nat Demo.next1d Demo.next2d Demo.next3d Demo.never_hit
      BoxScene.materials vzero Demo.camera_ray Demo.some_channel_below 0%nat 0 1
      Demo.blank (mkState 0%nat [])
    = Some (image', st').
Proof.
  eexists. eexists.
  unfold renderRow. change (Z.to_nat (width Demo.blank)) with 1%nat.
  cbn [column_loop]. unfold bind, render_pixel.
  change (Z.to_nat 1) with 1%nat. cbn [sample_loop].
  unfold bind, draw1d, path_tracing_with_light_sampling, Demo.never_hit, ret.
  cbn [rng trace Demo.next1d negb Nat.pred].
  reflexivity.
Qed.




(** ** The local frame *)

(** The frame of a finite normal, with [s] the sign of [nz] and
    [a = -1 / (s + nz)]. *)
Lemma coordinate_system_fvec (nx ny nz : R) :
  exists s a,
    (s = 1 \/ s = -1) /\ a * (s + nz) = -1
    /\ coordinate_system (fvec nx ny nz)
       = (fvec (1 + s * nx * nx * a) (s * (nx * ny * a)) (- s * nx),
          fvec (nx * ny * a) (s + ny * ny * a) (- ny)).
Proof.
  unfold coordinate_system, fvec, copysign1. cbn [vx vy vz].
  destruct (Rlt_dec nz 0) as [Hneg | Hpos]; cbn [fadd].
  - exists (-1), (-1 / (-1 + nz)). split; [right; reflexivity |].
    split; [field; lra |].
    rewrite fdiv_Fin by lra. cbn [fmul fadd fopp]. reflexivity.
  - exists 1, (-1 / (1 + nz)). split; [left; reflexivity |].
    split; [field; lra |].
    rewrite fdiv_Fin by lra. cbn [fmul fadd fopp]. reflexivity.
Qed.

Lemma normalize_nonzero (A B C : R) :
  0 < A * A + B * B + C * C ->
  let L := sqrt (A * A + B * B + C * C) in
  0 < L /\ L * L = A * A + B * B + C * C
  /\ normalize (fvec A B C) = fvec (A / L) (B / L) (C / L).
Proof.
  intros Hq L.
  assert (HL : 0 < L) by (apply sqrt_lt_R0; exact Hq).
  assert (HLL : L * L = A * A + B * B + C * C) by (apply sqrt_sqrt; lra).
  split; [exact HL | split; [exact HLL |]].
  unfold normalize, length. rewrite dot_fvec, fsqrt_Fin by lra. fold L.
  unfold vdiv, fvec. cbn [vx vy vz]. rewrite !fdiv_Fin by lra. reflexivity.
Qed.

Lemma unit_of_normalized (A B C L : R) :
  0 < L -> L * L = A * A + B * B + C * C ->
  A / L * (A / L) + B / L * (B / L) + C / L * (C / L) = 1.
Proof.
  intros HL HLL.
  apply Rmult_eq_reg_r with (L * L); [| nra].
  replace ((A / L * (A / L) + B / L * (B / L) + C / L * (C / L)) * (L * L))
    with (A * A + B * B + C * C) by (field; lra).
  lra.
Qed.

Lemma to_local_frame (a b c nx ny nz : R) :
  nx * nx + ny * ny + nz * nz = 1 ->
  exists x y z,
    to_local (fvec a b c) (fvec nx ny nz) = fvec x y z
    /\ z = a * nx + b * ny + c * nz
    /\ x * x + y * y + z * z = a * a + b * b + c * c.
Proof.
  intros Hu. unfold to_local.
  destruct (coordinate_system_fvec nx ny nz) as (s & k & Hs & Ha & ->).
  rewrite !dot_fvec. eexists _, _, _. split; [reflexivity |].
  split; [reflexivity |]. destruct Hs as [-> | ->]; nsatz.
Qed.

Lemma from_local_frame (a b c nx ny nz : R) :
  nx * nx + ny * ny + nz * nz = 1 ->
  exists x y z,
    from_local (fvec a b c) (fvec nx ny nz) = fvec x y z
    /\ x * nx + y * ny + z * nz = c
    /\ x * x + y * y + z * z = a * a + b * b + c * c.
Proof.
  intros Hu. unfold from_local.
  destruct (coordinate_system_fvec nx ny nz) as (s & k & Hs & Ha & ->).
  unfold smul, vadd, fvec. cbn [vx vy vz fmul fadd].
  eexists _, _, _. split; [reflexivity |].
  split; destruct Hs as [-> | ->]; nsatz.
Qed.

Lemma to_from_local (a b c nx ny nz : R) :
  nx * nx + ny * ny + nz * nz = 1 ->
  to_local (from_local (fvec a b c) (fvec nx ny nz)) (fvec nx ny nz) = fvec a b c.
Proof.
  intros Hu. unfold to_local, from_local.
  destruct (coordinate_system_fvec nx ny nz) as (s & a' & Hs & Ha & ->).
  unfold smul, vadd, fvec, dot. cbn [vx vy vz fmul fadd].
  apply (f_equal3 mkVec3f); f_equal; destruct Hs as [-> | ->]; nsatz.
Qed.

(** The outgoing direction in the local frame: a unit vector whose height
    is the cosine between the world direction and the normal. *)
Lemma local_dir_unit (a b c nx ny nz : R) :
  nx * nx + ny * ny + nz * nz = 1 -> 0 < a * a + b * b + c * c ->
  exists x y z,
    normalize (to_local (fvec a b c) (fvec nx ny nz)) = fvec x y z
    /\ x * x + y * y + z * z = 1
    /\ z * sqrt (a * a + b * b + c * c) = a * nx + b * ny + c * nz.
Proof.
  intros Hu Hq.
  destruct (to_local_frame a b c nx ny nz Hu) as (x & y & z & -> & Hz & Hlen).
  assert (Hq' : 0 < x * x + y * y + z * z) by lra.
  destruct (normalize_nonzero x y z Hq') as (HL & HLL & ->).
  rewrite Hlen in *.
  set (L := sqrt (a * a + b * b + c * c)) in *.
  eexists _, _, _. split; [reflexivity |]. split.
  - apply unit_of_normalized; lra.
  - rewrite <- Hz. field. lra.
Qed.

(** X1: for a unit normal the two tangents that [coordinate_system]
    returns are unit vectors, orthogonal to each other and to the normal. *)
Theorem coordinate_system_orthonormal (nx ny nz : R) :
  nx * nx + ny * ny + nz * nz = 1 ->
  let n := fvec nx ny nz in
  let x := fst (coordinate_system n) in
  let y := snd (coordinate_system n) in
  unit_vec x /\ unit_vec y
  /\ dot x y = Fin 0 /\ dot x n = Fin 0 /\ dot y n = Fin 0.
Proof.
  intros Hu n x y. subst x y n.
  destruct (coordinate_system_fvec nx ny nz) as (s & a & Hs & Ha & ->).
  cbn [fst snd]. rewrite !dot_fvec.
  split; [| split; [| split; [| split]]].
  - eexists _, _, _. split; [reflexivity |]. destruct Hs as [-> | ->]; nsatz.
  - eexists _, _, _. split; [reflexivity |]. destruct Hs as [-> | ->]; nsatz.
  - f_equal. destruct Hs as [-> | ->]; nsatz.
  - f_equal. destruct Hs as [-> | ->]; nsatz.
  - f_equal. destruct Hs as [-> | ->]; nsatz.
Qed.

(** The normal (0, 3/5, -4/5), which points below the horizon. *)
Lemma coordinate_system_orthonormal_witness :
  0 * 0 + 3 / 5 * (3 / 5) + -4 / 5 * (-4 / 5) = 1
  /\ dot (fst (coordinate_system (fvec 0 (3 / 5) (-4 / 5))))
         (snd (coordinate_system (fvec 0 (3 / 5) (-4 / 5)))) = Fin 0.
Proof.
  assert (Hu : 0 * 0 + 3 / 5 * (3 / 5) + -4 / 5 * (-4 / 5) = 1) by lra.
  split; [exact Hu |].
  exact (proj1 (proj2 (proj2 (coordinate_system_orthonormal 0 (3 / 5) (-4 / 5) Hu)))).
Defined.

(** X2: for a unit normal, [to_local] and [from_local] are inverse to each
    other on finite vectors. *)
Theorem local_frame_round_trip (a b c nx ny nz : R) :
  nx * nx + ny * ny + nz * nz = 1 ->
  to_local (from_local (fvec a b c) (fvec nx ny nz)) (fvec nx ny nz) = fvec a b c
  /\ from_local (to_local (fvec a b c) (fvec nx ny nz)) (fvec nx ny nz) = fvec a b c.
Proof.
  intros Hu. split; [apply to_from_local; exact Hu |].
  unfold to_local, from_local.
  destruct (coordinate_system_fvec nx ny nz) as (s & a' & Hs & Ha & ->).
  rewrite !dot_fvec. unfold smul, vadd, fvec. cbn [vx vy vz fmul fadd].
  apply (f_equal3 mkVec3f); f_equal; destruct Hs as [-> | ->]; nsatz.
Qed.

Lemma local_frame_round_trip_witness :
  0 * 0 + 3 / 5 * (3 / 5) + -4 / 5 * (-4 / 5) = 1
  /\ to_local (from_local (fvec 1 2 3) (fvec 0 (3 / 5) (-4 / 5))) (fvec 0 (3 / 5) (-4 / 5))
     = fvec 1 2 3.
Proof.
  assert (Hu : 0 * 0 + 3 / 5 * (3 / 5) + -4 / 5 * (-4 / 5) = 1) by lra.
  split; [exact Hu |].
  exact (proj1 (local_frame_round_trip 1 2 3 0 (3 / 5) (-4 / 5) Hu)).
Defined.

(** X3: for a unit normal, [to_local] sends the normal to the +Z axis and
    keeps the dot product of any two finite vectors, and so their lengths
    and angles. *)
Theorem to_local_isometry (a b c a' b' c' nx ny nz : R) :
  nx * nx + ny * ny + nz * nz = 1 ->
  let n := fvec nx ny nz in
  to_local n n = fvec 0 0 1
  /\ dot (to_local (fvec a b c) n) (to_local (fvec a' b' c') n)
     = dot (fvec a b c) (fvec a' b' c').
Proof.
  intros Hu n. subst n. unfold to_local.
  destruct (coordinate_system_fvec nx ny nz) as (s & k & Hs & Ha & ->).
  rewrite !dot_fvec. split.
  - apply (f_equal3 mkVec3f); f_equal; destruct Hs as [-> | ->]; nsatz.
  - change (mkVec3f (Fin ?p) (Fin ?q) (Fin ?r)) with (fvec p q r).
    rewrite !dot_fvec. f_equal. destruct Hs as [-> | ->]; nsatz.
Qed.

Lemma to_local_isometry_witness :
  0 * 0 + 3 / 5 * (3 / 5) + -4 / 5 * (-4 / 5) = 1
  /\ to_local (fvec 0 (3 / 5) (-4 / 5)) (fvec 0 (3 / 5) (-4 / 5)) = fvec 0 0 1.
Proof.
  assert (Hu : 0 * 0 + 3 / 5 * (3 / 5) + -4 / 5 * (-4 / 5) = 1) by lra.
  split; [exact Hu |].
  exact (proj1 (to_local_isometry 0 0 0 0 0 0 0 (3 / 5) (-4 / 5) Hu)).
Defined.

(** X4: about a unit normal, [mirror_reflect] keeps the length of a finite
    vector, negates its component along the normal, and undoes itself. *)
Theorem mirror_reflect_spec (a b c nx ny nz : R) :
  nx * nx + ny * ny + nz * nz = 1 ->
  let v := fvec a b c in
  let n := fvec nx ny nz in
  dot (mirror_reflect v n) (mirror_reflect v n) = dot v v
  /\ dot (mirror_reflect v n) n = (- dot v n)%fl
  /\ mirror_reflect (mirror_reflect v n) n = v.
Proof.
  intros Hu v n. subst v n. rewrite !mirror_reflect_fvec, !dot_fvec.
  split; [| split].
  - f_equal. nsatz.
  - cbn [fopp]. f_equal. nsatz.
  - apply (f_equal3 mkVec3f); f_equal; nsatz.
Qed.

Lemma mirror_reflect_spec_witness :
  0 * 0 + 0 * 0 + 1 * 1 = 1
  /\ mirror_reflect (mirror_reflect (fvec 1 2 3) (fvec 0 0 1)) (fvec 0 0 1) = fvec 1 2 3.
Proof.
  assert (Hu : 0 * 0 + 0 * 0 + 1 * 1 = 1) by lra.
  split; [exact Hu |].
  exact (proj2 (proj2 (mirror_reflect_spec 1 2 3 0 0 1 Hu))).
Defined.

(** ** [Lambertian::sample] *)

(** X5: for a unit normal and a first random number in [[0, 1]],
    [Lambertian::sample] returns a unit direction whose cosine with the
    normal is that random number, so a direction of the upper hemisphere,
    together with the constant [1 / (2 PI)]. *)
Theorem Lambertian_sample_direction (l : Lambertian.t) (nx ny nz u0 u1 : R) :
  nx * nx + ny * ny + nz * nz = 1 -> 0 <= u0 <= 1 ->
  let n := fvec nx ny nz in
  let dir := fst (Lambertian.sample l n (mkVec2f (Fin u0) (Fin u1))) in
  unit_vec dir /\ dot dir n = Fin u0
  /\ snd (Lambertian.sample l n (mkVec2f (Fin u0) (Fin u1)))
     = Fin (1 / (2 * (3141592653589 / 1000000000000))).
Proof.
  intros Hu Hu0 n dir. subst dir n. unfold Lambertian.sample.
  cbn [fst snd x2 y2 PI fmul fsub fadd fopp].
  rewrite fmax0_Fin.
  assert (Hsq : 0 <= 1 + - (u0 * u0)) by nra.
  rewrite Rmax_right by exact Hsq.
  rewrite fsqrt_Fin by exact Hsq. cbn [fsin fcos fmul].
  set (rr := sqrt (1 + - (u0 * u0))).
  set (phi := 2 * (3141592653589 / 1000000000000) * u1).
  assert (Hrr : rr * rr = 1 - u0 * u0)
    by (unfold rr; rewrite sqrt_sqrt by exact Hsq; ring).
  assert (Htrig : sin phi * sin phi + cos phi * cos phi = 1)
    by (pose proof (sin2_cos2 phi) as H; unfold Rsqr in H; exact H).
  change (mkVec3f (Fin (rr * cos phi)) (Fin (rr * sin phi)) (Fin u0))
    with (fvec (rr * cos phi) (rr * sin phi) u0).
  assert (Hv : rr * cos phi * (rr * cos phi) + rr * sin phi * (rr * sin phi) + u0 * u0 = 1).
  { replace (rr * cos phi * (rr * cos phi) + rr * sin phi * (rr * sin phi) + u0 * u0)
      with (rr * rr * (sin phi * sin phi + cos phi * cos phi) + u0 * u0) by ring.
    rewrite Htrig, Hrr. ring. }
  rewrite (normalize_unit _ _ _ Hv).
  destruct (from_local_frame (rr * cos phi) (rr * sin phi) u0 nx ny nz Hu)
    as (x & y & z & -> & Hdot & Hlen).
  split; [| split].
  - exists x, y, z. split; [reflexivity | lra].
  - rewrite dot_fvec. f_equal. exact Hdot.
  - rewrite fdiv_Fin by lra. reflexivity.
Qed.

Lemma Lambertian_sample_direction_witness :
  (0 * 0 + 3 / 5 * (3 / 5) + -4 / 5 * (-4 / 5) = 1 /\ 0 <= 1 / 2 <= 1)
  /\ dot (fst (Lambertian.sample (Lambertian.mk vzero) (fvec 0 (3 / 5) (-4 / 5))
                 (mkVec2f (Fin (1 / 2)) (Fin (1 / 3)))))
         (fvec 0 (3 / 5) (-4 / 5)) = Fin (1 / 2).
Proof.
  assert (Hu : 0 * 0 + 3 / 5 * (3 / 5) + -4 / 5 * (-4 / 5) = 1) by lra.
  assert (Hu0 : 0 <= 1 / 2 <= 1) by lra.
  split; [split; assumption |].
  exact (proj1 (proj2 (Lambertian_sample_direction (Lambertian.mk vzero)
                         0 (3 / 5) (-4 / 5) (1 / 2) (1 / 3) Hu Hu0))).
Defined.

(** ** More on [Fresnel] *)

(** [Fresnel] of a finite cosine in [[-1, 1]], for a positive finite [eta]:
    [ei] and [et] are [eta] and 1 on the entering side and 1 and [eta]
    otherwise. *)
Lemma Fresnel_Fin (e r c ei et : R) :
  0 < e -> -1 <= c <= 1 ->
  (0 < c /\ ei = e /\ et = 1) \/ (c <= 0 /\ ei = 1 /\ et = e) ->
  let t := ei / et * sqrt (1 - c * c) in
  let ci := Rabs c in
  let ct := sqrt (1 - t * t) in
  (1 <= t -> Dielectric.Fresnel (Dielectric.mk (Fin e) (Fin r)) (Fin c) = Fin 1)
  /\ (t < 1 ->
      Dielectric.Fresnel (Dielectric.mk (Fin e) (Fin r)) (Fin c)
      = Fin (1 / 2 * ((et * ci - ei * ct) / (et * ci + ei * ct)
                      * ((et * ci - ei * ct) / (et * ci + ei * ct))
                      + (ei * ci - et * ct) / (ei * ci + et * ct)
                        * ((ei * ci - et * ct) / (ei * ci + et * ct))))).
Proof.
  intros He Hc Hside t ci ct.
  assert (Hcc : 0 <= 1 - c * c) by nra.
  assert (Hpos : 0 < ei /\ 0 < et) by (destruct Hside as [(_ & -> & ->) | (_ & -> & ->)]; lra).
  destruct Hpos as [Hei Het].
  assert (Hstart :
            Dielectric.Fresnel (Dielectric.mk (Fin e) (Fin r)) (Fin c)
            = if (Fin t >=? Fin 1)%fl then Fin 1
              else (Fin (1 / 2)
                    * ((Fin et * Fin ci - Fin ei * fsqrt (fmax (Fin 0) (Fin 1 - Fin t * Fin t)))
                       / (Fin et * Fin ci + Fin ei * fsqrt (fmax (Fin 0) (Fin 1 - Fin t * Fin t)))
                       * ((Fin et * Fin ci - Fin ei * fsqrt (fmax (Fin 0) (Fin 1 - Fin t * Fin t)))
                          / (Fin et * Fin ci + Fin ei * fsqrt (fmax (Fin 0) (Fin 1 - Fin t * Fin t))))
                       + (Fin ei * Fin ci - Fin et * fsqrt (fmax (Fin 0) (Fin 1 - Fin t * Fin t)))
                         / (Fin ei * Fin ci + Fin et * fsqrt (fmax (Fin 0) (Fin 1 - Fin t * Fin t)))
                         * ((Fin ei * Fin ci - Fin et * fsqrt (fmax (Fin 0) (Fin 1 - Fin t * Fin t)))
                            / (Fin ei * Fin ci + Fin et * fsqrt (fmax (Fin 0) (Fin 1 - Fin t * Fin t))))))%fl).
  { unfold Dielectric.Fresnel, fclamp.
    rewrite (fltb_Fin_false c (-1)), (fltb_Fin_false 1 c) by lra.
    unfold fgtb at 1.
    assert (Hidx : Dielectric.indices (Dielectric.mk (Fin e) (Fin r)) (Fin 0 <? Fin c)%fl
                   = (Fin ei, Fin et)).
    { destruct Hside as [(H0 & -> & ->) | (H0 & -> & ->)].
      - rewrite fltb_Fin_true by lra. reflexivity.
      - rewrite fltb_Fin_false by lra. reflexivity. }
    rewrite Hidx.
    cbn [fmul fsub fadd fopp] . 
    replace (1 + - (c * c)) with (1 - c * c) by ring.
    rewrite fmax0_Fin, Rmax_right by lra.
    rewrite fsqrt_Fin by lra. rewrite fdiv_Fin by lra. cbn [fmul fabs].
    fold t. fold ci. reflexivity. }
  rewrite Hstart. unfold fgeb. split.
  - intros Ht. rewrite fleb_Fin_true by lra. reflexivity.
  - intros Ht. rewrite fleb_Fin_false by lra.
    assert (Ht0 : 0 <= t).
    { unfold t. apply Rmult_le_pos; [| apply sqrt_pos].
      apply Rlt_le, Rdiv_lt_0_compat; assumption. }
    assert (Htt : 0 < 1 - t * t) by nra.
    cbn [fmul fsub fadd fopp].
    replace (1 + - (t * t)) with (1 - t * t) by ring.
    rewrite fmax0_Fin, Rmax_right by lra.
    rewrite fsqrt_Fin by lra. fold ct.
    assert (Hct : 0 < ct) by (apply sqrt_lt_R0; exact Htt).
    assert (Hci : 0 <= ci) by apply Rabs_pos.
    cbn [fmul fsub fadd fopp].
    assert (H1 : 0 < et * ci + ei * ct).
    { assert (0 <= et * ci) by (apply Rmult_le_pos; lra).
      assert (0 < ei * ct) by (apply Rmult_lt_0_compat; lra). lra. }
    assert (H2 : 0 < ei * ci + et * ct).
    { assert (0 <= ei * ci) by (apply Rmult_le_pos; lra).
      assert (0 < et * ct) by (apply Rmult_lt_0_compat; lra). lra. }
    rewrite !fdiv_Fin by lra. cbn [fmul fadd]. f_equal.
Qed.

(** [Fresnel] sees its argument through the clamp to [[-1, 1]] only. *)
Lemma Fresnel_clamped (d : Dielectric.t) (c : float) :
  Dielectric.Fresnel d c = Dielectric.Fresnel d (fclamp c (Fin (-1)) (Fin 1)).
Proof.
  assert (Hidem : fclamp (fclamp c (Fin (-1)) (Fin 1)) (Fin (-1)) (Fin 1)
                  = fclamp c (Fin (-1)) (Fin 1)).
  { unfold fclamp.
    destruct (c <? Fin (-1))%fl eqn:H1.
    - rewrite (fltb_Fin_false (-1) (-1)), (fltb_Fin_false 1 (-1)) by lra. reflexivity.
    - destruct (Fin 1 <? c)%fl eqn:H2.
      + rewrite (fltb_Fin_false 1 (-1)), (fltb_Fin_false 1 1) by lra. reflexivity.
      + rewrite H1, H2. reflexivity. }
  unfold Dielectric.Fresnel. rewrite Hidem. reflexivity.
Qed.

(** X6: at normal incidence, from either side, and for every cosine that
    the clamp sends to 1 or -1, the reflectance is
    [((eta - 1) / (eta + 1))^2]. *)
Theorem Fresnel_at_normal_incidence (e r c : R) :
  0 < e -> 1 <= c \/ c <= -1 ->
  Dielectric.Fresnel (Dielectric.mk (Fin e) (Fin r)) (Fin c)
  = Fin ((e - 1) / (e + 1) * ((e - 1) / (e + 1))).
Proof.
  intros He Hc.
  rewrite Fresnel_clamped. unfold fclamp.
  destruct Hc as [Hc | Hc].
  - rewrite (fltb_Fin_false c (-1)) by lra.
    assert (Hcl : (if (Fin 1 <? Fin c)%fl then Fin 1 else Fin c) = Fin 1).
    { destruct (Rlt_dec 1 c) as [Hlt | Hge].
      - rewrite fltb_Fin_true by lra. reflexivity.
      - rewrite fltb_Fin_false by lra. f_equal. lra. }
    rewrite Hcl.
    destruct (Fresnel_Fin e r 1 e 1 He) as [_ Hval]; [lra | left; lra |].
    rewrite Rmult_1_r, Rminus_diag, sqrt_0, Rmult_0_r in Hval.
    rewrite Hval by lra.
    replace (1 - 0 * 0) with 1 by ring. rewrite sqrt_1, Rabs_R1.
    f_equal. field. lra.
  - assert (Hcl : (if (Fin c <? Fin (-1))%fl then Fin (-1)
                   else if (Fin 1 <? Fin c)%fl then Fin 1 else Fin c) = Fin (-1)).
    { destruct (Rlt_dec c (-1)) as [Hlt | Hge].
      - rewrite fltb_Fin_true by lra. reflexivity.
      - rewrite (fltb_Fin_false c (-1)), (fltb_Fin_false 1 c) by lra. f_equal. lra. }
    rewrite Hcl.
    destruct (Fresnel_Fin e r (-1) 1 e He) as [_ Hval]; [lra | right; lra |].
    replace (1 - -1 * -1) with 0 in Hval by ring.
    rewrite sqrt_0, Rmult_0_r in Hval.
    rewrite Hval by lra.
    replace (1 - 0 * 0) with 1 by ring. rewrite sqrt_1.
    replace (Rabs (-1)) with 1 by (rewrite Rabs_left; lra).
    f_equal. field. lra.
Qed.

(** The glass of the scene reflects 4 percent at normal incidence. *)
Lemma Fresnel_at_normal_incidence_witness :
  (0 < 3 / 2 /\ (1 <= 1 \/ 1 <= -1))
  /\ Dielectric.Fresnel BoxScene.Glass (Fin 1) = Fin (4 / 100).
Proof.
  assert (He : 0 < 3 / 2) by lra.
  assert (Hc : 1 <= 1 \/ 1 <= -1) by (left; lra).
  split; [split; assumption |].
  unfold BoxScene.Glass.
  rewrite (Fresnel_at_normal_incidence (3 / 2) (1 / 4) 1 He Hc). f_equal. lra.
Defined.

(** X7: at grazing incidence ([cos_thetaI = 0]) everything is reflected,
    whatever the index. *)
Theorem Fresnel_at_grazing_incidence (e r : R) :
  0 < e ->
  Dielectric.Fresnel (Dielectric.mk (Fin e) (Fin r)) (Fin 0) = Fin 1.
Proof.
  intros He.
  destruct (Fresnel_Fin e r 0 1 e He) as [Htir Hval]; [lra | right; lra |].
  replace (1 - 0 * 0) with 1 in Htir, Hval by ring.
  rewrite sqrt_1, Rmult_1_r in Htir, Hval.
  destruct (Rle_lt_dec 1 (1 / e)) as [Hge | Hlt].
  - apply Htir. exact Hge.
  - rewrite Hval by exact Hlt. rewrite Rabs_R0.
    assert (Hinv : 0 < 1 / e) by (apply Rdiv_lt_0_compat; lra).
    assert (Hct : 0 < sqrt (1 - 1 / e * (1 / e))) by (apply sqrt_lt_R0; nra).
    set (ct := sqrt (1 - 1 / e * (1 / e))) in *.
    f_equal. field. repeat split; lra.
Qed.

Lemma Fresnel_at_grazing_incidence_witness :
  0 < 3 / 2 /\ Dielectric.Fresnel BoxScene.Glass (Fin 0) = Fin 1.
Proof.
  assert (He : 0 < 3 / 2) by lra.
  split; [exact He |].
  exact (Fresnel_at_grazing_incidence (3 / 2) (1 / 4) He).
Defined.

(** X8: with [eta = 1] the two media match and nothing is reflected, for
    a cosine of magnitude between 0.1 and 1 (nearer to grazing the
    cancellation in [1 - cos^2] decides the result in binary32). *)
Theorem Fresnel_index_matched (r c : R) :
  1 / 10 <= c <= 1 \/ -1 <= c <= -1 / 10 ->
  Dielectric.Fresnel (Dielectric.mk (Fin 1) (Fin r)) (Fin c) = Fin 0.
Proof.
  intros Hreg.
  assert (Hc : -1 <= c <= 1) by lra.
  assert (Hnz : c <> 0) by lra.
  assert (Hside : (0 < c /\ 1 = 1 /\ 1 = 1) \/ (c <= 0 /\ 1 = 1 /\ 1 = 1)).
  { destruct (Rlt_dec 0 c); [left | right]; repeat split; lra. }
  destruct (Fresnel_Fin 1 r c 1 1 Rlt_0_1 Hc Hside) as [_ Hval].
  assert (Hcc : 0 < c * c) by (destruct (Rtotal_order c 0) as [H | [H | H]]; nra).
  assert (Hs : sqrt (1 - c * c) < 1).
  { rewrite <- sqrt_1 at 2. apply sqrt_lt_1_alt. nra. }
  assert (Hs0 : 0 <= sqrt (1 - c * c)) by apply sqrt_pos.
  assert (Hss : sqrt (1 - c * c) * sqrt (1 - c * c) = 1 - c * c)
    by (apply sqrt_sqrt; nra).
  replace (1 / 1 * sqrt (1 - c * c)) with (sqrt (1 - c * c)) in Hval by field.
  rewrite Hval by exact Hs.
  rewrite Hss.
  replace (1 - (1 - c * c)) with (c * c) by ring.
  replace (sqrt (c * c)) with (Rabs c).
  2: { symmetry. rewrite <- (sqrt_Rsqr_abs c). reflexivity. }
  assert (Ha : 0 < Rabs c) by (apply Rabs_pos_lt; exact Hnz).
  f_equal. field. lra.
Qed.

Lemma Fresnel_index_matched_witness :
  (1 / 10 <= 3 / 5 <= 1 \/ -1 <= 3 / 5 <= -1 / 10)
  /\ Dielectric.Fresnel (Dielectric.mk (Fin 1) (Fin (1 / 4))) (Fin (3 / 5)) = Fin 0.
Proof.
  assert (Hc : 1 / 10 <= 3 / 5 <= 1 \/ -1 <= 3 / 5 <= -1 / 10) by (left; lra).
  split; [exact Hc |].
  exact (Fresnel_index_matched (1 / 4) (3 / 5) Hc).
Defined.

(** In binary32, for the cosine [2^-14] the difference [1 - cos^2] rounds
    to 1, and [Fresnel] with [eta = 1] takes the return of the total
    internal reflection. *)
Lemma Fresnel_index_matched_in_binary32 :
  B32.Fresnel (B32.mk B32.one (B32.of_Z2 1 (-2))) (B32.of_Z2 1 (-14)) = B32.one.
Proof. vm_compute. reflexivity. Qed.

(** X9: seen from the other side, an interface of index [eta] reflects as
    an interface of index [1 / eta] seen from this side. *)
Theorem Fresnel_reversed (e r c : R) :
  0 < e -> 0 < c <= 1 ->
  Dielectric.Fresnel (Dielectric.mk (Fin e) (Fin r)) (Fin (- c))
  = Dielectric.Fresnel (Dielectric.mk (Fin (1 / e)) (Fin r)) (Fin c).
Proof.
  intros He Hc.
  assert (He' : 0 < 1 / e) by (apply Rdiv_lt_0_compat; lra).
  destruct (Fresnel_Fin e r (- c) 1 e He) as [Htir Hval]; [lra | right; lra |].
  destruct (Fresnel_Fin (1 / e) r c (1 / e) 1 He') as [Htir' Hval'];
    [lra | left; repeat split; lra |].
  replace (1 - - c * - c) with (1 - c * c) in Htir, Hval by ring.
  replace (1 / e / 1 * sqrt (1 - c * c)) with (1 / e * sqrt (1 - c * c))
    in Htir', Hval' by (field; lra).
  replace (Rabs (- c)) with (Rabs c) in Hval by (symmetry; apply Rabs_Ropp).
  set (t := 1 / e * sqrt (1 - c * c)) in *.
  destruct (Rle_lt_dec 1 t) as [Hge | Hlt].
  - rewrite Htir, Htir' by exact Hge. reflexivity.
  - rewrite Hval, Hval' by exact Hlt.
    assert (Hci : 0 < Rabs c) by (apply Rabs_pos_lt; lra).
    assert (Ht0 : 0 <= t).
    { unfold t. apply Rmult_le_pos; [lra | apply sqrt_pos]. }
    assert (Hct : 0 < sqrt (1 - t * t)) by (apply sqrt_lt_R0; nra).
    set (ci := Rabs c) in *. set (ct := sqrt (1 - t * t)) in *.
    assert (H1 : 0 < e * ci + 1 * ct) by nra.
    assert (H2 : 0 < 1 * ci + e * ct) by nra.
    assert (H3 : 0 < 1 * ci + 1 / e * ct).
    { assert (0 < 1 / e * ct) by (apply Rmult_lt_0_compat; lra). lra. }
    assert (H4 : 0 < 1 / e * ci + 1 * ct).
    { assert (0 < 1 / e * ci) by (apply Rmult_lt_0_compat; lra). lra. }
    f_equal. field. repeat split; lra.
Qed.

Lemma Fresnel_reversed_witness :
  (0 < 3 / 2 /\ 0 < 3 / 5 <= 1)
  /\ Dielectric.Fresnel BoxScene.Glass (Fin (- (3 / 5)))
     = Dielectric.Fresnel (Dielectric.mk (Fin (1 / (3 / 2))) (Fin (1 / 4))) (Fin (3 / 5)).
Proof.
  assert (He : 0 < 3 / 2) by lra.
  assert (Hc : 0 < 3 / 5 <= 1) by lra.
  split; [split; assumption |].
  exact (Fresnel_reversed (3 / 2) (1 / 4) (3 / 5) He Hc).
Defined.

(** ** Masking and the distribution of normals *)

(** The three cases of [G1] on finite arguments. *)
Lemma G1_Fin (e : float) (r a b c a' b' c' : R) :
  let side := (a * a' + b * b' + c * c') * c in
  let ts := (1 - c * c) / (c * c) in
  Dielectric.G1 (Dielectric.mk e (Fin r)) (fvec a b c) (fvec a' b' c')
  = if Rle_dec side 0 then Fin 0
    else if Rle_dec ts 0 then Fin 1
         else Fin (2 / (1 + sqrt (1 + r * sqrt ts * (r * sqrt ts)))).
Proof.
  intros side ts.
  unfold Dielectric.G1, fvec, dot. cbn [vx vy vz Dielectric.roughness fmul fadd].
  fold side. unfold fleb at 1.
  destruct (Rle_dec side 0) as [Hs | Hs]; [reflexivity |].
  assert (Hc : c <> 0) by (intros ->; unfold side in Hs; lra).
  assert (Hcc : 0 < c * c) by (destruct (Rtotal_order c 0) as [H | [H | H]]; nra).
  cbn [fsub fadd fopp]. rewrite fdiv_Fin by lra.
  replace ((1 + - (c * c)) / (c * c)) with ts by (unfold ts; field; lra).
  unfold fleb at 1.
  destruct (Rle_dec ts 0) as [Ht | Ht]; [reflexivity |].
  rewrite fsqrt_Fin by lra. cbn [fmul fadd].
  assert (Hin : 1 <= 1 + r * sqrt ts * (r * sqrt ts)) by nra.
  rewrite fsqrt_Fin by lra. cbn [fadd].
  assert (Hsq : 1 <= sqrt (1 + r * sqrt ts * (r * sqrt ts))).
  { rewrite <- sqrt_1 at 1. apply sqrt_le_1_alt. exact Hin. }
  rewrite fdiv_Fin by lra. reflexivity.
Qed.

(** X10: for a unit direction [w] with [|w.z| >= 0.001], a perfectly
    smooth surface masks nothing ([G1] is 1 whenever [w] lies on the same
    side of the microfacet [m] as of the surface), and [G1] never increases
    when the roughness grows, up to 1000. *)
Theorem G1_and_roughness (e : float) (a b c a' b' c' : R) :
  a * a + b * b + c * c = 1 -> clear_of_horizon (Fin c) ->
  (0 < (a * a' + b * b' + c * c') * c ->
   Dielectric.G1 (Dielectric.mk e (Fin 0)) (fvec a b c) (fvec a' b' c') = Fin 1)
  /\ (forall r1 r2 : R, 0 <= r1 <= r2 -> r2 <= 1000 ->
        (Dielectric.G1 (Dielectric.mk e (Fin r2)) (fvec a b c) (fvec a' b' c')
         <=? Dielectric.G1 (Dielectric.mk e (Fin r1)) (fvec a b c) (fvec a' b' c'))%fl
        = true).
Proof.
  intros _ _. split.
  - intros Hside. rewrite G1_Fin. cbv zeta.
    destruct (Rle_dec _ 0) as [H | _]; [lra |].
    destruct (Rle_dec _ 0) as [_ | _]; [reflexivity |].
    rewrite !Rmult_0_l, Rplus_0_r, sqrt_1. f_equal. lra.
  - intros r1 r2 [H1 H2] _. rewrite !G1_Fin. cbv zeta.
    destruct (Rle_dec _ 0) as [_ | _]; [apply fleb_Fin_true; lra |].
    destruct (Rle_dec _ 0) as [_ | Hts]; [apply fleb_Fin_true; lra |].
    set (ts := (1 - c * c) / (c * c)) in *.
    assert (Hs : 0 <= sqrt ts) by apply sqrt_pos.
    set (s := sqrt ts) in *.
    assert (Hle : 1 + r1 * s * (r1 * s) <= 1 + r2 * s * (r2 * s)).
    { assert (0 <= r1 * s) by (apply Rmult_le_pos; lra).
      assert (r1 * s <= r2 * s) by (apply Rmult_le_compat_r; lra). nra. }
    pose proof (sqrt_le_1_alt _ _ Hle) as Hsq.
    assert (Hone : 1 <= sqrt (1 + r1 * s * (r1 * s))).
    { rewrite <- sqrt_1 at 1. apply sqrt_le_1_alt. nra. }
    apply fleb_Fin_true.
    unfold Rdiv. apply Rmult_le_compat_l; [lra |].
    apply Rinv_le_contravar; lra.
Qed.

Lemma G1_and_roughness_witness :
  (0 * 0 + 3 / 5 * (3 / 5) + 4 / 5 * (4 / 5) = 1 /\ clear_of_horizon (Fin (4 / 5))
   /\ 0 < (0 * 0 + 3 / 5 * 0 + 4 / 5 * 1) * (4 / 5))
  /\ Dielectric.G1 (Dielectric.mk (Fin (3 / 2)) (Fin 0)) (fvec 0 (3 / 5) (4 / 5))
       (fvec 0 0 1) = Fin 1.
Proof.
  assert (Hu : 0 * 0 + 3 / 5 * (3 / 5) + 4 / 5 * (4 / 5) = 1) by lra.
  assert (Hcl : clear_of_horizon (Fin (4 / 5))) by (apply clear_of_horizon_pos; lra).
  assert (H : 0 < (0 * 0 + 3 / 5 * 0 + 4 / 5 * 1) * (4 / 5)) by lra.
  split; [repeat split; assumption |].
  exact (proj1 (G1_and_roughness (Fin (3 / 2)) 0 (3 / 5) (4 / 5) 0 0 1 Hu Hcl) H).
Defined.

(** X12: for a roughness [alpha] between 0.1 and 1 and a unit normal with
    [m.z >= 0.01], [D] is finite and has the closed form
    [alpha^2 * INV_PI / (1 - (1 - alpha^2) * m.z^2)^2]; at the shading normal
    it is [INV_PI / alpha^2], which for [alpha <= 0.9] bounds [D] at every
    normal with [m.z <= 0.99]. *)
Theorem D_closed_form (e : float) (r a b c : R) :
  1 / 10 <= r <= 1 -> 1 / 100 <= c -> a * a + b * b + c * c = 1 ->
  let d := Dielectric.mk e (Fin r) in
  let K := 31830989 / 100000000 in
  Dielectric.D d (fvec a b c)
  = Fin (r * r * K / ((1 - (1 - r * r) * (c * c)) * (1 - (1 - r * r) * (c * c))))
  /\ Dielectric.D d (fvec 0 0 1) = Fin (K / (r * r))
  /\ (r <= 9 / 10 -> c <= 99 / 100 ->
      (Dielectric.D d (fvec a b c) <=? Dielectric.D d (fvec 0 0 1))%fl = true).
Proof.
  intros Hreg Hc' Hu d K.
  assert (Hr : 0 < r) by lra.
  assert (Hc : 0 < c) by lra.
  assert (Hrr : 0 < r * r) by nra.
  assert (Hcc : 0 < c * c) by nra.
  assert (Hc1 : c * c <= 1) by nra.
  assert (Hval : forall x y z : R, 0 < z -> z * z <= 1 ->
            Dielectric.D d (fvec x y z)
            = Fin (r * r * K / ((1 - (1 - r * r) * (z * z)) * (1 - (1 - r * r) * (z * z))))).
  { intros x y z Hz Hz1.
    assert (Hzz : 0 < z * z) by nra.
    unfold Dielectric.D, d, fvec. cbn [vz Dielectric.roughness].
    rewrite (fltb_Fin_false z 0) by lra.
    cbn [fmul fsub fadd fopp INV_PI].
    rewrite (fdiv_Fin _ (z * z)) by lra. cbn [fmul fadd].
    assert (Hq : 0 < 1 - (1 - r * r) * (z * z)) by nra.
    assert (Hden : z * z * (z * z) * (r * r + (1 + - (z * z)) / (z * z))
                   * (r * r + (1 + - (z * z)) / (z * z))
                   = (1 - (1 - r * r) * (z * z)) * (1 - (1 - r * r) * (z * z)))
      by (field; lra).
    rewrite Hden. rewrite fdiv_Fin by nra. reflexivity. }
  assert (H1 : Dielectric.D d (fvec a b c)
               = Fin (r * r * K / ((1 - (1 - r * r) * (c * c))
                                   * (1 - (1 - r * r) * (c * c)))))
    by (apply Hval; lra).
  assert (H2 : Dielectric.D d (fvec 0 0 1) = Fin (K / (r * r))).
  { rewrite (Hval 0 0 1) by lra. f_equal. field. lra. }
  split; [exact H1 |]. split; [exact H2 |].
  intros Hr1' _. assert (Hr1 : r <= 1) by lra.
  rewrite H1, H2. apply fleb_Fin_true.
  set (q := 1 - (1 - r * r) * (c * c)).
  assert (Hr2 : r * r <= 1) by nra.
  assert (Hprod : 0 <= (1 - c * c) * (1 - r * r)) by (apply Rmult_le_pos; lra).
  assert (Hq : r * r <= q) by (unfold q; lra).
  assert (HK : 0 < K) by (unfold K; lra).
  assert (Hqq : 0 < q * q) by nra.
  apply Rmult_le_reg_r with (q * q * (r * r)); [nra |].
  replace (r * r * K / (q * q) * (q * q * (r * r))) with (K * (r * r * (r * r)))
    by (field; lra).
  replace (K / (r * r) * (q * q * (r * r))) with (K * (q * q)) by (field; lra).
  apply Rmult_le_compat_l; [lra | nra].
Qed.

Lemma D_closed_form_witness :
  (1 / 10 <= 1 / 4 <= 1 /\ 1 / 100 <= 1 /\ 0 * 0 + 0 * 0 + 1 * 1 = 1)
  /\ Dielectric.D BoxScene.Glass (fvec 0 0 1)
     = Fin (31830989 / 100000000 / (1 / 4 * (1 / 4))).
Proof.
  assert (Hr : 1 / 10 <= 1 / 4 <= 1) by lra.
  assert (Hc : 1 / 100 <= 1) by lra.
  assert (Hu : 0 * 0 + 0 * 0 + 1 * 1 = 1) by lra.
  split; [repeat split; try assumption; lra |].
  exact (proj1 (proj2 (D_closed_form (Fin (3 / 2)) (1 / 4) 0 0 1 Hr Hc Hu))).
Defined.

(** X13: for a roughness between 0.001 and 1000 and a unit normal with
    [|m.z| >= 0.001], the pdf of the normal is finite and not negative, and
    it is zero below the horizon. *)
Theorem pdf_nonnegative (e : float) (r a b c : R) :
  moderate_roughness r -> clear_of_horizon (Fin c) -> a * a + b * b + c * c = 1 ->
  let d := Dielectric.mk e (Fin r) in
  (Fin 0 <=? Dielectric.pdf d (fvec a b c))%fl = true
  /\ (c < 0 -> Dielectric.pdf d (fvec a b c) = Fin 0).
Proof.
  intros [Hr' _] Hcl Hu d.
  assert (Hr : 0 < r) by lra.
  assert (Hc : c <> 0).
  { apply clear_of_horizon_Fin in Hcl. intros ->. rewrite Rabs_R0 in Hcl. lra. }
  unfold Dielectric.pdf.
  destruct (Rlt_dec c 0) as [Hneg | Hpos].
  - assert (HD : Dielectric.D d (fvec a b c) = Fin 0).
    { apply D_below_horizon. unfold fvec. cbn [vz]. apply fltb_Fin_true. exact Hneg. }
    rewrite HD. unfold fvec. cbn [vz fmul]. rewrite Rmult_0_l.
    split; [apply fleb_Fin_true; lra | reflexivity].
  - assert (Hc0 : 0 < c) by lra.
    destruct (D_above_horizon e r a b c Hc0 Hu) as (v & Hv & Hv0); [left; nra |].
    fold d in Hv. rewrite Hv. unfold fvec. cbn [vz fmul].
    split; [apply fleb_Fin_true; nra | intros H; lra].
Qed.

Lemma pdf_nonnegative_witness :
  (moderate_roughness (1 / 4) /\ clear_of_horizon (Fin (-1))
   /\ 0 * 0 + 0 * 0 + -1 * -1 = 1)
  /\ Dielectric.pdf BoxScene.Glass (fvec 0 0 (-1)) = Fin 0.
Proof.
  assert (Hr : moderate_roughness (1 / 4)) by (unfold moderate_roughness; lra).
  assert (Hc : clear_of_horizon (Fin (-1))) by (apply clear_of_horizon_neg; lra).
  assert (Hu : 0 * 0 + 0 * 0 + -1 * -1 = 1) by lra.
  split; [split; [exact Hr | split; [exact Hc | exact Hu]] |].
  apply (proj2 (pdf_nonnegative (Fin (3 / 2)) (1 / 4) 0 0 (-1) Hr Hc Hu)). lra.
Defined.

(** ** The value of [eval] on the reflection branch *)

(** The half vector of the reflection branch is a unit vector above the
    horizon. *)
Lemma half_vector_unit (a b c a' b' c' k : R) :
  (k = 1 \/ k = -1) -> 0 < (c' + c) * k ->
  let L := sqrt ((a' + a) * (a' + a) + (b' + b) * (b' + b) + (c' + c) * (c' + c)) in
  0 < (c' + c) / L * k
  /\ (a' + a) / L * k * ((a' + a) / L * k) + (b' + b) / L * k * ((b' + b) / L * k)
     + (c' + c) / L * k * ((c' + c) / L * k) = 1.
Proof.
  intros Hk Hz L.
  assert (Hne : c' + c <> 0) by (intros H; rewrite H in Hz; lra).
  assert (Hzz : 0 < (c' + c) * (c' + c))
    by (destruct (Rtotal_order (c' + c) 0) as [H | [H | H]]; [nra | contradiction | nra]).
  assert (Hq : 0 < (a' + a) * (a' + a) + (b' + b) * (b' + b) + (c' + c) * (c' + c)).
  { pose proof (Rle_0_sqr (a' + a)) as Hx. pose proof (Rle_0_sqr (b' + b)) as Hy.
    unfold Rsqr in Hx, Hy. lra. }
  assert (HL : 0 < L) by (apply sqrt_lt_R0; exact Hq).
  assert (HLL : L * L = (a' + a) * (a' + a) + (b' + b) * (b' + b) + (c' + c) * (c' + c))
    by (apply sqrt_sqrt; lra).
  assert (Hkk : k * k = 1) by (destruct Hk as [-> | ->]; ring).
  split.
  - replace ((c' + c) / L * k) with ((c' + c) * k * / L) by (field; lra).
    apply Rmult_lt_0_compat; [exact Hz | apply Rinv_0_lt_compat; exact HL].
  - apply Rmult_eq_reg_r with (L * L); [| nra].
    replace (((a' + a) / L * k * ((a' + a) / L * k) + (b' + b) / L * k * ((b' + b) / L * k)
              + (c' + c) / L * k * ((c' + c) / L * k)) * (L * L))
      with (k * k * ((a' + a) * (a' + a) + (b' + b) * (b' + b) + (c' + c) * (c' + c)))
      by (field; lra).
    rewrite Hkk, HLL. ring.
Qed.

Lemma eval_local_reflect_nonneg (e r a b c a' b' c' : R) :
  0 < e -> 0 < r ->
  a * a + b * b + c * c = 1 -> a' * a' + b' * b' + c' * c' = 1 ->
  0 < c' * c ->
  exists v, eval_local (Dielectric.mk (Fin e) (Fin r)) (fvec a b c) (fvec a' b' c') = Fin v
            /\ 0 <= v.
Proof.
  intros He Hr Hu Hu' Hcc.
  set (d := Dielectric.mk (Fin e) (Fin r)).
  assert (Hsum : c' + c <> 0) by nra.
  unfold eval_local. cbn [vz fvec fmul]. unfold fgtb.
  rewrite (fltb_Fin_true 0 (c' * c)) by lra.
  change (mkVec3f (Fin a) (Fin b) (Fin c)) with (fvec a b c).
  change (mkVec3f (Fin a') (Fin b') (Fin c')) with (fvec a' b' c').
  assert (Hmain : forall (k s : R),
             (k = 1 \/ k = -1) -> 0 < (c' + c) * k -> 0 < c * s -> 0 < c' * s ->
             exists v,
               (Dielectric.Fresnel d
                  (dot (fvec (a' * s) (b' * s) (c' * s))
                       (vscale (normalize (vadd (fvec a' b' c') (fvec a b c))) (Fin k)))
                * Dielectric.D d
                    (vscale (normalize (vadd (fvec a' b' c') (fvec a b c))) (Fin k))
                * Dielectric.G d (fvec (a * s) (b * s) (c * s))
                    (fvec (a' * s) (b' * s) (c' * s))
                    (vscale (normalize (vadd (fvec a' b' c') (fvec a b c))) (Fin k))
                / (Fin 4 * Fin (c' * s) * Fin (c * s)))%fl = Fin v /\ 0 <= v).
  { intros k s Hk Hz Hcs Hcs'.
    rewrite (half_vector_Fin a b c a' b' c' k Hsum). cbv zeta.
    destruct (half_vector_unit a b c a' b' c' k Hk Hz) as [Hhz Hhu].
    set (L := sqrt _) in *.
    rewrite dot_fvec.
    destruct (Fresnel_range e r
                (a' * s * ((a' + a) / L * k) + b' * s * ((b' + b) / L * k)
                 + c' * s * ((c' + c) / L * k)) He) as (f & Hf & Hf01).
    fold d in Hf. rewrite Hf.
    destruct (D_above_horizon (Fin e) r _ _ _ Hhz Hhu) as (dv & Hd & Hd0);
      [left; nra |].
    fold d in Hd. rewrite Hd.
    unfold Dielectric.G.
    destruct (G1_range (Fin e) r (a * s) (b * s) (c * s)
                ((a' + a) / L * k) ((b' + b) / L * k) ((c' + c) / L * k))
      as (g1 & Hg1 & Hg101).
    destruct (G1_range (Fin e) r (a' * s) (b' * s) (c' * s)
                ((a' + a) / L * k) ((b' + b) / L * k) ((c' + c) / L * k))
      as (g2 & Hg2 & Hg201).
    fold d in Hg1, Hg2. rewrite Hg1, Hg2. cbn [fmul].
    assert (Hden : 0 < 4 * (c' * s) * (c * s)) by nra.
    rewrite fdiv_Fin by lra.
    eexists. split; [reflexivity |].
    apply Rmult_le_pos; [| apply Rlt_le, Rinv_0_lt_compat; exact Hden].
    apply Rmult_le_pos; [apply Rmult_le_pos; lra | nra]. }
  destruct (Rlt_dec 0 c) as [Hpos | Hneg].
  - assert (Hpos' : 0 < c') by nra.
    rewrite (fltb_Fin_true 0 c') by lra.
    rewrite (fltb_Fin_false c 0), (fltb_Fin_false c' 0) by lra.
    destruct (Hmain 1 1) as (v & Hv & Hv0); [left; reflexivity | lra | lra | lra |].
    exists v. split; [| exact Hv0]. rewrite <- Hv.
    replace (fvec (a' * 1) (b' * 1) (c' * 1)) with (fvec a' b' c') by fin_eq.
    replace (fvec (a * 1) (b * 1) (c * 1)) with (fvec a b c) by fin_eq.
    cbn [vz fvec].
    replace (c' * 1) with c' by ring. replace (c * 1) with c by ring. reflexivity.
  - assert (Hneg1 : c < 0) by nra.
    assert (Hneg' : c' < 0) by nra.
    rewrite (fltb_Fin_false 0 c') by lra.
    rewrite (fltb_Fin_true c 0), (fltb_Fin_true c' 0) by lra.
    destruct (Hmain (-1) (-1)) as (v & Hv & Hv0);
      [right; reflexivity | lra | lra | lra |].
    exists v. split; [| exact Hv0]. rewrite <- Hv. reflexivity.
Qed.



(** ** The value of [Dielectric::sample] *)

Lemma sample_normal_unit (e : float) (r u1 u2 : R) :
  0 <= u1 < 1 ->
  exists mx my mz,
    fst (Dielectric.sample_normal (Dielectric.mk e (Fin r)) (mkVec2f (Fin u1) (Fin u2)))
    = fvec mx my mz
    /\ mx * mx + my * my + mz * mz = 1 /\ 0 < mz.
Proof.
  intros Hu1. pose proof (sample_normal_Fin e r u1 u2 Hu1) as H. cbv zeta in H.
  set (theta := atan (r * sqrt u1 / sqrt (1 - u1))) in *.
  set (phi := 2 * (3141592653589 / 1000000000000) * u2) in *.
  exists (sin theta * sin phi), (sin theta * cos phi), (cos theta).
  split; [exact H |]. split; [| apply cos_atan_pos].
  pose proof (sin2_cos2 phi) as Hp. pose proof (sin2_cos2 theta) as Ht.
  unfold Rsqr in Hp, Ht.
  replace (sin theta * sin phi * (sin theta * sin phi)
           + sin theta * cos phi * (sin theta * cos phi) + cos theta * cos theta)
    with (sin theta * sin theta * (sin phi * sin phi + cos phi * cos phi)
          + cos theta * cos theta) by ring.
  rewrite Hp. lra.
Qed.

Lemma sample_value (e r ox oy oz nx ny nz u0 u1 u2 : R) :
  0 < e -> nx * nx + ny * ny + nz * nz = 1 -> 0 < ox * ox + oy * oy + oz * oz ->
  0 <= u1 < 1 ->
  let d := Dielectric.mk (Fin e) (Fin r) in
  let n := fvec nx ny nz in
  exists a b c mx my mz f,
    normalize (to_local (fvec ox oy oz) n) = fvec a b c
    /\ a * a + b * b + c * c = 1
    /\ c * sqrt (ox * ox + oy * oy + oz * oz) = ox * nx + oy * ny + oz * nz
    /\ fst (Dielectric.sample_normal d (mkVec2f (Fin u1) (Fin u2))) = fvec mx my mz
    /\ mx * mx + my * my + mz * mz = 1
    /\ Dielectric.Fresnel d (Fin (a * mx + b * my + c * mz)) = Fin f
    /\ 0 <= f <= 1
    /\ let k := a * mx + b * my + c * mz in
       let eta_eff := if Rlt_dec 0 c then e else 1 / e in
       let s := eta_eff * eta_eff * (1 - k * k) in
       let ct := if Rlt_dec 0 c then - sqrt (1 - s) else sqrt (1 - s) in
       let L := sqrt (eta_eff * a * (eta_eff * a) + eta_eff * b * (eta_eff * b) + ct * ct) in
       Dielectric.sample d (fvec ox oy oz) n (mkVec3f (Fin u0) (Fin u1) (Fin u2))
       = if Rlt_dec u0 f
         then (from_local (fvec (2 * k * mx - a) (2 * k * my - b) (2 * k * mz - c)) n,
               Fin f)
         else if Rle_dec 1 s then (vzero, Fin 0)
              else (from_local (fvec (- (eta_eff * a) / L) (- (eta_eff * b) / L) (ct / L)) n,
                    Fin (1 - f)).
Proof.
  intros He Hu Hq Hu1 d n.
  destruct (local_dir_unit ox oy oz nx ny nz Hu Hq) as (a & b & c & Hwo & Huo & Hc).
  destruct (sample_normal_unit (Fin e) r u1 u2 Hu1) as (mx & my & mz & Hm & Hum & _).
  destruct (Fresnel_range e r (a * mx + b * my + c * mz) He) as (f & HF & Hf).
  exists a, b, c, mx, my, mz, f.
  repeat (split; [assumption |]).
  intros k eta_eff s ct L.
  pose proof (Dielectric_sample_eq d (fvec ox oy oz) n (mkVec3f (Fin u0) (Fin u1) (Fin u2)))
    as Hs.
  cbv zeta in Hs. cbn [vx vy vz] in Hs. subst d n.
  rewrite Hs. clear Hs. rewrite Hwo, Hm, dot_fvec. fold k. fold k in HF. rewrite HF.
  destruct (Rlt_dec u0 f) as [Hlt | Hge].
  - rewrite (fltb_Fin_true u0 f Hlt).
    rewrite vneg_fvec, mirror_reflect_fvec.
    replace (- a - 2 * (- a * mx + - b * my + - c * mz) * mx) with (2 * k * mx - a)
      by (unfold k; ring).
    replace (- b - 2 * (- a * mx + - b * my + - c * mz) * my) with (2 * k * my - b)
      by (unfold k; ring).
    replace (- c - 2 * (- a * mx + - b * my + - c * mz) * mz) with (2 * k * mz - c)
      by (unfold k; ring).
    rewrite normalize_unit; [reflexivity |].
    unfold k. nsatz.
  - rewrite (fltb_Fin_false u0 f) by lra.
    change (vx (fvec a b c)) with (Fin a). change (vy (fvec a b c)) with (Fin b).
    change (vz (fvec a b c)) with (Fin c). unfold fgtb, fgeb.
    assert (Hrest : forall (g : bool) (eta : R),
               0 < eta -> g = (if Rlt_dec 0 c then true else false) ->
               eta = eta_eff ->
               (if (Fin 1 <=? Fin eta * Fin eta * (Fin 1 - Fin k * Fin k))%fl
                then (vzero, Fin 0)
                else (from_local
                        (normalize
                           (mkVec3f (Fin eta * - Fin a)%fl (Fin eta * - Fin b)%fl
                              (if g
                               then (fsqrt (Fin 1 - Fin eta * Fin eta
                                                    * (Fin 1 - Fin k * Fin k))
                                     * Fin (-1))%fl
                               else fsqrt (Fin 1 - Fin eta * Fin eta
                                                   * (Fin 1 - Fin k * Fin k))%fl)))
                        (fvec nx ny nz), (Fin 1 - Fin f)%fl))
               = (if Rle_dec 1 s then (vzero, Fin 0)
                  else (from_local (fvec (- (eta_eff * a) / L) (- (eta_eff * b) / L) (ct / L))
                          (fvec nx ny nz), Fin (1 - f)))).
    { intros g eta Heta Hg Heq. cbn [fmul fsub fadd fopp].
      replace (eta * eta * (1 + - (k * k))) with s by (unfold s; rewrite Heq; ring).
      destruct (Rle_dec 1 s) as [Hs1 | Hs1].
      - rewrite (fleb_Fin_true 1 s Hs1). reflexivity.
      - rewrite (fleb_Fin_false 1 s) by lra.
        replace (1 + - s) with (1 - s) by ring.
        rewrite fsqrt_Fin by lra.
        assert (Hsq : 0 < sqrt (1 - s)) by (apply sqrt_lt_R0; lra).
        assert (Hct : (if g then (Fin (sqrt (1 - s)) * Fin (-1))%fl
                       else Fin (sqrt (1 - s))) = Fin ct).
        { subst g. unfold ct. destruct (Rlt_dec 0 c); cbn [fmul]; f_equal; ring. }
        rewrite Hct.
        assert (Hctct : ct * ct = 1 - s).
        { unfold ct. destruct (Rlt_dec 0 c).
          - replace (- sqrt (1 - s) * - sqrt (1 - s)) with (sqrt (1 - s) * sqrt (1 - s))
              by ring. apply sqrt_sqrt. lra.
          - apply sqrt_sqrt. lra. }
        change (mkVec3f (Fin (eta * - a)) (Fin (eta * - b)) (Fin ct))
          with (fvec (eta * - a) (eta * - b) ct).
        assert (Hpos : 0 < eta * - a * (eta * - a) + eta * - b * (eta * - b) + ct * ct).
        { pose proof (Rle_0_sqr (eta * - a)) as H1.
          pose proof (Rle_0_sqr (eta * - b)) as H2. unfold Rsqr in H1, H2. lra. }
        destruct (normalize_nonzero _ _ _ Hpos) as (_ & _ & ->).
        replace (eta * - a * (eta * - a) + eta * - b * (eta * - b) + ct * ct)
          with (eta_eff * a * (eta_eff * a) + eta_eff * b * (eta_eff * b) + ct * ct)
          by (rewrite Heq; ring).
        fold L. rewrite Heq.
        replace (eta_eff * - a / L) with (- (eta_eff * a) / L) by (unfold Rdiv; ring).
        replace (eta_eff * - b / L) with (- (eta_eff * b) / L) by (unfold Rdiv; ring).
        replace (1 + - f) with (1 - f) by ring. reflexivity. }
    cbn [Dielectric.eta].
    destruct (Rlt_dec 0 c) as [Hpos | Hneg].
    + rewrite !(fltb_Fin_true 0 c Hpos). cbv iota. rewrite !fdiv_Fin by lra.
      apply (Hrest true (e / 1)); [lra | reflexivity | unfold eta_eff; field].
    + rewrite !(fltb_Fin_false 0 c) by lra. cbv iota. rewrite !fdiv_Fin by lra.
      apply (Hrest false (1 / e));
        [apply Rdiv_lt_0_compat; lra | reflexivity | reflexivity].
Qed.







(** ** The refracted direction of [Dielectric::sample] *)

(** The thin dielectric, the normal [n = (0,0,1)] and the randoms
    [(1/2, 16/25, 0)], which give the microfacet normal [(0, 4/5, 3/5)]: for
    a unit direction [wo] above the surface whose cosine with that normal
    is [3/5], [sample] refracts. *)
Lemma thin_sample (a b c : R) :
  a * a + b * b + c * c = 1 -> 0 < c -> b * (4 / 5) + c * (3 / 5) = 3 / 5 ->
  let L := sqrt (3 / 4 * a * (3 / 4 * a) + 3 / 4 * b * (3 / 4 * b) + 16 / 25) in
  Dielectric.sample Demo.thin (fvec a b c) (fvec 0 0 1)
    (mkVec3f (Fin (1 / 2)) (Fin (16 / 25)) (Fin 0))
  = (fvec (- (3 / 4 * a) / L) (- (3 / 4 * b) / L) (- (4 / 5) / L), Fin (1201 / 1250)).
Proof.
  intros Hu Hc Hk L.
  assert (Hn : 0 * 0 + 0 * 0 + 1 * 1 = 1) by lra.
  assert (Hq : 0 < a * a + b * b + c * c) by lra.
  assert (Hu1 : 0 <= 16 / 25 < 1) by lra.
  assert (He : 0 < 3 / 4) by lra.
  destruct (sample_value (3 / 4) 1 a b c 0 0 1 (1 / 2) (16 / 25) 0 He Hn Hq Hu1)
    as (a' & b' & c' & mx & my & mz & f & Hwo & _ & _ & Hm & _ & HF & _ & Hs).
  rewrite local_dir_z in Hwo by exact Hu.
  injection Hwo as <- <- <-.
  change (Dielectric.mk (Fin (3 / 4)) (Fin 1)) with Demo.thin in *.
  rewrite thin_normal in Hm. injection Hm as <- <- <-.
  replace (a * 0 + b * (4 / 5) + c * (3 / 5)) with (3 / 5) in * by lra.
  rewrite thin_Fresnel in HF. injection HF as <-.
  cbv zeta in Hs. rewrite Hs. clear Hs.
  destruct (Rlt_dec (1 / 2) (49 / 1250)) as [H | _]; [exfalso; lra |].
  destruct (Rlt_dec 0 c) as [_ | H]; [| contradiction].
  replace (3 / 4 * (3 / 4) * (1 - 3 / 5 * (3 / 5))) with (9 / 25) by field.
  destruct (Rle_dec 1 (9 / 25)) as [H | _]; [exfalso; lra |].
  replace (1 - 9 / 25) with (16 / 25) by field.
  replace (sqrt (16 / 25)) with (4 / 5) by (symmetry; apply sqrt_lem_1; lra).
  replace (- (4 / 5) * - (4 / 5)) with (16 / 25) by field.
  fold L. rewrite from_local_z.
  replace (1 - 49 / 1250) with (1201 / 1250) by field. reflexivity.
Qed.

(** C3: for a dielectric with [eta > 0], a unit normal, a non-zero finite
    [wo_world] and [0 <= u.y < 1], [sample] takes [m] from [sample_normal]
    and [F = Fresnel(dot(wo, m))]; when [u.x < F] it returns, with the
    scalar [F], the unit direction that is the mirror image of [wo] about
    [m] ([wi + wo = 2 (wo . m) m] in the local frame); otherwise it returns
    the null sample or the scalar [1 - F].  But the refracted direction is
    not the one of Snell's law.  For the thin dielectric (index 3/4), the
    normal [n = (0,0,1)] and the randoms [(1/2, 16/25, 0)] the microfacet
    normal is [m = (0, 4/5, 3/5)]; with [wo = n] the ray is returned unbent,
    [(0,0,-1)], where refraction through [m] gives [(0, -7/25, -24/25)];
    with [wo = (4/5, 12/25, 9/25)] the direction returned is
    [(-3/5, -9/25, -4/5) / L] with [L^2 = 706/625], which is the refraction
    neither through [m] nor through [n]. *)
Theorem Dielectric_sample_mirror_but_not_snell :
  (forall (e r ox oy oz nx ny nz u0 u1 u2 : R),
      0 < e -> nx * nx + ny * ny + nz * nz = 1 -> 0 < ox * ox + oy * oy + oz * oz ->
      0 <= u1 < 1 ->
      let d := Dielectric.mk (Fin e) (Fin r) in
      let n := fvec nx ny nz in
      let wo := normalize (to_local (fvec ox oy oz) n) in
      let m := fst (Dielectric.sample_normal d (mkVec2f (Fin u1) (Fin u2))) in
      let F := Dielectric.Fresnel d (dot wo m) in
      let res := Dielectric.sample d (fvec ox oy oz) n
                   (mkVec3f (Fin u0) (Fin u1) (Fin u2)) in
      ((Fin u0 <? F)%fl = true ->
       snd res = F /\ unit_vec (fst res)
       /\ vadd (to_local (fst res) n) wo = smul (Fin 2 * dot wo m)%fl m)
      /\ ((Fin u0 <? F)%fl = false ->
          res = (vzero, Fin 0) \/ snd res = (Fin 1 - F)%fl))
  /\ (let n := fvec 0 0 1 in
      let m := fvec 0 (4 / 5) (3 / 5) in
      let u := mkVec3f (Fin (1 / 2)) (Fin (16 / 25)) (Fin 0) in
      let wo := fvec (4 / 5) (12 / 25) (9 / 25) in
      fst (Dielectric.sample_normal Demo.thin (mkVec2f (vy u) (vz u))) = m
      /\ Dielectric.sample Demo.thin n n u = (fvec 0 0 (-1), Fin (1201 / 1250))
      /\ snell_refract (Fin (3 / 4)) n m = fvec 0 (-7 / 25) (-24 / 25)
      /\ (exists L : R,
            L * L = 706 / 625
            /\ Dielectric.sample Demo.thin wo n u
               = (fvec (- (3 / 5) / L) (- (9 / 25) / L) (- (4 / 5) / L),
                  Fin (1201 / 1250)))
      /\ snell_refract (Fin (3 / 4)) wo m = fvec (-3 / 5) (-16 / 25) (-12 / 25)
      /\ fst (Dielectric.sample Demo.thin wo n u) <> snell_refract (Fin (3 / 4)) wo m
      /\ fst (Dielectric.sample Demo.thin wo n u) <> snell_refract (Fin (3 / 4)) wo n).
Proof.
  split.
  { intros e r ox oy oz nx ny nz u0 u1 u2 He Hu Hq Hu1 d n wo m F res.
    subst res F wo m d n.
    destruct (sample_value e r ox oy oz nx ny nz u0 u1 u2 He Hu Hq Hu1)
      as (a & b & c & mx & my & mz & f & Hwo & Huo & Hc & Hm & Hum & HF & Hf & Hs).
    cbv zeta in Hs. rewrite Hs. clear Hs.
    rewrite Hwo, Hm, dot_fvec, HF.
    set (k := a * mx + b * my + c * mz).
    split.
    - intros HF0. apply fltb_Fin_inv in HF0.
      destruct (Rlt_dec u0 f) as [_ | Hge]; [| contradiction]. cbn [fst snd].
      split; [reflexivity |]. split.
      + destruct (from_local_frame (2 * k * mx - a) (2 * k * my - b) (2 * k * mz - c)
                    nx ny nz Hu) as (x & y & z & -> & _ & Hlen).
        exists x, y, z. split; [reflexivity |]. rewrite Hlen. unfold k. nsatz.
      + rewrite to_from_local by exact Hu.
        unfold vadd, smul, fvec. cbn [vx vy vz fmul fadd].
        apply (f_equal3 mkVec3f); f_equal; ring.
    - intros HF0. apply fltb_Fin_inv_false in HF0.
      destruct (Rlt_dec u0 f) as [Hlt | _]; [exfalso; lra |].
      destruct (Rle_dec 1 _) as [_ | _]; [left; reflexivity | right].
      cbn [snd fsub fadd fopp]. f_equal. }
  intros n m u wo. subst n m u wo. cbn [vy vz].
  assert (Hu : 4 / 5 * (4 / 5) + 12 / 25 * (12 / 25) + 9 / 25 * (9 / 25) = 1) by lra.
  assert (Hs2 : Dielectric.sample Demo.thin (fvec (4 / 5) (12 / 25) (9 / 25)) (fvec 0 0 1)
                  (mkVec3f (Fin (1 / 2)) (Fin (16 / 25)) (Fin 0))
                = (fvec (- (3 / 5) / sqrt (706 / 625)) (- (9 / 25) / sqrt (706 / 625))
                        (- (4 / 5) / sqrt (706 / 625)), Fin (1201 / 1250))).
  { rewrite (thin_sample (4 / 5) (12 / 25) (9 / 25)) by lra. cbv zeta.
    replace (3 / 4 * (4 / 5) * (3 / 4 * (4 / 5)) + 3 / 4 * (12 / 25) * (3 / 4 * (12 / 25))
             + 16 / 25) with (706 / 625) by field.
    replace (3 / 4 * (4 / 5)) with (3 / 5) by field.
    replace (3 / 4 * (12 / 25)) with (9 / 25) by field. reflexivity. }
  assert (HL : sqrt (706 / 625) * sqrt (706 / 625) = 706 / 625) by (apply sqrt_sqrt; lra).
  assert (HL1 : sqrt (706 / 625) <> 1) by (intros E; rewrite E in HL; lra).
  assert (HL0 : 0 < sqrt (706 / 625)) by (apply sqrt_lt_R0; lra).
  assert (Hx : - (3 / 5) / sqrt (706 / 625) <> -3 / 5).
  { intros E. apply HL1.
    assert (E' : - (3 / 5) = -3 / 5 * sqrt (706 / 625)).
    { rewrite <- E. field. lra. }
    lra. }
  split; [exact thin_normal |].
  split.
  { rewrite (thin_sample 0 0 1) by lra. cbv zeta.
    replace (3 / 4 * 0 * (3 / 4 * 0) + 3 / 4 * 0 * (3 / 4 * 0) + 16 / 25) with (16 / 25)
      by field.
    replace (sqrt (16 / 25)) with (4 / 5) by (symmetry; apply sqrt_lem_1; lra).
    fin_eq. }
  assert (Hm1 : snell_refract (Fin (3 / 4)) (fvec 0 0 1) (fvec 0 (4 / 5) (3 / 5))
                = fvec 0 (-7 / 25) (-24 / 25)).
  { unfold snell_refract. rewrite dot_fvec.
    replace (0 * 0 + 0 * (4 / 5) + 1 * (3 / 5)) with (3 / 5) by field.
    unfold fgtb. rewrite (fltb_Fin_true 0 (3 / 5)) by lra.
    cbn [fmul fsub fadd fopp].
    replace (1 + - (3 / 4 * (3 / 4) * (1 + - (3 / 5 * (3 / 5))))) with (16 / 25) by field.
    rewrite fsqrt_Fin by lra.
    replace (sqrt (16 / 25)) with (4 / 5) by (symmetry; apply sqrt_lem_1; lra).
    unfold vadd, smul, fvec. cbn [vx vy vz fmul fadd fopp]. fin_eq. }
  assert (Hm2 : snell_refract (Fin (3 / 4)) (fvec (4 / 5) (12 / 25) (9 / 25))
                  (fvec 0 (4 / 5) (3 / 5))
                = fvec (-3 / 5) (-16 / 25) (-12 / 25)).
  { unfold snell_refract. rewrite dot_fvec.
    replace (4 / 5 * 0 + 12 / 25 * (4 / 5) + 9 / 25 * (3 / 5)) with (3 / 5) by field.
    unfold fgtb. rewrite (fltb_Fin_true 0 (3 / 5)) by lra.
    cbn [fmul fsub fadd fopp].
    replace (1 + - (3 / 4 * (3 / 4) * (1 + - (3 / 5 * (3 / 5))))) with (16 / 25) by field.
    rewrite fsqrt_Fin by lra.
    replace (sqrt (16 / 25)) with (4 / 5) by (symmetry; apply sqrt_lem_1; lra).
    unfold vadd, smul, fvec. cbn [vx vy vz fmul fadd fopp]. fin_eq. }
  split; [exact Hm1 |].
  split; [exists (sqrt (706 / 625)); split; [exact HL | exact Hs2] |].
  split; [exact Hm2 |].
  rewrite Hs2, Hm2. cbn [fst]. split.
  - intros E. injection E as E _ _. exact (Hx E).
  - unfold snell_refract. rewrite dot_fvec.
    replace (4 / 5 * 0 + 12 / 25 * 0 + 9 / 25 * 1) with (9 / 25) by field.
    unfold fgtb. rewrite (fltb_Fin_true 0 (9 / 25)) by lra.
    cbn [fmul fsub fadd fopp].
    assert (Hpos : 0 <= 1 + - (3 / 4 * (3 / 4) * (1 + - (9 / 25 * (9 / 25))))) by lra.
    rewrite fsqrt_Fin by exact Hpos.
    unfold vadd, smul, fvec. cbn [vx vy vz fmul fadd fopp].
    intros E. injection E as E _ _. apply Hx. rewrite E. field.
Qed.

(** The glass of the scene seen along the normal: [F = 1/25], and
    [u.x = 0] reflects. *)
Lemma Dielectric_sample_mirror_but_not_snell_witness :
  (0 < 3 / 2 /\ 0 * 0 + 0 * 0 + 1 * 1 = 1 /\ 0 < 0 * 0 + 0 * 0 + 1 * 1 /\ 0 <= 0 < 1
   /\ (Fin 0 <? Dielectric.Fresnel BoxScene.Glass
                  (dot (normalize (to_local (fvec 0 0 1) (fvec 0 0 1)))
                       (fst (Dielectric.sample_normal BoxScene.Glass
                               (mkVec2f (Fin 0) (Fin 0))))))%fl = true)
  /\ vadd (to_local (fst (Dielectric.sample BoxScene.Glass (fvec 0 0 1) (fvec 0 0 1)
                            (mkVec3f (Fin 0) (Fin 0) (Fin 0)))) (fvec 0 0 1))
          (normalize (to_local (fvec 0 0 1) (fvec 0 0 1)))
     = smul (Fin 2 * dot (normalize (to_local (fvec 0 0 1) (fvec 0 0 1)))
                         (fst (Dielectric.sample_normal BoxScene.Glass
                                 (mkVec2f (Fin 0) (Fin 0)))))%fl
            (fst (Dielectric.sample_normal BoxScene.Glass (mkVec2f (Fin 0) (Fin 0)))).
Proof.
  assert (He : 0 < 3 / 2) by lra.
  assert (Hu : 0 * 0 + 0 * 0 + 1 * 1 = 1) by lra.
  assert (Hq : 0 < 0 * 0 + 0 * 0 + 1 * 1) by lra.
  assert (Hu1 : 0 <= 0 < 1) by lra.
  assert (HF : (Fin 0 <? Dielectric.Fresnel BoxScene.Glass
                           (dot (normalize (to_local (fvec 0 0 1) (fvec 0 0 1)))
                                (fst (Dielectric.sample_normal BoxScene.Glass
                                        (mkVec2f (Fin 0) (Fin 0))))))%fl = true).
  { rewrite local_dir_z by lra. unfold BoxScene.Glass.
    rewrite sample_normal_at_0, dot_fvec.
    replace (0 * 0 + 0 * 0 + 1 * 1) with 1 by ring.
    rewrite Fresnel_normal_incidence by lra. apply fltb_Fin_true. lra. }
  split; [repeat split; try assumption; lra |].
  exact (proj2 (proj2 (proj1 (proj1 Dielectric_sample_mirror_but_not_snell
                                (3 / 2) (1 / 4) 0 0 1 0 0 1 0 0 0 He Hu Hq Hu1) HF))).
Defined.

(** ** The area light *)

Lemma sum_sq_zero (a b c : R) :
  a * a + b * b + c * c = 0 -> a = 0 /\ b = 0 /\ c = 0.
Proof.
  intros H.
  pose proof (Rle_0_sqr a) as Ha. pose proof (Rle_0_sqr b) as Hb.
  pose proof (Rle_0_sqr c) as Hc. unfold Rsqr in Ha, Hb, Hc.
  repeat split; apply Rsqr_0_uniq; unfold Rsqr; lra.
Qed.



(** ** What a row of the image costs and touches *)

Section RowFacts.

Variable Sampler : Type.
Variable next1d : Sampler -> float * Sampler.
Variable next2d : Sampler -> Vec2f * Sampler.
Variable next3d : Sampler -> Vec3f * Sampler.
Variable closest_hit : Vec3f -> Vec3f -> bool * float * Triangle.
Variable materials : list material.
Variable camera_position : Vec3f.
Variable generate_ray : float -> float -> Vec3f.
Variable vlt : Vec3f -> Vec3f -> bool.

Local Abbreviation shade :=
  (shade_with_light_sampling Sampler next1d next2d next3d closest_hit materials).
Local Abbreviation path :=
  (path_tracing_with_light_sampling Sampler next1d next2d next3d closest_hit materials).
Local Abbreviation samples :=
  (sample_loop Sampler next1d next2d next3d closest_hit materials camera_position
     generate_ray vlt).
Local Abbreviation pixel :=
  (render_pixel Sampler next1d next2d next3d closest_hit materials camera_position
     generate_ray vlt).
Local Abbreviation columns :=
  (column_loop Sampler next1d next2d next3d closest_hit materials camera_position
     generate_ray vlt).
Local Abbreviation row_of :=
  (renderRow Sampler next1d next2d next3d closest_hit materials camera_position
     generate_ray vlt).

Lemma draws_app (j k : nat) (a b : list event) :
  draws j a -> draws k b -> draws (j + k) (a ++ b).
Proof.
  unfold draws. intros (A1 & A2 & A3) (B1 & B2 & B3). rewrite !count_app.
  repeat split; lia.
Qed.

Lemma shade_draws (fuel : nat) :
  forall (tri : Triangle) (p wo : Vec3f) (st st' : state Sampler) (L : Vec3f),
    shade fuel tri p wo st = Some (L, st') ->
    exists tr, trace st' = trace st ++ tr /\ draws 0 tr.
Proof.
  induction fuel as [| k IH]; intros tri p wo st st' L H.
  - discriminate H.
  - revert H. run_shade.
    destruct (next2d (rng st)) as [u g1]. mstep.
    destruct (material_at materials (material_id tri)) as [mat |]; [| discriminate].
    mstep.
    destruct (next1d g1) as [r g2]. mstep.
    destruct (r >? p_rr)%fl.
    + intros H. injection H as <- <-. cbn [trace].
      exists [EvShade; EvNext2d; EvNext1d].
      rewrite <- !app_assoc. split; [reflexivity |]. unfold draws. cbn. lia.
    + destruct mat as [l | d].
      * mstep. destruct (next2d g2) as [u2 g3]. mstep.
        destruct (Lambertian.sample l (face_normal tri) u2) as [wi2 pdf_wi].
        destruct (closest_hit p wi2) as [[hit2 t2] tri2].
        destruct (hit2 && negb (is_emitter tri2))%bool.
        -- mstep. match goal with
           | |- context [shade k ?t ?q ?w ?s] =>
               destruct (shade k t q w s) as [[rec st1] |] eqn:Hrec; [| discriminate]
           end.
           intros H. injection H as <- <-.
           destruct (IH _ _ _ _ _ _ Hrec) as (tr & Htr & Hd).
           cbn [trace] in Htr.
           exists ([EvShade; EvNext2d; EvNext1d; EvNext2d] ++ tr).
           rewrite Htr, <- !app_assoc. split; [reflexivity |].
           apply (draws_app 0 0); [unfold draws; cbn; lia | exact Hd].
        -- intros H. injection H as <- <-. cbn [trace].
           exists [EvShade; EvNext2d; EvNext1d; EvNext2d].
           rewrite <- !app_assoc. split; [reflexivity |]. unfold draws. cbn. lia.
      * mstep. destruct (next3d g2) as [u3 g3]. mstep.
        destruct (Dielectric.sample d wo (face_normal tri) u3) as [wi2 pdf_wi].
        destruct (closest_hit p wi2) as [[hit2 t2] tri2].
        destruct (hit2 && negb (is_emitter tri2) && (pdf_wi >? Fin 0)%fl)%bool.
        -- mstep. match goal with
           | |- context [shade k ?t ?q ?w ?s] =>
               destruct (shade k t q w s) as [[rec st1] |] eqn:Hrec; [| discriminate]
           end.
           intros H. injection H as <- <-.
           destruct (IH _ _ _ _ _ _ Hrec) as (tr & Htr & Hd).
           cbn [trace] in Htr.
           exists ([EvShade; EvNext2d; EvNext1d; EvNext3d] ++ tr).
           rewrite Htr, <- !app_assoc. split; [reflexivity |].
           apply (draws_app 0 0); [unfold draws; cbn; lia | exact Hd].
        -- intros H. injection H as <- <-. cbn [trace].
           exists [EvShade; EvNext2d; EvNext1d; EvNext3d].
           rewrite <- !app_assoc. split; [reflexivity |]. unfold draws. cbn. lia.
Qed.

Lemma path_draws (fuel : nat) (o dir : Vec3f) (st st' : state Sampler) (L : Vec3f) :
  path fuel o dir st = Some (L, st') ->
  exists tr, trace st' = trace st ++ tr /\ draws 0 tr.
Proof.
  unfold path_tracing_with_light_sampling.
  destruct (closest_hit o dir) as [[hit t] tri].
  destruct (negb hit).
  - unfold ret. intros H. injection H as _ <-. exists []. rewrite app_nil_r.
    split; [reflexivity |]. unfold draws. cbn. lia.
  - destruct (is_emitter tri).
    + unfold ret. intros H. injection H as _ <-. exists []. rewrite app_nil_r.
      split; [reflexivity |]. unfold draws. cbn. lia.
    + apply shade_draws.
Qed.

Lemma sample_loop_draws (fuel : nat) (image : Image) (x row : Z) (n : nat) :
  forall (px px' : Vec3f) (st st' : state Sampler),
    samples fuel image x row n px st = Some (px', st') ->
    exists tr, trace st' = trace st ++ tr /\ draws (2 * n) tr.
Proof.
  induction n as [| n IH]; intros px px' st st'.
  - cbn [sample_loop]. unfold ret. intros H. injection H as _ <-.
    exists []. rewrite app_nil_r. split; [reflexivity |]. unfold draws. cbn. lia.
  - cbn [sample_loop]. unfold bind, draw1d. cbn [rng trace].
    destruct (next1d (rng st)) as [r1 g1]. mstep.
    destruct (next1d g1) as [r2 g2]. mstep.
    match goal with
    | |- context [path_tracing_with_light_sampling ?S ?a ?b ?c ?d ?m ?f ?o ?r ?s] =>
        destruct (path_tracing_with_light_sampling S a b c d m f o r s)
          as [[L st2] |] eqn:Hpath; [| discriminate]
    end.
    intros H.
    destruct (path_draws _ _ _ _ _ _ Hpath) as (tr1 & Htr1 & Hd1).
    destruct (IH _ _ _ _ H) as (tr2 & Htr2 & Hd2).
    cbn [trace] in Htr1.
    exists ([EvNext1d; EvNext1d] ++ tr1 ++ tr2).
    rewrite Htr2, Htr1, <- !app_assoc. split; [reflexivity |].
    replace (2 * S n)%nat with (2 + (0 + 2 * n))%nat by lia.
    apply draws_app; [unfold draws; cbn; lia |].
    apply draws_app; assumption.
Qed.

Lemma column_loop_draws (fuel : nat) (row max_spp : Z) (n : nat) :
  forall (image image' : Image) (st st' : state Sampler),
    columns fuel row max_spp n image st = Some (image', st') ->
    exists tr, trace st' = trace st ++ tr /\ draws (2 * (n * Z.to_nat max_spp)) tr.
Proof.
  induction n as [| n IH]; intros image image' st st'.
  - cbn [column_loop]. unfold ret. intros H. injection H as _ <-.
    exists []. rewrite app_nil_r. split; [reflexivity |]. unfold draws. cbn. lia.
  - cbn [column_loop]. unfold bind at 1. unfold render_pixel, bind at 1.
    match goal with
    | |- context [sample_loop ?S ?a ?b ?c ?d ?m ?o ?g ?f ?i ?x ?r ?k ?p ?s] =>
        destruct (sample_loop S a b c d m o g f i x r k p s)
          as [[px st1] |] eqn:Hpx; [| discriminate]
    end.
    unfold ret. intros H.
    destruct (sample_loop_draws _ _ _ _ _ _ _ _ _ Hpx) as (tr1 & Htr1 & Hd1).
    destruct (IH _ _ _ _ H) as (tr2 & Htr2 & Hd2).
    exists (tr1 ++ tr2). rewrite Htr2, Htr1, <- app_assoc. split; [reflexivity |].
    replace (2 * (S n * Z.to_nat max_spp))%nat
      with (2 * Z.to_nat max_spp + 2 * (n * Z.to_nat max_spp))%nat by lia.
    apply draws_app; assumption.
Qed.

(** The image keeps its dimensions, and only the [n] last columns of the
    row can change. *)
Lemma column_loop_frame (fuel : nat) (row max_spp : Z) (n : nat) :
  forall (image image' : Image) (st st' : state Sampler),
    columns fuel row max_spp n image st = Some (image', st') ->
    width image' = width image /\ height image' = height image
    /\ (forall x y, ~ ((width image - Z.of_nat n <= x < width image)%Z /\ y = row) ->
                    pixels image' x y = pixels image x y).
Proof.
  induction n as [| n IH]; intros image image' st st'.
  - cbn [column_loop]. unfold ret. intros H. injection H as <- _.
    repeat split; reflexivity.
  - cbn [column_loop]. unfold bind at 1.
    set (x0 := (width image - Z.of_nat (S n))%Z).
    destruct (pixel fuel image x0 row max_spp st) as [[px st1] |] eqn:Hpx;
      [| discriminate].
    intros H. destruct (IH _ _ _ _ H) as (Hw & Hh & Hout).
    cbn [set_pixel width height] in Hw, Hh, Hout.
    split; [exact Hw | split; [exact Hh |]].
    intros x y Hxy. rewrite Hout by lia.
    unfold set_pixel. cbn [pixels].
    destruct (Z.eqb x x0 && Z.eqb y row)%bool eqn:E; [| reflexivity].
    apply andb_true_iff in E. destruct E as [Ex Ey].
    apply Z.eqb_eq in Ex, Ey. exfalso. apply Hxy. unfold x0 in Ex. split; lia.
Qed.

End RowFacts.

(** X19: a run of [renderRow] draws two 1D numbers for each sample of each
    pixel of the row and one more for each entry into
    [shade_with_light_sampling] (the roulette); each entry draws one 2D
    light sample and at most one further 2D or 3D direction sample. *)
Theorem renderRow_sampler_use (Sampler : Type)
  (next1d : Sampler -> float * Sampler) (next2d : Sampler -> Vec2f * Sampler)
  (next3d : Sampler -> Vec3f * Sampler)
  (closest_hit : Vec3f -> Vec3f -> bool * float * Triangle)
  (materials : list material) (camera_position : Vec3f)
  (generate_ray : float -> float -> Vec3f) (vlt : Vec3f -> Vec3f -> bool)
  (fuel : nat) (row max_spp : Z) (image image' : Image) (st st' : state Sampler) :
  renderRow Sampler next1d next2d next3d closest_hit materials camera_position
    generate_ray vlt fuel row max_spp image st = Some (image', st') ->
  exists tr,
    trace st' = trace st ++ tr
    /\ count EvNext1d tr
       = (2 * (Z.to_nat (width image) * Z.to_nat max_spp) + count EvShade tr)%nat
    /\ (count EvShade tr <= count EvNext2d tr)%nat
    /\ (count EvNext2d tr + count EvNext3d tr <= 2 * count EvShade tr)%nat.
Proof.
  unfold renderRow. intros H.
  destruct (column_loop_draws _ _ _ _ _ _ _ _ _ _ _ _ _ _ _ _ _ H) as (tr & Htr & Hd).
  exists tr. split; [exact Htr | exact Hd].
Qed.

Lemma renderRow_sampler_use_witness :
  exists image' st',
    renderRow nat Demo.next1d Demo.next2d Demo.next3d Demo.never_hit
      BoxScene.materials vzero Demo.camera_ray Demo.some_channel_below 0%nat 0 1
      Demo.blank (mkState 0%nat [])
    = Some (image', st')
    /\ exists tr,
         trace st' = [] ++ tr
         /\ count EvNext1d tr
            = (2 * (Z.to_nat (width Demo.blank) * Z.to_nat 1) + count EvShade tr)%nat.
Proof.
  destruct renderRow_one_sample as (image' & st' & Hrun).
  exists image', st'. split; [exact Hrun |].
  destruct (renderRow_sampler_use nat Demo.next1d Demo.next2d Demo.next3d Demo.never_hit
              BoxScene.materials vzero Demo.camera_ray Demo.some_channel_below
              0%nat 0%Z 1%Z Demo.blank image'
              (mkState 0%nat []) st' Hrun) as (tr & Htr & H1 & _).
  exists tr. split; [exact Htr | exact H1].
Defined.

(** X20: a run of [renderRow] keeps the dimensions of the image and changes
    no pixel outside columns [0 .. width - 1] of its own row, whatever the
    number of samples. *)
Theorem renderRow_touches_its_row_only (Sampler : Type)
  (next1d : Sampler -> float * Sampler) (next2d : Sampler -> Vec2f * Sampler)
  (next3d : Sampler -> Vec3f * Sampler)
  (closest_hit : Vec3f -> Vec3f -> bool * float * Triangle)
  (materials : list material) (camera_position : Vec3f)
  (generate_ray : float -> float -> Vec3f) (vlt : Vec3f -> Vec3f -> bool)
  (fuel : nat) (row max_spp : Z) (image image' : Image) (st st' : state Sampler) :
  renderRow Sampler next1d next2d next3d closest_hit materials camera_position
    generate_ray vlt fuel row max_spp image st = Some (image', st') ->
  width image' = width image /\ height image' = height image
  /\ (forall x y, (y <> row \/ x < 0 \/ width image <= x)%Z ->
                  pixels image' x y = pixels image x y).
Proof.
  unfold renderRow. intros H.
  destruct (column_loop_frame _ _ _ _ _ _ _ _ _ _ _ _ _ _ _ _ _ H) as (Hw & Hh & Hout).
  split; [exact Hw | split; [exact Hh |]].
  intros x y Hxy. apply Hout. lia.
Qed.

Lemma renderRow_touches_its_row_only_witness :
  exists image' st',
    renderRow nat Demo.next1d Demo.next2d Demo.next3d Demo.never_hit
      BoxScene.materials vzero Demo.camera_ray Demo.some_channel_below 0%nat 0 1
      Demo.blank (mkState 0%nat [])
    = Some (image', st')
    /\ pixels image' 0 1 = pixels Demo.blank 0 1.
Proof.
  destruct renderRow_one_sample as (image' & st' & Hrun).
  exists image', st'. split; [exact Hrun |].
  apply (proj2 (proj2 (renderRow_touches_its_row_only nat Demo.next1d Demo.next2d
                         Demo.next3d Demo.never_hit BoxScene.materials vzero
                         Demo.camera_ray Demo.some_channel_below 0%nat 0%Z 1%Z
                         Demo.blank image'
                         (mkState 0%nat []) st' Hrun))).
  left. lia.
Defined.
